(** * Xiangqi-Claw: the rule engine, the position codec and the notation
    translator of the front end, embedded from
    [frontend/src/lib/fen.ts], [frontend/src/lib/xiangqi.ts],
    [frontend/src/lib/notation.ts] and [frontend/src/hooks/useGame.ts],
    with the handlers of [App.tsx] and of the components [MoveHistory],
    [BoardEditor], [PuzzleMode] and [ExplainPanel] that drive them.

    Numbers are [Z] (squares go off the grid before [inBounds] rejects them),
    texts are [string]s with one [ascii] per character (the FEN alphabet is
    7-bit), a board is the array of arrays the source has, read with list
    lookup and written with list update. *)

From Stdlib Require Import ZArith Lia Ascii String DecimalString.
From stdpp Require Import base list strings.

Local Open Scope string_scope.
Local Open Scope Z_scope.

(** ** Data model ([fen.ts]) *)

(** [PieceChar] and [Side] are string-literal types in the source; at run time
    they are plain characters and texts ([parseFen] casts without a test), so
    the embedding keeps the run-time carrier and states the typed range as
    predicates. *)
Abbreviation PieceChar := ascii (only parsing).
Abbreviation Side := string (only parsing).
Abbreviation Board := (list (list (option ascii))) (only parsing).

Record Square := mkSquare { row : Z; col : Z }.

Record Position := mkPosition { board : Board; turn : Side }.

Record Move := mkMove { from : Square; to : Square }.

Definition RANKS : nat := 10.
Definition COLS : nat := 9.

Definition STARTING_FEN : string :=
  "rnbakabnr/9/1c5c1/p1p1p1p1p/9/9/P1P1P1P1P/1C5C1/9/RNBAKABNR w - - 0 1".

Definition FILES : string := "abcdefghi".

(** The fourteen symbols of the type [PieceChar]. *)
Definition isPieceChar (p : ascii) : bool :=
  existsb (Ascii.eqb p) (list_ascii_of_string "rnbakcpRNBAKCP").

(** The two values of the type [Side]. *)
Definition isSide (s : string) : bool := String.eqb s "w" || String.eqb s "b".

(** A cell is empty or holds a piece symbol. *)
Definition cellOk (cl : option ascii) : Prop :=
  match cl with
  | Some p => isPieceChar p = true
  | None => True
  end.

Definition cellsOk (cells : list (option ascii)) : Prop := Forall cellOk cells.

(** A 10 by 9 grid whose occupied cells hold piece symbols. *)
Definition wf_board (b : Board) : Prop :=
  length b = RANKS /\
  Forall (fun rw => length rw = COLS) b /\
  Forall cellsOk b.

Definition wf_position (p : Position) : Prop :=
  wf_board (board p) /\ isSide (turn p) = true.

(** ** JavaScript string primitives used by the codec *)

(** [s.split(sep)] for a one-character separator. *)
Fixpoint split (sep : ascii) (s : string) : list string :=
  match s with
  | EmptyString => [EmptyString]
  | String ch rest =>
      if Ascii.eqb ch sep then EmptyString :: split sep rest
      else match split sep rest with
           | [] => [String ch EmptyString]
           | hd :: tl => String ch hd :: tl
           end
  end.

(** [ch.toUpperCase()] and [ch.toLowerCase()] on a 7-bit character. *)
Definition toUpperCase (ch : ascii) : ascii :=
  let n := nat_of_ascii ch in
  if ((97 <=? n) && (n <=? 122))%nat then ascii_of_nat (n - 32) else ch.

Definition toLowerCase (ch : ascii) : ascii :=
  let n := nat_of_ascii ch in
  if ((65 <=? n) && (n <=? 90))%nat then ascii_of_nat (n + 32) else ch.

(** [ch >= '1' && ch <= '9'] *)
Definition isGapDigit (ch : ascii) : bool :=
  let n := nat_of_ascii ch in ((49 <=? n) && (n <=? 57))%nat.

(** [parseInt(ch)] on a character that passed [isGapDigit]. *)
Definition gapOf (ch : ascii) : nat := (nat_of_ascii ch - 48)%nat.

(** The interpolation of a count into a text ([rank += empty]). *)
Definition numToString (n : nat) : string :=
  NilEmpty.string_of_uint (Nat.to_uint n).

(** ** Position codec ([fen.ts]) *)

Fixpoint parseRank (rank : string) : list (option ascii) :=
  match rank with
  | EmptyString => []
  | String ch rest =>
      (if isGapDigit ch then replicate (gapOf ch) None else [Some ch])
        ++ parseRank rest
  end.

(** [(parts[1] as Side) || 'w']: a missing or empty token reads as ['w']. *)
Definition turnToken (parts : list string) : string :=
  match parts !! 1%nat with
  | Some t => if String.eqb t "" then "w" else t
  | None => "w"
  end.

Definition parseFen (fen : string) : Position :=
  let parts := split " " fen in
  let ranks := split "/" (nth 0 parts "") in
  {| board := map parseRank ranks; turn := turnToken parts |}.

(** The loop body of [toFen] over one cell; the state is [(rank, empty)]. *)
Definition encodeCell (st : string * nat) (cell : option ascii) : string * nat :=
  let '(rank, empty) := st in
  match cell with
  | None => (rank, S empty)
  | Some p =>
      ((if (0 <? empty)%nat then rank ++ numToString empty else rank)
         ++ String p EmptyString, 0%nat)
  end.

Definition encodeRow (rw : list (option ascii)) : string :=
  let '(rank, empty) := fold_left encodeCell rw (EmptyString, 0%nat) in
  if (0 <? empty)%nat then rank ++ numToString empty else rank.

Definition toFen (pos : Position) : string :=
  String.concat "/" (map encodeRow (board pos))
    ++ " " ++ turn pos ++ " - - 0 1".

Definition isRedPiece (piece : ascii) : bool :=
  Ascii.eqb piece (toUpperCase piece).

(** [board[r][c]] on the grid. Every read of the rule engine is guarded by
    [inBounds] or by a loop over the 10 by 9 index range; outside the stored
    rows the source would fault, the model reads an empty cell. *)
Definition cellAt (b : Board) (r c : Z) : option ascii :=
  if (r <? 0) || (c <? 0) then None
  else match b !! Z.to_nat r with
       | Some rw => match rw !! Z.to_nat c with
                    | Some cl => cl
                    | None => None
                    end
       | None => None
       end.

(** [newBoard[r][c] = v] on the copy made by [board.map(row => [...row])].
    On a 10 by 9 board and a square of the grid, which is where the rule
    engine and the replay of well-formed tokens write, this is the update in
    place; off the stored rows and cells the list is left as it is, where the
    source would fault on a missing row or lengthen a row. *)
Definition setCell (b : Board) (r c : Z) (v : option ascii) : Board :=
  if (r <? 0) || (c <? 0) then b
  else alter (fun rw => <[Z.to_nat c := v]> rw) (Z.to_nat r) b.

(** The board after a piece is lifted from [f] and dropped on [t]: the three
    statements shared by [applyMove] and the simulation in
    [generateLegalMoves]. *)
Definition movePiece (b : Board) (f t : Square) : Board :=
  let b1 := setCell b (row t) (col t) (cellAt b (row f) (col f)) in
  setCell b1 (row f) (col f) None.

Definition flipSide (s : Side) : Side := if String.eqb s "w" then "b" else "w".

Definition applyMove (pos : Position) (f t : Square) : Position :=
  {| board := movePiece (board pos) f t; turn := flipSide (turn pos) |}.

(** ** Move generation ([xiangqi.ts]) *)

Definition pieceColor (p : ascii) : Side := if isRedPiece p then "w" else "b".

Definition inBounds (r c : Z) : bool :=
  (0 <=? r) && (r <? 10) && (0 <=? c) && (c <? 9).

Definition inPalace (r c : Z) (side : Side) : bool :=
  if (c <? 3) || (5 <? c) then false
  else if String.eqb side "w" then (7 <=? r) && (r <=? 9)
       else (0 <=? r) && (r <=? 2).

Definition ownHalf (r : Z) (side : Side) : bool :=
  if String.eqb side "w" then 5 <=? r else r <=? 4.

Definition canMoveTo (b : Board) (side : Side) (r c : Z) : bool :=
  if negb (inBounds r c) then false
  else match cellAt b r c with
       | Some target => negb (String.eqb (pieceColor target) side)
       | None => true
       end.

Definition orthogonal : list (Z * Z) := [(0, 1); (0, -1); (1, 0); (-1, 0)].

(** The inner loop of the chariot, from step [i] with [fuel] steps left
    ([i < 10]). *)
Fixpoint chariotRay (b : Board) (side : Side) (r0 c0 dr dc i : Z) (fuel : nat)
  : list Square :=
  match fuel with
  | O => []
  | S fuel' =>
      let nr := r0 + dr * i in
      let nc := c0 + dc * i in
      if negb (inBounds nr nc) then []
      else match cellAt b nr nc with
           | None => mkSquare nr nc :: chariotRay b side r0 c0 dr dc (i + 1) fuel'
           | Some t =>
               if negb (String.eqb (pieceColor t) side) then [mkSquare nr nc] else []
           end
  end.

(** The inner loop of the cannon, carrying the flag [jumped]. *)
Fixpoint cannonRay (b : Board) (side : Side) (r0 c0 dr dc : Z) (jumped : bool)
  (i : Z) (fuel : nat) : list Square :=
  match fuel with
  | O => []
  | S fuel' =>
      let nr := r0 + dr * i in
      let nc := c0 + dc * i in
      if negb (inBounds nr nc) then []
      else if negb jumped then
        match cellAt b nr nc with
        | None => mkSquare nr nc :: cannonRay b side r0 c0 dr dc false (i + 1) fuel'
        | Some _ => cannonRay b side r0 c0 dr dc true (i + 1) fuel'
        end
      else
        match cellAt b nr nc with
        | Some t =>
            if negb (String.eqb (pieceColor t) side) then [mkSquare nr nc] else []
        | None => cannonRay b side r0 c0 dr dc true (i + 1) fuel'
        end
  end.

Definition knightMoves : list (Z * Z * Z * Z) :=
  [(-2, -1, -1, 0); (-2, 1, -1, 0);
   (2, -1, 1, 0); (2, 1, 1, 0);
   (-1, -2, 0, -1); (-1, 2, 0, 1);
   (1, -2, 0, -1); (1, 2, 0, 1)].

Definition elephantMoves : list (Z * Z * Z * Z) :=
  [(-2, -2, -1, -1); (-2, 2, -1, 1);
   (2, -2, 1, -1); (2, 2, 1, 1)].

Definition diagonal : list (Z * Z) := [(-1, -1); (-1, 1); (1, -1); (1, 1)].

(** The facing-generals scan along the general's file, from row [r] in
    direction [dir]. *)
Fixpoint flyingScan (b : Board) (c0 : Z) (opponentKing : ascii) (dir r : Z)
  (fuel : nat) : list Square :=
  match fuel with
  | O => []
  | S fuel' =>
      if negb ((0 <=? r) && (r <? 10)) then []
      else match cellAt b r c0 with
           | Some p => if Ascii.eqb p opponentKing then [mkSquare r c0] else []
           | None => flyingScan b c0 opponentKing dir (r + dir) fuel'
           end
  end.

Definition pushIf (ok : bool) (r c : Z) : list Square :=
  if ok then [mkSquare r c] else [].

Definition generatePieceMoves (b : Board) (r0 c0 : Z) (piece : ascii)
  : list Square :=
  let side := pieceColor piece in
  let type := toLowerCase piece in
  if Ascii.eqb type "r" then
    flat_map (fun '(dr, dc) => chariotRay b side r0 c0 dr dc 1 9) orthogonal
  else if Ascii.eqb type "c" then
    flat_map (fun '(dr, dc) => cannonRay b side r0 c0 dr dc false 1 9) orthogonal
  else if Ascii.eqb type "n" then
    flat_map (fun '(dr, dc, blockR, blockC) =>
      let br := r0 + blockR in
      let bc := c0 + blockC in
      if negb (inBounds br bc) || bool_decide (cellAt b br bc <> None) then []
      else pushIf (canMoveTo b side (r0 + dr) (c0 + dc)) (r0 + dr) (c0 + dc))
      knightMoves
  else if Ascii.eqb type "b" then
    flat_map (fun '(dr, dc, blockR, blockC) =>
      let br := r0 + blockR in
      let bc := c0 + blockC in
      if negb (inBounds br bc) || bool_decide (cellAt b br bc <> None) then []
      else
        let nr := r0 + dr in
        let nc := c0 + dc in
        if negb (inBounds nr nc) then []
        else if negb (ownHalf nr side) then []
        else pushIf (canMoveTo b side nr nc) nr nc)
      elephantMoves
  else if Ascii.eqb type "a" then
    flat_map (fun '(dr, dc) =>
      let nr := r0 + dr in
      let nc := c0 + dc in
      if negb (inPalace nr nc side) then []
      else pushIf (canMoveTo b side nr nc) nr nc)
      diagonal
  else if Ascii.eqb type "k" then
    let steps :=
      flat_map (fun '(dr, dc) =>
        let nr := r0 + dr in
        let nc := c0 + dc in
        if negb (inPalace nr nc side) then []
        else pushIf (canMoveTo b side nr nc) nr nc)
        orthogonal in
    let opponentKing := if String.eqb side "w" then "k"%char else "K"%char in
    steps ++ flat_map (fun dir => flyingScan b c0 opponentKing dir (r0 + dir) 10)
                      [-1; 1]
  else if Ascii.eqb type "p" then
    if String.eqb side "w" then
      pushIf (canMoveTo b side (r0 - 1) c0) (r0 - 1) c0
        ++ (if negb (ownHalf r0 side) then
              pushIf (canMoveTo b side r0 (c0 - 1)) r0 (c0 - 1)
                ++ pushIf (canMoveTo b side r0 (c0 + 1)) r0 (c0 + 1)
            else [])
    else
      pushIf (canMoveTo b side (r0 + 1) c0) (r0 + 1) c0
        ++ (if negb (ownHalf r0 side) then
              pushIf (canMoveTo b side r0 (c0 - 1)) r0 (c0 - 1)
                ++ pushIf (canMoveTo b side r0 (c0 + 1)) r0 (c0 + 1)
            else [])
  else [].

(** The index range of the two nested loops [r < 10], [c < 9], in visiting
    order. *)
Definition allSquares : list Square :=
  flat_map (fun r => map (fun c => mkSquare r c) (seqZ 0 9)) (seqZ 0 10).

Definition kingOf (side : Side) : ascii :=
  if String.eqb side "w" then "K"%char else "k"%char.

Definition findKing (b : Board) (side : Side) : option Square :=
  find (fun sq => bool_decide (cellAt b (row sq) (col sq) = Some (kingOf side)))
       allSquares.

Definition sameSquare (m sq : Square) : bool :=
  (row m =? row sq) && (col m =? col sq).

Definition isUnderAttack (b : Board) (sq : Square) (byWhom : Side) : bool :=
  existsb (fun s =>
    match cellAt b (row s) (col s) with
    | None => false
    | Some p =>
        if negb (String.eqb (pieceColor p) byWhom) then false
        else existsb (fun m => sameSquare m sq)
                     (generatePieceMoves b (row s) (col s) p)
    end) allSquares.

Definition isInCheck (pos : Position) : bool :=
  match findKing (board pos) (turn pos) with
  | None => false
  | Some kingSq => isUnderAttack (board pos) kingSq (flipSide (turn pos))
  end.

(** The test of the innermost loop body of [generateLegalMoves]: the
    simulated board keeps the mover's general, and it is not attacked. *)
Definition keepsKingSafe (b : Board) (side : Side) (f t : Square) : bool :=
  let newBoard := movePiece b f t in
  match findKing newBoard side with
  | None => false
  | Some kingSq => negb (isUnderAttack newBoard kingSq (flipSide side))
  end.

Definition generateLegalMoves (pos : Position) : list Move :=
  flat_map (fun s =>
    match cellAt (board pos) (row s) (col s) with
    | None => []
    | Some p =>
        if negb (String.eqb (pieceColor p) (turn pos)) then []
        else map (fun t => mkMove s t)
                 (List.filter (fun t => keepsKingSafe (board pos) (turn pos) s t)
                              (generatePieceMoves (board pos) (row s) (col s) p))
    end) allSquares.

Definition sameMove (m : Move) (f t : Square) : bool :=
  sameSquare (from m) f && sameSquare (to m) t.

Definition isLegalMove (pos : Position) (f t : Square) : bool :=
  existsb (fun m => sameMove m f t) (generateLegalMoves pos).

Definition isCheckmate (pos : Position) : bool :=
  if negb (isInCheck pos) then false
  else bool_decide (length (generateLegalMoves pos) = 0%nat).

Definition isStalemate (pos : Position) : bool :=
  if isInCheck pos then false
  else bool_decide (length (generateLegalMoves pos) = 0%nat).

Definition getLegalTargets (pos : Position) (f : Square) : list Square :=
  map to (List.filter (fun m => sameSquare (from m) f) (generateLegalMoves pos)).

(** ** Machine move tokens ([fen.ts]) *)

(** [arr[i]] for a number [i]: [undefined] (here [None]) off the array. *)
Definition index {A} (l : list A) (i : Z) : option A :=
  if i <? 0 then None else l !! Z.to_nat i.

Definition zToString (z : Z) : string := NilZero.string_of_int (Z.to_int z).

Definition squareToUci (sq : Square) : string :=
  match index (list_ascii_of_string FILES) (col sq) with
  | Some ch => String ch EmptyString
  | None => "undefined"
  end ++ zToString (9 - row sq).

Definition uciMove (f t : Square) : string := squareToUci f ++ squareToUci t.

(** [FILES.indexOf(ch)], for a file letter. *)
Fixpoint indexOf (ch : ascii) (l : list ascii) (i : Z) : option Z :=
  match l with
  | [] => None
  | x :: rest => if Ascii.eqb x ch then Some i else indexOf ch rest (i + 1)
  end.

Definition isDigit (ch : ascii) : bool :=
  let n := nat_of_ascii ch in ((48 <=? n) && (n <=? 57))%nat.

(** [parseInt(s[i])]: the digit's value, [None] for [NaN]. *)
Definition parseIntAt (s : string) (i : nat) : option Z :=
  match String.get i s with
  | Some ch => if isDigit ch then Some (Z.of_nat (nat_of_ascii ch) - 48) else None
  | None => None
  end.

(** [uciToSquare] on a token whose file is one of [FILES] and whose rank is a
    digit. On any other token the source goes on with column -1 or row [NaN];
    that continuation is not modelled and reads [None] here. *)
Definition uciToSquare (uci : string) : option Square :=
  match String.get 0 uci with
  | Some ch =>
      match indexOf ch (list_ascii_of_string FILES) 0, parseIntAt uci 1 with
      | Some c, Some rank => Some {| row := 9 - rank; col := c |}
      | _, _ => None
      end
  | None => None
  end.

Definition parseUciMove (move : string) : option (Square * Square) :=
  match uciToSquare (substring 0 2 move), uciToSquare (substring 2 2 move) with
  | Some f, Some t => Some (f, t)
  | _, _ => None
  end.

(** ** Notation translator ([notation.ts]) *)

Definition PIECE_NAMES : list (ascii * string) :=
  [("R"%char, "车"); ("N"%char, "马"); ("B"%char, "相"); ("A"%char, "仕");
   ("K"%char, "帅"); ("C"%char, "炮"); ("P"%char, "兵");
   ("r"%char, "车"); ("n"%char, "马"); ("b"%char, "象"); ("a"%char, "士");
   ("k"%char, "将"); ("c"%char, "炮"); ("p"%char, "卒")].

Definition RED_DIGITS : list string :=
  [""; "一"; "二"; "三"; "四"; "五"; "六"; "七"; "八"; "九"].

Definition BLACK_DIGITS : list string :=
  [""; "1"; "2"; "3"; "4"; "5"; "6"; "7"; "8"; "9"].

Definition lateralGlyph : string := "平".
Definition advanceGlyph : string := "进".
Definition retreatGlyph : string := "退".

(** [PIECE_NAMES[piece] || '?'] *)
Definition pieceNameOf (piece : ascii) : string :=
  match List.find (fun kv => Ascii.eqb (fst kv) piece) PIECE_NAMES with
  | Some kv => snd kv
  | None => "?"
  end.

(** [`${digits[n]}`] for a number [n] that may be [NaN] ([None]). *)
Definition digitText (digits : list string) (n : option Z) : string :=
  match n ≫= index digits with
  | Some d => d
  | None => "undefined"
  end.

(** The result of a call: the text returned, or the [TypeError] raised when a
    missing row is indexed. *)
Inductive Outcome := Returns (text : string) | Throws.

Definition uciToChineseNotation (uciMove fen : string) : Outcome :=
  let pos := parseFen fen in
  let fromCol := (fun ch => Z.of_nat (nat_of_ascii ch) - 97) <$> String.get 0 uciMove in
  let fromRank := parseIntAt uciMove 1 in
  let toCol := (fun ch => Z.of_nat (nat_of_ascii ch) - 97) <$> String.get 2 uciMove in
  let toRank := parseIntAt uciMove 3 in
  let fromRow := (fun x => 9 - x) <$> fromRank in
  let toRow := (fun x => 9 - x) <$> toRank in
  match fromRow with
  | None => Throws
  | Some fromRow =>
  match index (board pos) fromRow with
  | None => Throws
  | Some rw =>
      match fromCol ≫= index rw with
      | None | Some None => Returns uciMove
      | Some (Some piece) =>
          let isRed := isRedPiece piece in
          let digits := if isRed then RED_DIGITS else BLACK_DIGITS in
          let pieceName := pieceNameOf piece in
          let colDisplay := (fun c => if isRed then 9 - c else c + 1) <$> fromCol in
          let pType := toLowerCase piece in
          let '(action, target) :=
            if bool_decide (Some fromRow = toRow) then
              let destCol := (fun c => if isRed then 9 - c else c + 1) <$> toCol in
              (lateralGlyph, digitText digits destCol)
            else
              let forward :=
                match toRow with
                | Some toRow => if isRed then toRow <? fromRow else fromRow <? toRow
                | None => false
                end in
              (if forward then advanceGlyph else retreatGlyph,
               if Ascii.eqb pType "r" || Ascii.eqb pType "c"
                  || Ascii.eqb pType "p" || Ascii.eqb pType "k"
               then digitText digits ((fun toRow => Z.abs (toRow - fromRow)) <$> toRow)
               else
                 let destCol := (fun c => if isRed then 9 - c else c + 1) <$> toCol in
                 digitText digits destCol) in
          Returns (pieceName ++ digitText digits colDisplay ++ action ++ target)
      end
  end
  end.

(** ** Game state machine ([useGame.ts]) *)

Record MoveRecord := mkMoveRecord { uci : string; fen : string }.

(** The five state cells of the hook. *)
Record GameState := mkGameState {
  baseFen : string;
  position : Position;
  moveHistory : list MoveRecord;
  currentIndex : Z;
  gameOver : option string
}.

Definition useGame (defaultFen : string) : GameState :=
  {| baseFen := defaultFen;
     position := parseFen defaultFen;
     moveHistory := [];
     currentIndex := -1;
     gameOver := None |}.

(** [tryMove]: the answer and the state after the call. *)
Definition tryMove (st : GameState) (f t : Square) : bool * GameState :=
  match gameOver st with
  | Some _ => (false, st)
  | None =>
      if negb (isLegalMove (position st) f t) then (false, st)
      else
        let newPos := applyMove (position st) f t in
        let move := uciMove f t in
        let newHistory :=
          (take (Z.to_nat (currentIndex st + 1)) (moveHistory st)
             ++ [mkMoveRecord move (toFen newPos)])%list in
        (true,
         {| baseFen := baseFen st;
            position := newPos;
            moveHistory := newHistory;
            currentIndex := Z.of_nat (length newHistory) - 1;
            gameOver :=
              if isCheckmate newPos then
                Some (if String.eqb (turn newPos) "w" then "黑方胜" else "红方胜")
              else if isStalemate newPos then Some "和棋"
              else None |})
  end.

(** [tryMoveUci] on a well-formed token (see [uciToSquare]). *)
Definition tryMoveUci (st : GameState) (uci : string) : option (bool * GameState) :=
  match parseUciMove uci with
  | Some (f, t) => Some (tryMove st f t)
  | None => None
  end.

(** The body of the replay loop of [loadMoves] on one token. *)
Definition replayStep (acc : option (Position * list MoveRecord)) (m : string)
  : option (Position * list MoveRecord) :=
  match acc with
  | None => None
  | Some (pos, history) =>
      match parseUciMove m with
      | None => None
      | Some (f, t) =>
          let pos' := applyMove pos f t in
          Some (pos', (history ++ [mkMoveRecord m (toFen pos')])%list)
      end
  end.

(** [loadMoves(moves, startFen?)]: the state after the call, [None] when a
    token is outside the modelled form (see [uciToSquare]). *)
Definition loadMoves (st : GameState) (moves : list string)
  (startFen : option string) : option GameState :=
  let fen :=
    match startFen with
    | Some f => if String.eqb f "" then baseFen st else f
    | None => baseFen st
    end in
  match fold_left replayStep moves (Some (parseFen fen, [])) with
  | None => None
  | Some (pos, history) =>
      Some {| baseFen := fen;
              position := pos;
              moveHistory := history;
              currentIndex := Z.of_nat (length history) - 1;
              gameOver := None |}
  end.

(** ** Analysis dispatcher *)

Module Dispatcher.

(** Modelled from the spec: the dispatcher is backend code
    ([backend/routers/analysis.py]) and is not among the sources; only its
    client [useEngine.ts] is. An event is the tagged union of section 3, with
    the fields [EngineInfo] and [EngineResult] of [useEngine.ts] that identify
    it. *)
Inductive AnalysisEvent :=
| Progress (depth : Z) (score_cp : Z) (pv : list string)
| Result (best_move : string) (depth : Z).

(** Modelled from the spec: what reaches the missing dispatcher, a request
    of its client or an event that the engine session emitted for the request
    numbered [seq]. *)
Inductive Input :=
| Submit (fen : string) (depth : Z)
| Emit (seq : nat) (ev : AnalysisEvent).

(** Modelled from the spec: the state of the missing dispatcher, the highest
    sequence number issued and the stream relayed to the client so far, each
    event with the number of its request. *)
Record State := mkState {
  current : nat;
  relayed : list (nat * AnalysisEvent)
}.

(** Modelled from the spec: the missing dispatcher before any request. *)
Definition init : State := {| current := 0; relayed := [] |}.

(** Modelled from the spec: one step of the missing dispatcher, after
    section 5 of the specification. Each request owns a monotonically
    increasing sequence number, events are tagged with the sequence number of
    the request that produced them, and the client-facing relay drops any
    event whose sequence number is not the current highest. *)
Definition step (st : State) (i : Input) : State :=
  match i with
  | Submit _ _ => {| current := S (current st); relayed := relayed st |}
  | Emit seq ev =>
      if Nat.eqb seq (current st)
      then {| current := current st;
              relayed := (relayed st ++ [(seq, ev)])%list |}
      else st
  end.

(** Modelled from the spec: the missing dispatcher run over the inputs of a
    connection, in arrival order. *)
Definition run (trace : list Input) : State := fold_left step trace init.

(** Everything relayed carries a number that was issued, and the numbers
    never go down along the stream. *)
Definition ordered (st : State) : Prop :=
  (forall s e, In (s, e) (relayed st) -> (s <= current st)%nat) /\
  (forall pre s2 e2 post,
      relayed st = (pre ++ (s2, e2) :: post)%list ->
      forall s e, In (s, e) post -> (s2 <= s)%nat).

End Dispatcher.

(** ** Vocabulary of the statements *)

(** The squares strictly between two squares of one rank or one file, walking
    from the first towards the second. *)
Definition between (r0 c0 tr tc : Z) : list Square :=
  map (fun j => mkSquare (r0 + Z.sgn (tr - r0) * j) (c0 + Z.sgn (tc - c0) * j))
      (seqZ 1 (Z.max (Z.abs (tr - r0)) (Z.abs (tc - c0)) - 1)).

Definition occupied (b : Board) (sq : Square) : bool :=
  match cellAt b (row sq) (col sq) with
  | Some _ => true
  | None => false
  end.

(** How many pieces, of either side, stand strictly between two squares. *)
Definition occupiedBetween (b : Board) (r0 c0 tr tc : Z) : nat :=
  length (List.filter (occupied b) (between r0 c0 tr tc)).

(** The same count along a direction: [n] squares from step [i] on. *)
Fixpoint occupiedFrom (b : Board) (r0 c0 dr dc i : Z) (n : nat) : nat :=
  match n with
  | O => 0
  | S n' =>
      ((if occupied b (mkSquare (r0 + dr * i) (c0 + dc * i)) then 1 else 0)
       + occupiedFrom b r0 c0 dr dc (i + 1) n')%nat
  end.

(** The 10 by 9 board whose cell at [(r, c)] is [f r c]. *)
Definition tabulate (f : Z -> Z -> option ascii) : Board :=
  (fun r => (fun c => f r c) <$> seqZ 0 9) <$> seqZ 0 10.

(** The cells of a board that holds a red general at [(rK, c)], a black one
    at [(rk, c)], and nothing else. *)
Definition generalsAt (c rK rk : Z) (r' c' : Z) : option ascii :=
  if (c' =? c) && (r' =? rK) then Some "K"%char
  else if (c' =? c) && (r' =? rk) then Some "k"%char
  else None.

(** The capture of the facing general that the side to move is expected to
    have. *)
Definition flyingCapture (side : Side) (c rK rk : Z) : Move :=
  if String.eqb side "w" then mkMove (mkSquare rK c) (mkSquare rk c)
  else mkMove (mkSquare rk c) (mkSquare rK c).

Definition flyingCaptureFound (side : Side) (c rK rk : Z) : bool :=
  let m := flyingCapture side c rK rk in
  isLegalMove {| board := tabulate (generalsAt c rK rk); turn := side |}
              (from m) (to m).

(** What [toFen] still has to write for the cells left of a row when [empty]
    empty cells are pending: the loop of [encodeRow] read from the front. *)
Fixpoint encodeTail (cells : list (option ascii)) (empty : nat) : string :=
  match cells with
  | [] => if (0 <? empty)%nat then numToString empty else EmptyString
  | None :: rest => encodeTail rest (S empty)
  | Some p :: rest =>
      (if (0 <? empty)%nat then numToString empty else EmptyString)
        ++ String p (encodeTail rest 0)
  end.

(** The number a side reads on a file: counted from the right for red, from
    the left for black. *)
Definition fileNumber (red : bool) (c : Z) : Z := if red then 9 - c else c + 1.

(** Chariot, cannon, soldier and general: the pieces whose advance or retreat
    is written with the number of ranks crossed. *)
Definition countsRanks (piece : ascii) : bool :=
  existsb (Ascii.eqb (toLowerCase piece)) (list_ascii_of_string "rcpk").

(** Forward is towards row 0 for red and towards row 9 for black. *)
Definition movesForward (red : bool) (f t : Square) : bool :=
  if red then row t <? row f else row f <? row t.

Definition actionGlyph (red : bool) (f t : Square) : string :=
  if row f =? row t then lateralGlyph
  else if movesForward red f t then advanceGlyph
  else retreatGlyph.

Definition quantity (piece : ascii) (f t : Square) : Z :=
  if negb (row f =? row t) && countsRanks piece then Z.abs (row t - row f)
  else fileNumber (isRedPiece piece) (col t).

(** Ideographic digits for red, numerals for black. *)
Definition digitGlyph (red : bool) (n : Z) : string :=
  nth (Z.to_nat n) (if red then RED_DIGITS else BLACK_DIGITS) EmptyString.







(** The opening position, decoded. *)
Definition startPosition : Position := Eval vm_compute in parseFen STARTING_FEN.

(** The positions of play: the opening position, and every position that a
    legal move leads to. *)
Inductive reachable : Position -> Prop :=
| reachable_start : reachable (parseFen STARTING_FEN)
| reachable_move (p : Position) (m : Move) :
    reachable p ->
    In m (generateLegalMoves p) ->
    reachable (applyMove p (from m) (to m)).

(** ** Sample positions *)

(** Black is mated by two chariots on its back ranks. *)
Definition matePosition : Position :=
  Eval vm_compute in parseFen "R3k4/R8/9/9/9/9/9/9/9/3K5 b - - 0 1".

(** Black is not in check and cannot move. *)
Definition stalePosition : Position :=
  Eval vm_compute in parseFen "3k5/8R/9/9/9/9/9/9/9/4RK3 b - - 0 1".

(** Black is to move and has no general. *)
Definition headlessPosition : Position :=
  Eval vm_compute in parseFen "r8/9/9/9/9/9/9/9/9/4K4 b - - 0 1".

(** A red cannon on its back rank with three black soldiers to its right. *)
Definition cannonPosition : Position :=
  Eval vm_compute in parseFen "4k4/9/9/9/9/9/9/9/9/C1p1p1p2 w - - 0 1".

(** A stream of inputs in which the first request is superseded while its
    search is still reporting. *)
Definition supersededTrace : list Dispatcher.Input :=
  [Dispatcher.Submit STARTING_FEN 18;
   Dispatcher.Emit 1 (Dispatcher.Progress 1 30 ["b2e2"]);
   Dispatcher.Submit "rnbakabnr/9/1c5c1/p1p1p1p1p/9/9/P1P1P1P1P/1C2C4/9/RNBAKABNR b - - 0 1" 18;
   Dispatcher.Emit 1 (Dispatcher.Progress 2 28 ["b2e2"; "h9g7"]);
   Dispatcher.Emit 2 (Dispatcher.Progress 1 (-25) ["h9g7"]);
   Dispatcher.Emit 1 (Dispatcher.Result "b2e2" 2);
   Dispatcher.Emit 2 (Dispatcher.Result "h9g7" 1)].

(** ** The rest of the rule engine and of the hooks *)

(** [getLegalMovesUci] ([xiangqi.ts]). *)
Definition getLegalMovesUci (pos : Position) : list string :=
  map (fun m => uciMove (from m) (to m)) (generateLegalMoves pos).

(** [goToMove(index)] ([useGame.ts]): the state after the call. *)
Definition goToMove (st : GameState) (i : Z) : GameState :=
  if (i <? -1) || (Z.of_nat (length (moveHistory st)) <=? i) then st
  else
    {| baseFen := baseFen st;
       position :=
         if i =? -1 then parseFen (baseFen st)
         else match index (moveHistory st) i with
              | Some rec => parseFen (fen rec)
              | None => position st
              end;
       moveHistory := moveHistory st;
       currentIndex := i;
       gameOver := gameOver st |}.

(** [reset(fen?)] ([useGame.ts]), in a hook created with [defaultFen]. *)
Definition reset (defaultFen : string) (fen : option string) : GameState :=
  let f := match fen with
           | Some f => if String.eqb f "" then defaultFen else f
           | None => defaultFen
           end in
  {| baseFen := f;
     position := parseFen f;
     moveHistory := [];
     currentIndex := -1;
     gameOver := None |}.

(** [getFenBefore(i)] ([MoveHistory.tsx]): the text of the position in which
    move [i] of the record was played. *)
Definition getFenBefore (startFen : string) (moves : list MoveRecord) (i : Z)
  : option string :=
  if i =? 0 then Some startFen else fen <$> index moves (i - 1).

(** A square a piece of [side] may land on: on the grid, and not on a piece
    of its own side. *)
Definition landable (b : Board) (side : Side) (r c : Z) : Prop :=
  inBounds r c = true /\
  forall q, cellAt b r c = Some q -> pieceColor q <> side.

(** Two distinct squares on one rank or one file. *)
Definition onLine (r0 c0 tr tc : Z) : Prop :=
  tr = r0 /\ tc <> c0 \/ tc = c0 /\ tr <> r0.

(** The row step that is forward for a side: towards row 0 for red, towards
    row 9 for black. *)
Definition forwardStep (side : Side) : Z := if String.eqb side "w" then -1 else 1.

(** A record of the history is legal in the position it was played in: its
    token reads as a move that the rules accept there, and its text is the
    text of the position after that move. *)
Definition legalRecord (before : Position) (rec : MoveRecord) : Prop :=
  exists f t,
    parseUciMove (uci rec) = Some (f, t) /\
    isLegalMove before f t = true /\
    fen rec = toFen (applyMove before f t).

(** The state of the hook describes a legal game: the index points into the
    history, the position shown is the one the history gives at the index, and
    every record is legal in the position that [getFenBefore] gives for it. *)
Definition legalGame (st : GameState) : Prop :=
  wf_position (parseFen (baseFen st)) /\
  wf_position (position st) /\
  -1 <= currentIndex st < Z.of_nat (length (moveHistory st)) /\
  (exists s,
      getFenBefore (baseFen st) (moveHistory st) (currentIndex st + 1) = Some s /\
      position st = parseFen s) /\
  forall (i : nat) (rec : MoveRecord),
    moveHistory st !! i = Some rec ->
    exists s,
      getFenBefore (baseFen st) (moveHistory st) (Z.of_nat i) = Some s /\
      wf_position (parseFen s) /\
      legalRecord (parseFen s) rec.

(** The states a session goes through: the hook's first state, then any
    attempt to move, any navigation, and any reset to a well-formed position. *)
Inductive played (defaultFen : string) : GameState -> Prop :=
| played_start : played defaultFen (useGame defaultFen)
| played_tryMove (st : GameState) (f t : Square) :
    played defaultFen st -> played defaultFen (snd (tryMove st f t))
| played_goToMove (st : GameState) (i : Z) :
    played defaultFen st -> played defaultFen (goToMove st i)
| played_reset (fen : option string) :
    wf_position (position (reset defaultFen fen)) ->
    played defaultFen (reset defaultFen fen).

(** A run of text moves, each accepted: the state after the calls of
    [tryMoveUci] that [handleTextMove] ([App.tsx]) makes for them, [None] as
    soon as one is refused. *)
Definition playStep (acc : option GameState) (m : string) : option GameState :=
  match acc with
  | Some st =>
      match tryMoveUci st m with
      | Some (true, st') => Some st'
      | _ => None
      end
  | None => None
  end.

Definition playTokens (st : GameState) (moves : list string) : option GameState :=
  fold_left playStep moves (Some st).

(** ** Position editor ([BoardEditor.tsx]) *)

Module BoardEditor.

(** The value of [selectedPiece]: a piece of the two pickers or the eraser;
    [null] is [None]. *)
Inductive Tool := Piece (p : ascii) | Erase.

Definition sameTool (a b : Tool) : bool :=
  match a, b with
  | Piece p, Piece q => Ascii.eqb p q
  | Erase, Erase => true
  | _, _ => false
  end.

(** [parseFen(STARTING_FEN).board], the board the editor opens with and
    resets to. *)
Definition startBoard : Board := board (parseFen STARTING_FEN).

(** The three states of the component that the handlers below read and
    write. *)
Record State := mkState {
  board : Board;
  turn : Side;
  selectedPiece : option Tool
}.

Definition RED_PIECES : list ascii := ["K"; "R"; "N"; "B"; "A"; "C"; "P"]%char.
Definition BLACK_PIECES : list ascii := ["k"; "r"; "n"; "b"; "a"; "c"; "p"]%char.

Definition init : State := mkState startBoard "w" None.

(** The click on a picker entry: [setSelectedPiece(selectedPiece === p ? null : p)]. *)
Definition pick (st : State) (tool : Tool) : State :=
  mkState (board st) (turn st)
    (match selectedPiece st with
     | Some cur => if sameTool cur tool then None else Some tool
     | None => Some tool
     end).

(** [handleCellClick(row, col)]; the write is [setCell], which is the
    assignment [next[row][col] = v] on the squares the grid is drawn with. *)
Definition handleCellClick (st : State) (r c : Z) : State :=
  match selectedPiece st with
  | None => st
  | Some Erase => mkState (setCell (board st) r c None) (turn st) (selectedPiece st)
  | Some (Piece p) =>
      mkState (setCell (board st) r c (Some p)) (turn st) (selectedPiece st)
  end.

Definition handleClear (st : State) : State :=
  mkState (replicate 10 (replicate 9 None)) (turn st) (selectedPiece st).

Definition handleReset (st : State) : State :=
  mkState startBoard "w" (selectedPiece st).

Definition setTurn (st : State) (side : Side) : State :=
  mkState (board st) side (selectedPiece st).

(** [handleConfirm]: the text handed to [onConfirm]. *)
Definition handleConfirm (st : State) : string :=
  toFen (mkPosition (board st) (turn st)).

(** What the user does in the editor, apart from importing a text. *)
Inductive Event :=
| Pick (tool : Tool)
| CellClick (r c : Z)
| Clear
| Reset
| SetTurn (side : Side).

(** The events the rendered component can raise: picker entries come from
    [RED_PIECES] and [BLACK_PIECES], cells from the loops over the 10 by 9
    grid, and the two turn buttons pass ['w'] and ['b']. *)
Definition offered (e : Event) : Prop :=
  match e with
  | Pick (Piece p) => In p (RED_PIECES ++ BLACK_PIECES)%list
  | Pick Erase => True
  | CellClick r c => inBounds r c = true
  | Clear => True
  | Reset => True
  | SetTurn side => side = "w" \/ side = "b"
  end.

Definition step (st : State) (e : Event) : State :=
  match e with
  | Pick tool => pick st tool
  | CellClick r c => handleCellClick st r c
  | Clear => handleClear st
  | Reset => handleReset st
  | SetTurn side => setTurn st side
  end.

Definition run (events : list Event) : State := fold_left step events init.

End BoardEditor.

(** What the editor keeps true of its state. *)
Definition editorOk (st : BoardEditor.State) : Prop :=
  wf_position (mkPosition (BoardEditor.board st) (BoardEditor.turn st)) /\
  forall p, BoardEditor.selectedPiece st = Some (BoardEditor.Piece p) ->
            isPieceChar p = true.

(** Square [(r, c)] comes before [k] in the order in which the loops over the
    board visit the squares: rank by rank from row 0, left to right. *)
Definition readsBefore (r c : Z) (k : Square) : Prop :=
  r < row k \/ r = row k /\ c < col k.

(** [k] is the first square, in that order, that holds the general of
    [side]. *)
Definition firstGeneral (b : Board) (side : Side) (k : Square) : Prop :=
  inBounds (row k) (col k) = true /\
  cellAt b (row k) (col k) = Some (kingOf side) /\
  forall r c, inBounds r c = true -> readsBefore r c k ->
              cellAt b r c <> Some (kingOf side).

(** ** Tokens built by the components ([App.tsx], [PuzzleMode.tsx]) *)

(** The template
    [`${String.fromCharCode(97 + from.col)}${9 - from.row}${String.fromCharCode(97 + to.col)}${9 - to.row}`]
    of [handleBoardMove] and of the puzzle's [handleMove]; both build it only
    after [isLegalMove] has accepted the squares, which are then on the grid
    and give letters of the 7-bit range. *)
Definition charOfCol (c : Z) : string :=
  String (ascii_of_nat (Z.to_nat (97 + c))) EmptyString.

Definition templateUci (f t : Square) : string :=
  charOfCol (col f) ++ zToString (9 - row f)
    ++ charOfCol (col t) ++ zToString (9 - row t).

(** ** Move grading ([ExplainPanel.tsx], fed by [App.tsx]) *)

Module ExplainPanel.

Inductive Quality := best | ok | blunder.

(** Scores are centipawn numbers; the function compares them with constants
    and nothing else. *)
Definition classifySimple (userMove bestMove : string)
  (userScoreCp _bestScoreCp prevScoreCp : Z) : Quality :=
  if String.eqb userMove bestMove then best
  else
    let wasWinning := 50 <? prevScoreCp in
    let nowLosing := userScoreCp <? -50 in
    if wasWinning && nowLosing then blunder else ok.

(** The fields of the panel's properties that the grading reads. *)
Record Props := mkProps {
  userMove : string;
  bestMove : string;
  userScoreCp : Z;
  bestScoreCp : Z;
  prevScoreCp : Z
}.

(** The object [handleBoardMove] and [handleTextMove] pass to
    [setExplainData], on these fields: [score_cp] is [engine.info?.score_cp],
    read twice in the same call. *)
Definition explainData (uci best_move : string) (score_cp : option Z) : Props :=
  let prevScore := default 0 score_cp in
  {| userMove := uci;
     bestMove := best_move;
     userScoreCp := - (default 0 score_cp);
     bestScoreCp := prevScore;
     prevScoreCp := prevScore |}.

(** [quality] of the panel: [null] when a move text is empty. *)
Definition quality (p : Props) : option Quality :=
  if negb (String.eqb (userMove p) "") && negb (String.eqb (bestMove p) "")
  then Some (classifySimple (userMove p) (bestMove p)
               (userScoreCp p) (bestScoreCp p) (prevScoreCp p))
  else None.

End ExplainPanel.

(** ** Puzzle mode ([PuzzleMode.tsx]) *)

(** The position after a run of tokens, each legal where it is played. *)
Fixpoint playLegal (pos : Position) (tokens : list string) : option Position :=
  match tokens with
  | [] => Some pos
  | u :: rest =>
      match parseUciMove u with
      | Some (f, t) =>
          if isLegalMove pos f t then playLegal (applyMove pos f t) rest else None
      | None => None
      end
  end.

Module PuzzleMode.

Inductive Status := idle | solving | correct | wrong.

(** The fields of a puzzle that the handlers read. *)
Record Puzzle := mkPuzzle { fen : string; solution : list string }.

Record State := mkState {
  puzzle : option Puzzle;
  position : Position;
  solveIndex : Z;
  status : Status
}.

(** The state after [loadPuzzle] has received [data]. *)
Definition loaded (data : Puzzle) : State :=
  mkState (Some data) (parseFen (fen data)) 0 solving.

Definition handleMove (st : State) (f t : Square) : State :=
  match status st, puzzle st with
  | solving, Some pz =>
      if negb (isLegalMove (position st) f t) then st
      else
        let uci := templateUci f t in
        match index (solution pz) (solveIndex st) with
        | Some expected =>
            if String.eqb uci expected then
              let newPos := applyMove (position st) f t in
              if Z.of_nat (length (solution pz)) <=? solveIndex st + 1
              then mkState (puzzle st) newPos (solveIndex st) correct
              else mkState (puzzle st) newPos (solveIndex st + 1) solving
            else mkState (puzzle st) (position st) (solveIndex st) wrong
        | None => mkState (puzzle st) (position st) (solveIndex st) wrong
        end
  | _, _ => st
  end.

(** The handler of the retry button. *)
Definition retry (st : State) : State :=
  match puzzle st with
  | Some pz => mkState (puzzle st) (parseFen (fen pz)) 0 solving
  | None => st
  end.

Inductive Event := Move (f t : Square) | Retry.

Definition step (st : State) (e : Event) : State :=
  match e with
  | Move f t => handleMove st f t
  | Retry => retry st
  end.

End PuzzleMode.

(** What a puzzle session keeps true: while solving, the board shows the
    solution played up to [solveIndex]; once correct, the whole solution. *)
Definition puzzleOk (pz : PuzzleMode.Puzzle) (st : PuzzleMode.State) : Prop :=
  PuzzleMode.puzzle st = Some pz /\
  match PuzzleMode.status st with
  | PuzzleMode.solving =>
      0 <= PuzzleMode.solveIndex st /\
      playLegal (parseFen (PuzzleMode.fen pz))
        (take (Z.to_nat (PuzzleMode.solveIndex st)) (PuzzleMode.solution pz))
      = Some (PuzzleMode.position st)
  | PuzzleMode.correct =>
      PuzzleMode.solution pz <> [] /\
      playLegal (parseFen (PuzzleMode.fen pz)) (PuzzleMode.solution pz)
      = Some (PuzzleMode.position st)
  | _ => True
  end.

(** * Properties *)

(** ** The index range and the two board scans *)

Lemma sameSquare_eq (m sq : Square) : sameSquare m sq = true <-> m = sq.
Proof.
  destruct m as [r c], sq as [r' c']; unfold sameSquare; simpl.
  rewrite andb_true_iff, !Z.eqb_eq. split.
  - intros [-> ->]; reflexivity.
  - intros H; inversion H; auto.
Qed.

Lemma In_allSquares (sq : Square) :
  In sq allSquares <-> inBounds (row sq) (col sq) = true.
Proof.
  unfold allSquares, inBounds. rewrite in_flat_map. split.
  - intros (r & Hr & Hc). apply in_map_iff in Hc as (c & <- & Hc).
    apply list_elem_of_In, elem_of_seqZ in Hr.
    apply list_elem_of_In, elem_of_seqZ in Hc. simpl.
    repeat (apply andb_true_iff; split); lia.
  - intros H. destruct sq as [r c]; cbn [row col] in *.
    repeat (apply andb_true_iff in H as [H ?]).
    exists r. split.
    + apply list_elem_of_In, elem_of_seqZ. lia.
    + apply in_map_iff. exists c. split; [reflexivity|].
      apply list_elem_of_In, elem_of_seqZ. lia.
Qed.

Lemma findKing_Some (b : Board) (side : Side) (k : Square) :
  findKing b side = Some k ->
  inBounds (row k) (col k) = true /\ cellAt b (row k) (col k) = Some (kingOf side).
Proof.
  unfold findKing. intros H. apply find_some in H as [Hin Hk].
  apply In_allSquares in Hin. apply bool_decide_eq_true in Hk. auto.
Qed.

Lemma findKing_None (b : Board) (side : Side) :
  findKing b side = None <->
  forall r c, inBounds r c = true -> cellAt b r c <> Some (kingOf side).
Proof.
  unfold findKing. split.
  - intros H r c Hb Hk.
    pose proof (find_none _ _ H (mkSquare r c)) as Hn. simpl in Hn.
    rewrite bool_decide_eq_false in Hn. apply Hn; [|exact Hk].
    apply In_allSquares. exact Hb.
  - intros H. destruct (find _ allSquares) as [k|] eqn:E; [|reflexivity].
    apply find_some in E as [Hin Hk].
    apply In_allSquares in Hin. apply bool_decide_eq_true in Hk.
    destruct (H _ _ Hin Hk).
Qed.

Lemma isUnderAttack_true (b : Board) (sq : Square) (byWhom : Side) :
  isUnderAttack b sq byWhom = true <->
  exists r c p, inBounds r c = true /\ cellAt b r c = Some p /\
                pieceColor p = byWhom /\ In sq (generatePieceMoves b r c p).
Proof.
  unfold isUnderAttack. rewrite existsb_exists. split.
  - intros ([r c] & Hin & H). simpl in H. apply In_allSquares in Hin.
    destruct (cellAt b r c) as [p|] eqn:Hp; [|discriminate].
    destruct (String.eqb (pieceColor p) byWhom) eqn:Hc; [|discriminate].
    simpl in H. apply existsb_exists in H as (m & Hm & Hs).
    apply sameSquare_eq in Hs as ->. apply String.eqb_eq in Hc.
    exists r, c, p. auto.
  - intros (r & c & p & Hb & Hp & Hc & Hm).
    exists (mkSquare r c). split; [apply In_allSquares; exact Hb|]. simpl.
    rewrite Hp. apply String.eqb_eq in Hc. rewrite Hc. simpl.
    apply existsb_exists. exists sq. split; [exact Hm|]. apply sameSquare_eq; reflexivity.
Qed.

Lemma isUnderAttack_false (b : Board) (sq : Square) (byWhom : Side) :
  isUnderAttack b sq byWhom = false <->
  forall r c p, inBounds r c = true -> cellAt b r c = Some p ->
                pieceColor p = byWhom -> ~ In sq (generatePieceMoves b r c p).
Proof.
  rewrite <- not_true_iff_false, isUnderAttack_true. split.
  - intros H r c p Hb Hp Hc Hm. apply H. exists r, c, p. auto.
  - intros H (r & c & p & Hb & Hp & Hc & Hm). exact (H r c p Hb Hp Hc Hm).
Qed.

Lemma pieceColor_cases (p : ascii) : pieceColor p = "w" \/ pieceColor p = "b".
Proof. unfold pieceColor. destruct (isRedPiece p); auto. Qed.

Lemma In_generateLegalMoves (pos : Position) (m : Move) :
  In m (generateLegalMoves pos) <->
  exists p, inBounds (row (from m)) (col (from m)) = true /\
            cellAt (board pos) (row (from m)) (col (from m)) = Some p /\
            pieceColor p = turn pos /\
            In (to m) (generatePieceMoves (board pos) (row (from m)) (col (from m)) p) /\
            keepsKingSafe (board pos) (turn pos) (from m) (to m) = true.
Proof.
  unfold generateLegalMoves. rewrite in_flat_map. split.
  - intros (s & Hin & H). apply In_allSquares in Hin.
    destruct (cellAt (board pos) (row s) (col s)) as [p|] eqn:Hp; [|destruct H].
    destruct (String.eqb (pieceColor p) (turn pos)) eqn:Hc; [|destruct H].
    simpl in H. apply in_map_iff in H as (t & <- & Ht).
    apply filter_In in Ht as [Ht Hk]. apply String.eqb_eq in Hc.
    exists p. simpl. auto.
  - intros (p & Hb & Hp & Hc & Ht & Hk). destruct m as [f t]; simpl in *.
    exists f. split; [apply In_allSquares; exact Hb|].
    rewrite Hp. apply String.eqb_eq in Hc. rewrite Hc. simpl.
    apply in_map_iff. exists t. split; [reflexivity|].
    apply filter_In. auto.
Qed.

(** ** The legal-move filter *)

(** C1. Every move of [generateLegalMoves p], applied to the board of [p],
    gives a board on which the general of the side that moved stands on a
    square that no pseudo-move of any opposing piece reaches. *)
Theorem legal_move_keeps_general_safe (p : Position) (m : Move) :
  wf_board (board p) ->
  In m (generateLegalMoves p) ->
  exists kingSq,
    let after := board (applyMove p (from m) (to m)) in
    findKing after (turn p) = Some kingSq /\
    cellAt after (row kingSq) (col kingSq) = Some (kingOf (turn p)) /\
    forall r c q,
      inBounds r c = true -> cellAt after r c = Some q ->
      pieceColor q <> turn p ->
      ~ In kingSq (generatePieceMoves after r c q).
Proof.
  intros _ Hm. apply In_generateLegalMoves in Hm as (p0 & _ & _ & Hc & _ & Hk).
  unfold keepsKingSafe in Hk. simpl.
  destruct (findKing (movePiece (board p) (from m) (to m)) (turn p)) as [k|] eqn:Hf;
    [|discriminate].
  exists k. split; [reflexivity|]. split; [apply (findKing_Some _ _ _ Hf)|].
  apply negb_true_iff in Hk.
  intros r c q Hb Hq Hne. apply (proj1 (isUnderAttack_false _ _ _) Hk r c q Hb Hq).
  unfold flipSide. rewrite <- Hc in *.
  destruct (pieceColor_cases q) as [E|E], (pieceColor_cases p0) as [E0|E0];
    rewrite E, E0 in *; try reflexivity; congruence.
Qed.

(** ** Terminal states *)

Lemma noMoves_true (pos : Position) :
  bool_decide (length (generateLegalMoves pos) = 0%nat) = true ->
  generateLegalMoves pos = [].
Proof. intros H. apply bool_decide_eq_true in H. apply nil_length_inv, H. Qed.

(** C3. [isCheckmate] holds only in check with no legal move, [isStalemate]
    only out of check with no legal move, and never both. *)
Theorem checkmate_stalemate_exclusive (p : Position) :
  wf_board (board p) ->
  (isCheckmate p = true -> isInCheck p = true /\ generateLegalMoves p = []) /\
  (isStalemate p = true -> isInCheck p = false /\ generateLegalMoves p = []) /\
  ~ (isCheckmate p = true /\ isStalemate p = true).
Proof.
  intros _. unfold isCheckmate, isStalemate.
  destruct (isInCheck p); simpl; repeat split;
    try discriminate; try (apply noMoves_true; assumption);
    intros [? ?]; discriminate.
Qed.

(** ** Reading and writing a cell *)

Lemma cellAt_Some_inBounds (b : Board) (r c : Z) (x : ascii) :
  wf_board b -> cellAt b r c = Some x -> inBounds r c = true.
Proof.
  intros (Hlen & Hcols & _). unfold cellAt, inBounds.
  destruct (r <? 0) eqn:Hr, (c <? 0) eqn:Hc; simpl; try discriminate.
  destruct (b !! Z.to_nat r) as [rw|] eqn:Hrw; [|discriminate].
  destruct (rw !! Z.to_nat c) as [cl|] eqn:Hcl; [|discriminate].
  intros _.
  pose proof (Forall_lookup_1 _ _ _ _ Hcols Hrw) as Hw. simpl in Hw.
  apply lookup_lt_Some in Hrw. apply lookup_lt_Some in Hcl.
  unfold RANKS, COLS in *.
  repeat (apply andb_true_iff; split); lia.
Qed.

Lemma cellAt_setCell_Some (b : Board) (r c : Z) (v : option ascii) (r' c' : Z)
  (x : ascii) :
  cellAt (setCell b r c v) r' c' = Some x ->
  v = Some x \/ cellAt b r' c' = Some x.
Proof.
  unfold setCell, cellAt.
  destruct ((r <? 0) || (c <? 0)); [auto|].
  destruct ((r' <? 0) || (c' <? 0)); [discriminate|].
  destruct (decide (Z.to_nat r = Z.to_nat r')) as [<-|Hr].
  - rewrite list_lookup_alter_eq.
    destruct (b !! Z.to_nat r) as [rw|]; simpl; [|discriminate].
    destruct (<[Z.to_nat c:=v]> rw !! Z.to_nat c') as [cl|] eqn:E; [|discriminate].
    apply list_lookup_insert_Some in E as [(_ & <- & _)|(_ & ->)]; auto.
  - rewrite list_lookup_alter_ne by exact Hr. auto.
Qed.

Lemma cellAt_movePiece_Some (b : Board) (f t : Square) (r c : Z) (x : ascii) :
  cellAt (movePiece b f t) r c = Some x ->
  cellAt b (row f) (col f) = Some x \/ cellAt b r c = Some x.
Proof.
  unfold movePiece. intros H.
  apply cellAt_setCell_Some in H as [H|H]; [discriminate|].
  apply cellAt_setCell_Some in H. exact H.
Qed.


(** ** The cannon *)

Section CannonScan.

Context (b : Board) (side : Side) (r0 c0 dr dc : Z).

Lemma cannonRay_index (sq : Square) :
  forall fuel i jumped,
    In sq (cannonRay b side r0 c0 dr dc jumped i fuel) ->
    exists j, i <= j < i + Z.of_nat fuel /\ sq = mkSquare (r0 + dr * j) (c0 + dc * j).
Proof.
  induction fuel as [|fuel IH]; intros i jumped H; simpl in H; [destruct H|].
  destruct (inBounds (r0 + dr * i) (c0 + dc * i)); simpl in H; [|destruct H].
  assert (Hrec : forall jp, In sq (cannonRay b side r0 c0 dr dc jp (i + 1) fuel) ->
    exists j, i <= j < i + Z.of_nat (S fuel) /\ sq = mkSquare (r0 + dr * j) (c0 + dc * j)).
  { intros jp Hj. destruct (IH _ _ Hj) as (j & Hr & E). exists j. split; [lia|exact E]. }
  assert (Hhere : mkSquare (r0 + dr * i) (c0 + dc * i) = sq ->
    exists j, i <= j < i + Z.of_nat (S fuel) /\ sq = mkSquare (r0 + dr * j) (c0 + dc * j)).
  { intros <-. exists i. split; [lia|reflexivity]. }
  destruct jumped; simpl in H;
    destruct (cellAt b (r0 + dr * i) (c0 + dc * i)) as [t|]; eauto.
  - destruct (negb (String.eqb (pieceColor t) side)); [|destruct H].
    destruct H as [H|[]]; auto.
  - destruct H as [H|H]; eauto.
Qed.

Lemma step_injective (j k : Z) :
  In (dr, dc) orthogonal ->
  mkSquare (r0 + dr * j) (c0 + dc * j) = mkSquare (r0 + dr * k) (c0 + dc * k) ->
  j = k.
Proof.
  intros Hd E. inversion E.
  unfold orthogonal in Hd. simpl in Hd.
  destruct Hd as [Hd|[Hd|[Hd|[Hd|[]]]]]; inversion Hd; subst; lia.
Qed.

(** The scan reports the target at step [kt] exactly when one piece has been
    jumped by the time the target is reached. *)
Lemma cannonRay_target (kt : Z) (t : ascii) :
  In (dr, dc) orthogonal ->
  cellAt b (r0 + dr * kt) (c0 + dc * kt) = Some t ->
  pieceColor t <> side ->
  forall fuel i jumped,
    i <= kt < i + Z.of_nat fuel ->
    (forall j, i <= j <= kt -> inBounds (r0 + dr * j) (c0 + dc * j) = true) ->
    In (mkSquare (r0 + dr * kt) (c0 + dc * kt))
       (cannonRay b side r0 c0 dr dc jumped i fuel) <->
    (occupiedFrom b r0 c0 dr dc i (Z.to_nat (kt - i)) + (if jumped then 1 else 0) = 1)%nat.
Proof.
  intros Hd Ht Hopp.
  induction fuel as [|fuel IH]; intros i jumped Hk Hin; [lia|].
  simpl cannonRay. rewrite (Hin i) by lia. simpl negb.
  destruct (Z.eq_dec i kt) as [->|Hne].
  - (* the scan stands on the target *)
    rewrite Ht, Z.sub_diag. simpl occupiedFrom.
    destruct jumped; simpl.
    + apply String.eqb_neq in Hopp. rewrite Hopp. simpl. intuition.
    + split; [|discriminate]. intros H.
      apply cannonRay_index in H as (j & Hj & E).
      apply (step_injective _ _ Hd) in E. lia.
  - (* the target lies further out *)
    assert (Hn : Z.to_nat (kt - i) = S (Z.to_nat (kt - (i + 1)))) by lia.
    rewrite Hn. simpl occupiedFrom. unfold occupied. cbn [row col].
    assert (Hsq : mkSquare (r0 + dr * i) (c0 + dc * i)
                  <> mkSquare (r0 + dr * kt) (c0 + dc * kt)).
    { intros E. apply (step_injective _ _ Hd) in E. lia. }
    assert (Hin' : forall j, i + 1 <= j <= kt ->
                     inBounds (r0 + dr * j) (c0 + dc * j) = true)
      by (intros j Hj; apply Hin; lia).
    assert (Hk' : i + 1 <= kt < i + 1 + Z.of_nat fuel) by lia.
    destruct jumped; simpl;
      destruct (cellAt b (r0 + dr * i) (c0 + dc * i)) as [q|].
    + split; [|lia]. intros H.
      destruct (negb (String.eqb (pieceColor q) side)); [|destruct H].
      destruct H as [H|[]]. destruct (Hsq H).
    + rewrite (IH (i + 1) true Hk' Hin'). simpl. lia.
    + rewrite (IH (i + 1) true Hk' Hin'). simpl. lia.
    + simpl. rewrite (IH (i + 1) false Hk' Hin'). simpl. intuition.
Qed.

Lemma occupiedFrom_seqZ :
  forall n i,
    length (List.filter (occupied b)
              (map (fun j => mkSquare (r0 + dr * j) (c0 + dc * j))
                   (seqZ i (Z.of_nat n))))
    = occupiedFrom b r0 c0 dr dc i n.
Proof.
  induction n as [|n IH]; intros i; [reflexivity|].
  rewrite seqZ_cons by lia.
  replace (Z.pred (Z.of_nat (S n))) with (Z.of_nat n) by lia.
  replace (Z.succ i) with (i + 1) by lia.
  simpl. rewrite <- IH.
  destruct (occupied b (mkSquare (r0 + dr * i) (c0 + dc * i))); reflexivity.
Qed.

End CannonScan.

Lemma generatePieceMoves_cannon (b : Board) (r0 c0 : Z) (piece : ascii) :
  toLowerCase piece = "c"%char ->
  generatePieceMoves b r0 c0 piece =
  flat_map (fun '(dr, dc) => cannonRay b (pieceColor piece) r0 c0 dr dc false 1 9)
           orthogonal.
Proof. intros H. unfold generatePieceMoves. rewrite H. reflexivity. Qed.

(** Two distinct squares of one rank or file: the direction and the distance
    from the first to the second. *)
Lemma line_direction (r0 c0 tr tc : Z) :
  tr = r0 /\ tc <> c0 \/ tc = c0 /\ tr <> r0 ->
  let dr := Z.sgn (tr - r0) in
  let dc := Z.sgn (tc - c0) in
  let k := Z.max (Z.abs (tr - r0)) (Z.abs (tc - c0)) in
  In (dr, dc) orthogonal /\ 1 <= k /\ tr = r0 + dr * k /\ tc = c0 + dc * k.
Proof.
  intros H dr dc k. unfold orthogonal.
  assert (Hcases : (dr = 0 /\ dc = 1) \/ (dr = 0 /\ dc = -1)
                   \/ (dr = 1 /\ dc = 0) \/ (dr = -1 /\ dc = 0))
    by (subst dr dc; lia).
  repeat split.
  - destruct Hcases as [[-> ->]|[[-> ->]|[[-> ->]|[-> ->]]]]; simpl; auto.
  - subst k. lia.
  - subst dr k. lia.
  - subst dc k. lia.
Qed.

Lemma inBounds_spec (r c : Z) :
  inBounds r c = true <-> 0 <= r < 10 /\ 0 <= c < 9.
Proof.
  unfold inBounds. rewrite !andb_true_iff, !Z.leb_le, !Z.ltb_lt. lia.
Qed.

(** C5. A cannon and an opposing piece on its rank or file: the capture onto
    that piece is among the cannon's pseudo-moves exactly when one piece, of
    either side, stands strictly between them. *)
Theorem cannon_captures_over_exactly_one (b : Board) (r0 c0 tr tc : Z)
  (piece t : ascii) :
  wf_board b ->
  toLowerCase piece = "c"%char ->
  cellAt b r0 c0 = Some piece ->
  tr = r0 /\ tc <> c0 \/ tc = c0 /\ tr <> r0 ->
  cellAt b tr tc = Some t ->
  pieceColor t <> pieceColor piece ->
  In (mkSquare tr tc) (generatePieceMoves b r0 c0 piece) <->
  occupiedBetween b r0 c0 tr tc = 1%nat.
Proof.
  intros Hwf Htype Hcannon Hline Ht Hopp.
  pose proof (cellAt_Some_inBounds _ _ _ _ Hwf Hcannon) as Hb0.
  pose proof (cellAt_Some_inBounds _ _ _ _ Hwf Ht) as Hbt.
  apply inBounds_spec in Hb0, Hbt.
  destruct (line_direction _ _ _ _ Hline) as (Hd & Hk1 & Htr & Htc).
  unfold occupiedBetween, between.
  set (dr := Z.sgn (tr - r0)) in *. set (dc := Z.sgn (tc - c0)) in *.
  set (k := Z.max (Z.abs (tr - r0)) (Z.abs (tc - c0))) in *.
  assert (Hk9 : k <= 9) by (subst k; lia).
  replace (k - 1) with (Z.of_nat (Z.to_nat (k - 1))) by lia.
  rewrite occupiedFrom_seqZ, generatePieceMoves_cannon by exact Htype.
  assert (Hsq : mkSquare tr tc = mkSquare (r0 + dr * k) (c0 + dc * k))
    by (f_equal; assumption).
  assert (Hray :
    In (mkSquare tr tc) (cannonRay b (pieceColor piece) r0 c0 dr dc false 1 9) <->
    (occupiedFrom b r0 c0 dr dc 1 (Z.to_nat (k - 1)) + 0 = 1)%nat).
  { rewrite Hsq.
    apply (cannonRay_target b (pieceColor piece) r0 c0 dr dc k t Hd).
    - rewrite <- Htr, <- Htc. exact Ht.
    - exact Hopp.
    - lia.
    - intros j Hj. apply inBounds_spec.
      unfold orthogonal in Hd. simpl in Hd.
      destruct Hd as [Hd|[Hd|[Hd|[Hd|[]]]]]; inversion Hd as [[Er Ec]];
        rewrite <- Er, <- Ec in *; lia. }
  rewrite Nat.add_0_r in Hray. rewrite <- Hray, in_flat_map. split.
  - intros ([dr' dc'] & Hd' & H).
    destruct (cannonRay_index _ _ _ _ _ _ _ _ _ _ H) as (j & Hj & E).
    assert ((dr', dc') = (dr, dc)) as Heq.
    { rewrite Hsq in E. inversion E as [[Er Ec]].
      unfold orthogonal in Hd, Hd'. simpl in Hd, Hd'.
      destruct Hd as [Hd|[Hd|[Hd|[Hd|[]]]]]; inversion Hd as [[Er0 Ec0]];
        rewrite <- Er0, <- Ec0 in *;
        destruct Hd' as [Hd'|[Hd'|[Hd'|[Hd'|[]]]]]; inversion Hd';
          subst dr' dc'; try reflexivity; lia. }
    inversion Heq; subst dr' dc'. exact H.
  - intros H. exists (dr, dc). split; [exact Hd|exact H].
Qed.

(** ** Boards as tables *)

Lemma lookup_table (A : Type) (g : Z -> A) (n : Z) (i : nat) :
  ((fun z => g z) <$> seqZ 0 n) !! i
  = if decide (Z.of_nat i < n) then Some (g (Z.of_nat i)) else None.
Proof.
  rewrite list_lookup_fmap. destruct (decide (Z.of_nat i < n)) as [Hi|Hi].
  - rewrite lookup_seqZ_lt by lia. reflexivity.
  - rewrite lookup_seqZ_ge by lia. reflexivity.
Qed.

Lemma cellAt_lookup (b : Board) (i j : nat) (rw : list (option ascii))
  (cl : option ascii) :
  b !! i = Some rw -> rw !! j = Some cl -> cellAt b (Z.of_nat i) (Z.of_nat j) = cl.
Proof.
  intros Hrw Hcl. unfold cellAt.
  replace ((Z.of_nat i <? 0) || (Z.of_nat j <? 0)) with false
    by (symmetry; apply orb_false_iff; split; apply Z.ltb_ge; lia).
  rewrite !Nat2Z.id, Hrw, Hcl. reflexivity.
Qed.

Lemma tabulate_cellAt (b : Board) : wf_board b -> tabulate (cellAt b) = b.
Proof.
  intros (Hlen & Hcols & _). unfold RANKS in Hlen. apply list_eq. intros i.
  unfold tabulate. rewrite lookup_table.
  destruct (decide (Z.of_nat i < 10)) as [Hi|Hi];
    [|symmetry; apply lookup_ge_None; lia].
  destruct (lookup_lt_is_Some_2 b i) as [rw Hrw]; [lia|]. rewrite Hrw. f_equal.
  pose proof (Forall_lookup_1 _ _ _ _ Hcols Hrw) as Hw. simpl in Hw.
  unfold COLS in Hw. apply list_eq. intros j. rewrite lookup_table.
  destruct (decide (Z.of_nat j < 9)) as [Hj|Hj];
    [|symmetry; apply lookup_ge_None; lia].
  destruct (lookup_lt_is_Some_2 rw j) as [cl Hcl]; [lia|]. rewrite Hcl. f_equal.
  exact (cellAt_lookup _ _ _ _ _ Hrw Hcl).
Qed.

Lemma tabulate_ext (f g : Z -> Z -> option ascii) :
  (forall r c, inBounds r c = true -> f r c = g r c) ->
  tabulate f = tabulate g.
Proof.
  intros H. unfold tabulate. apply list_fmap_ext. intros i r Hr.
  apply lookup_seqZ in Hr as [-> Hi]. apply list_fmap_ext. intros j c Hc.
  apply lookup_seqZ in Hc as [-> Hj]. apply H, inBounds_spec. lia.
Qed.

Lemma isLegalMove_In (pos : Position) (f t : Square) :
  isLegalMove pos f t = true <-> In (mkMove f t) (generateLegalMoves pos).
Proof.
  unfold isLegalMove. rewrite existsb_exists. split.
  - intros ([f' t'] & Hin & Hs). unfold sameMove in Hs. simpl in Hs.
    apply andb_true_iff in Hs as [Hf Ht].
    apply sameSquare_eq in Hf, Ht. subst. exact Hin.
  - intros H. exists (mkMove f t). split; [exact H|].
    unfold sameMove. simpl. apply andb_true_iff. split; apply sameSquare_eq; reflexivity.
Qed.

(** ** Facing generals *)

(** The legal-move generator, run on every board of two facing generals. *)
Lemma flyingCaptureFound_everywhere :
  forallb (fun c =>
    forallb (fun rK =>
      forallb (fun rk =>
        (rK =? rk) || (flyingCaptureFound "w" c rK rk && flyingCaptureFound "b" c rK rk))
        (seqZ 0 10))
      (seqZ 0 10))
    (seqZ 0 9) = true.
Proof. vm_compute. reflexivity. Qed.

Lemma In_seqZ (m n x : Z) : m <= x < m + n -> In x (seqZ m n).
Proof. intros H. apply list_elem_of_In, elem_of_seqZ. exact H. Qed.

Lemma flyingCaptureFound_all (side : Side) (c rK rk : Z) :
  isSide side = true -> inBounds rK c = true -> inBounds rk c = true -> rK <> rk ->
  flyingCaptureFound side c rK rk = true.
Proof.
  intros Hs HK Hk Hne. apply inBounds_spec in HK, Hk.
  pose proof flyingCaptureFound_everywhere as H.
  pose proof (proj1 (forallb_forall _ _) H c (In_seqZ 0 9 c ltac:(lia))) as H1.
  pose proof (proj1 (forallb_forall _ _) H1 rK (In_seqZ 0 10 rK ltac:(lia))) as H2.
  pose proof (proj1 (forallb_forall _ _) H2 rk (In_seqZ 0 10 rk ltac:(lia))) as H3.
  cbv beta in H3.
  apply orb_true_iff in H3 as [H3|H3]; [apply Z.eqb_eq in H3; contradiction|].
  apply andb_true_iff in H3 as [Hw Hb].
  unfold isSide in Hs. apply orb_true_iff in Hs as [Hs|Hs];
    apply String.eqb_eq in Hs; subst side; assumption.
Qed.

(** C6. On a board that holds only the two generals, on one file, the side
    to move may capture the opposing general with its own. *)
Theorem flying_general_capture_is_legal (p : Position) (c rK rk : Z) :
  wf_board (board p) ->
  isSide (turn p) = true ->
  cellAt (board p) rK c = Some "K"%char ->
  cellAt (board p) rk c = Some "k"%char ->
  (forall r' c', (r', c') <> (rK, c) -> (r', c') <> (rk, c) ->
                 cellAt (board p) r' c' = None) ->
  In (flyingCapture (turn p) c rK rk) (generateLegalMoves p).
Proof.
  intros Hwf Hside HK Hk Hrest.
  pose proof (cellAt_Some_inBounds _ _ _ _ Hwf HK) as HbK.
  pose proof (cellAt_Some_inBounds _ _ _ _ Hwf Hk) as Hbk.
  assert (Hne : rK <> rk) by (intros ->; rewrite HK in Hk; discriminate).
  assert (Hb : board p = tabulate (generalsAt c rK rk)).
  { rewrite <- (tabulate_cellAt _ Hwf) at 1. apply tabulate_ext.
    intros r' c' _. unfold generalsAt.
    destruct ((c' =? c) && (r' =? rK)) eqn:E1.
    { apply andb_true_iff in E1 as [->%Z.eqb_eq ->%Z.eqb_eq]. exact HK. }
    destruct ((c' =? c) && (r' =? rk)) eqn:E2.
    { apply andb_true_iff in E2 as [->%Z.eqb_eq ->%Z.eqb_eq]. exact Hk. }
    apply Hrest; intros E; inversion E; subst;
      rewrite !Z.eqb_refl in *; discriminate. }
  pose proof (flyingCaptureFound_all _ c rK rk Hside HbK Hbk Hne) as H.
  unfold flyingCaptureFound in H. rewrite <- Hb in H.
  apply isLegalMove_In in H.
  destruct p as [bd tn]; simpl in *.
  destruct (flyingCapture tn c rK rk); exact H.
Qed.

(** ** The position codec *)

#[local] Arguments String.append !s1 s2 : simpl nomatch.

Lemma append_assoc (s1 s2 s3 : string) : (s1 ++ s2) ++ s3 = s1 ++ (s2 ++ s3).
Proof. induction s1 as [|ch s1 IH]; simpl; [reflexivity|]. f_equal. exact IH. Qed.

Lemma append_empty_r (s : string) : s ++ EmptyString = s.
Proof. induction s as [|ch s IH]; simpl; [reflexivity|]. f_equal. exact IH. Qed.

Lemma chars_append (s1 s2 : string) :
  list_ascii_of_string (s1 ++ s2)
  = (list_ascii_of_string s1 ++ list_ascii_of_string s2)%list.
Proof. induction s1 as [|ch s1 IH]; simpl; [reflexivity|]. f_equal. exact IH. Qed.

Lemma split_without (sep : ascii) (s : string) :
  ~ In sep (list_ascii_of_string s) -> split sep s = [s].
Proof.
  induction s as [|ch s IH]; simpl; intros H; [reflexivity|].
  destruct (Ascii.eqb_spec ch sep) as [->|_]; [destruct H; auto|].
  rewrite IH by tauto. reflexivity.
Qed.

Lemma split_at_first (sep : ascii) (s1 s2 : string) :
  ~ In sep (list_ascii_of_string s1) ->
  split sep (s1 ++ String sep s2) = s1 :: split sep s2.
Proof.
  induction s1 as [|ch s1 IH]; simpl; intros H.
  - rewrite Ascii.eqb_refl. reflexivity.
  - destruct (Ascii.eqb_spec ch sep) as [->|_]; [destruct H; auto|].
    rewrite IH by tauto. reflexivity.
Qed.

Lemma split_concat (sep : ascii) (l : list string) :
  l <> [] ->
  Forall (fun s => ~ In sep (list_ascii_of_string s)) l ->
  split sep (String.concat (String sep EmptyString) l) = l.
Proof.
  induction l as [|x l IH]; intros Hne Hall; [congruence|].
  inversion Hall as [|? ? Hx Hl]; subst.
  destruct l as [|y l].
  - simpl. apply split_without, Hx.
  - change (String.concat (String sep EmptyString) (x :: y :: l))
      with (x ++ String sep (String.concat (String sep EmptyString) (y :: l))).
    rewrite split_at_first by exact Hx. rewrite IH by (auto; congruence). reflexivity.
Qed.

Lemma parseRank_append (s1 s2 : string) :
  parseRank (s1 ++ s2) = (parseRank s1 ++ parseRank s2)%list.
Proof.
  induction s1 as [|ch s1 IH]; simpl; [reflexivity|].
  rewrite IH, app_assoc. reflexivity.
Qed.

(** A pending run of one to nine empty cells is written as one digit, which
    reads back as the run. *)
Lemma gap_roundtrip (e : nat) :
  (1 <= e <= 9)%nat ->
  parseRank (numToString e) = replicate e None /\
  Forall (fun ch => isGapDigit ch = true) (list_ascii_of_string (numToString e)).
Proof.
  intros H.
  assert (Hc : (e = 1 \/ e = 2 \/ e = 3 \/ e = 4 \/ e = 5 \/ e = 6 \/ e = 7
                \/ e = 8 \/ e = 9)%nat) by lia.
  repeat (destruct Hc as [->|Hc]); try subst e;
    (split; [reflexivity | repeat constructor]).
Qed.

Lemma pieceChar_cases (p : ascii) :
  isPieceChar p = true ->
  isGapDigit p = false /\ p <> "/"%char /\ p <> " "%char.
Proof.
  unfold isPieceChar. simpl. intros H.
  repeat (apply orb_true_iff in H as [H|H];
          [apply Ascii.eqb_eq in H; subst p; repeat split; discriminate|]).
  discriminate.
Qed.

Lemma encodeRow_encodeTail (cells : list (option ascii)) :
  forall rank empty,
    (let '(rank', empty') := fold_left encodeCell cells (rank, empty) in
     if (0 <? empty')%nat then rank' ++ numToString empty' else rank')
    = rank ++ encodeTail cells empty.
Proof.
  induction cells as [|[p|] cells IH]; intros rank empty; simpl.
  - destruct (0 <? empty)%nat; [reflexivity|]. rewrite append_empty_r. reflexivity.
  - rewrite IH. destruct (0 <? empty)%nat; simpl; rewrite !append_assoc; reflexivity.
  - apply IH.
Qed.

Lemma parseRank_encodeTail (cells : list (option ascii)) :
  forall empty,
    cellsOk cells ->
    (empty + length cells <= 9)%nat ->
    parseRank (encodeTail cells empty) = (replicate empty None ++ cells)%list.
Proof.
  induction cells as [|[p|] cells IH]; intros empty Hok Hlen; simpl in *.
  - rewrite app_nil_r. destruct empty as [|e]; [reflexivity|].
    apply gap_roundtrip. lia.
  - inversion Hok as [|? ? Hp Hrest]; subst.
    destruct (pieceChar_cases _ Hp) as (Hd & _ & _).
    rewrite parseRank_append. simpl. rewrite Hd.
    rewrite (IH 0%nat Hrest) by lia. simpl.
    destruct empty as [|e]; [reflexivity|].
    change (0 <? S e)%nat with true. cbv iota.
    rewrite (proj1 (gap_roundtrip (S e) ltac:(lia))). reflexivity.
  - inversion Hok as [|? ? _ Hrest]; subst.
    rewrite (IH (S empty) Hrest) by lia.
    rewrite replicate_S_end, <- app_assoc. reflexivity.
Qed.

Lemma chars_encodeTail (cells : list (option ascii)) (sep : ascii) :
  isGapDigit sep = false ->
  (forall p, isPieceChar p = true -> p <> sep) ->
  forall empty,
    cellsOk cells ->
    (empty + length cells <= 9)%nat ->
    ~ In sep (list_ascii_of_string (encodeTail cells empty)).
Proof.
  intros Hsep Hpc.
  assert (Hgap : forall e, (e <= 9)%nat ->
    ~ In sep (list_ascii_of_string
                (if (0 <? e)%nat then numToString e else EmptyString))).
  { intros e He Hin. destruct e as [|e]; [destruct Hin|].
    change (0 <? S e)%nat with true in Hin. cbv iota in Hin.
    pose proof (proj2 (gap_roundtrip (S e) ltac:(lia))) as Hall.
    rewrite Forall_forall in Hall. apply list_elem_of_In in Hin.
    rewrite (Hall _ Hin) in Hsep. discriminate. }
  induction cells as [|[p|] cells IH]; intros empty Hok Hlen; simpl in *.
  - apply Hgap. lia.
  - inversion Hok as [|? ? Hp Hrest]; subst.
    rewrite chars_append. simpl. intros Hin.
    apply in_app_or in Hin as [Hin|[Hin|Hin]].
    + exact (Hgap empty ltac:(lia) Hin).
    + exact (Hpc _ Hp Hin).
    + exact (IH 0%nat Hrest ltac:(lia) Hin).
  - inversion Hok as [|? ? _ Hrest]; subst. apply IH; [exact Hrest|lia].
Qed.

Lemma encodeRow_eq (rw : list (option ascii)) : encodeRow rw = encodeTail rw 0.
Proof. exact (encodeRow_encodeTail rw EmptyString 0%nat). Qed.

Lemma chars_concat (sep : string) (l : list string) (ch : ascii) :
  In ch (list_ascii_of_string (String.concat sep l)) ->
  In ch (list_ascii_of_string sep) \/
  exists s, In s l /\ In ch (list_ascii_of_string s).
Proof.
  induction l as [|x l IH]; [intros []|].
  destruct l as [|y l].
  - simpl. intros H. right. exists x. auto.
  - change (String.concat sep (x :: y :: l))
      with (x ++ sep ++ String.concat sep (y :: l)).
    rewrite !chars_append. intros H.
    apply in_app_or in H as [H|H]; [right; exists x; split; [left; reflexivity|exact H]|].
    apply in_app_or in H as [H|H]; [left; exact H|].
    destruct (IH H) as [H'|(s & Hs & H')]; [left; exact H'|].
    right. exists s. split; [right; exact Hs|exact H'].
Qed.

Lemma row_roundtrip (rw : list (option ascii)) :
  length rw = COLS -> cellsOk rw ->
  parseRank (encodeRow rw) = rw /\
  ~ In "/"%char (list_ascii_of_string (encodeRow rw)) /\
  ~ In " "%char (list_ascii_of_string (encodeRow rw)).
Proof.
  intros Hlen Hok. rewrite encodeRow_eq. unfold COLS in Hlen. repeat split.
  - rewrite parseRank_encodeTail by (auto; lia). reflexivity.
  - apply chars_encodeTail; [reflexivity| |exact Hok|lia].
    intros p Hp. apply (pieceChar_cases p Hp).
  - apply chars_encodeTail; [reflexivity| |exact Hok|lia].
    intros p Hp. apply (pieceChar_cases p Hp).
Qed.

(** C2. Decoding the text that [toFen] writes for a position gives the
    position back. *)
Theorem parseFen_toFen_roundtrip (p : Position) :
  wf_position p -> parseFen (toFen p) = p.
Proof.
  destruct p as [b t]. intros [(Hlen & Hcols & Hcells) Hside]. simpl in *.
  assert (Hrows : Forall (fun rw =>
            parseRank (encodeRow rw) = rw /\
            ~ In "/"%char (list_ascii_of_string (encodeRow rw)) /\
            ~ In " "%char (list_ascii_of_string (encodeRow rw))) b).
  { apply Forall_forall. intros rw Hin.
    rewrite Forall_forall in Hcols, Hcells.
    apply row_roundtrip; [apply Hcols|apply Hcells]; exact Hin. }
  unfold toFen, parseFen. cbn [board turn].
  set (R := String.concat "/" (map encodeRow b)).
  assert (HR : ~ In " "%char (list_ascii_of_string R)).
  { intros H. apply chars_concat in H as [H|(s & Hs & H)].
    - simpl in H. destruct H as [H|[]]. discriminate.
    - apply in_map_iff in Hs as (rw & <- & Hrw).
      rewrite Forall_forall in Hrows. apply list_elem_of_In in Hrw.
      exact (proj2 (proj2 (Hrows _ Hrw)) H). }
  change (R ++ " " ++ t ++ " - - 0 1") with (R ++ String " " (t ++ " - - 0 1")).
  rewrite split_at_first by exact HR.
  assert (Hparts : split " " (t ++ " - - 0 1") = [t; "-"; "-"; "0"; "1"]).
  { unfold isSide in Hside. apply orb_true_iff in Hside as [H|H];
      apply String.eqb_eq in H; subst t; reflexivity. }
  rewrite Hparts. cbn [nth].
  assert (Hturn : turnToken [R; t; "-"; "-"; "0"; "1"] = t).
  { unfold isSide in Hside. apply orb_true_iff in Hside as [H|H];
      apply String.eqb_eq in H; subst t; reflexivity. }
  rewrite Hturn. f_equal. subst R.
  rewrite split_concat.
  - rewrite map_map. rewrite <- (map_id b) at 2. apply map_ext_in.
    intros rw Hrw. rewrite Forall_forall in Hrows. apply list_elem_of_In in Hrw.
    apply (Hrows _ Hrw).
  - destruct b; [discriminate|]. discriminate.
  - apply Forall_forall. intros s Hs. apply list_elem_of_In, in_map_iff in Hs as (rw & <- & Hrw).
    rewrite Forall_forall in Hrows. apply list_elem_of_In in Hrw.
    apply (Hrows _ Hrw).
Qed.

(** ** Loop bounds *)

(** The facing-generals loop visits at most the ten rows of a file: the ten
    steps given to [flyingScan] are never used up, whatever the start row. *)
Lemma flyingScan_fuel (b : Board) (c0 : Z) (opponentKing : ascii) (dir : Z) :
  dir = 1 \/ dir = -1 ->
  forall n m r,
    (if dir =? 1 then 10 - r else r + 1) <= Z.of_nat n ->
    (if dir =? 1 then 10 - r else r + 1) <= Z.of_nat m ->
    flyingScan b c0 opponentKing dir r n = flyingScan b c0 opponentKing dir r m.
Proof.
  intros Hdir.
  assert (Hout : forall k r, (if dir =? 1 then 10 - r else r + 1) <= 0 ->
                   flyingScan b c0 opponentKing dir r k = []).
  { intros [|k] r Hr; [reflexivity|]. simpl.
    replace ((0 <=? r) && (r <? 10)) with false; [reflexivity|].
    symmetry. apply andb_false_iff.
    destruct Hdir as [-> | ->]; simpl in Hr;
      [right; apply Z.ltb_ge|left; apply Z.leb_gt]; lia. }
  induction n as [|n IH]; intros [|m] r Hn Hm.
  - reflexivity.
  - rewrite (Hout (S m)) by lia. reflexivity.
  - rewrite (Hout (S n)) by lia. reflexivity.
  - simpl. destruct (negb ((0 <=? r) && (r <? 10))); [reflexivity|].
    destruct (cellAt b r c0); [reflexivity|].
    apply IH; destruct Hdir as [-> | ->]; simpl in *; lia.
Qed.

Corollary flyingScan_ten_steps (b : Board) (c0 : Z) (opponentKing : ascii)
  (dir r0 : Z) (n : nat) :
  dir = 1 \/ dir = -1 -> 0 <= r0 < 10 -> (10 <= n)%nat ->
  flyingScan b c0 opponentKing dir (r0 + dir) n
  = flyingScan b c0 opponentKing dir (r0 + dir) 10.
Proof.
  intros Hdir Hr Hn. apply flyingScan_fuel; [exact Hdir| |];
    destruct Hdir as [-> | ->]; simpl; lia.
Qed.

(** ** The action glyph *)

Lemma actionGlyph_lateral (red : bool) (f t : Square) :
  actionGlyph red f t = lateralGlyph <-> row f = row t.
Proof.
  unfold actionGlyph. destruct (Z.eqb_spec (row f) (row t)) as [E|E].
  - tauto.
  - split; [|contradiction]. destruct (movesForward red f t); discriminate.
Qed.

Lemma actionGlyph_advance (red : bool) (f t : Square) :
  actionGlyph red f t = advanceGlyph <->
  if red then row t < row f else row f < row t.
Proof.
  unfold actionGlyph, movesForward.
  destruct (Z.eqb_spec (row f) (row t)) as [E|E].
  - split; [discriminate|]. destruct red; lia.
  - destruct red.
    + destruct (Z.ltb_spec (row t) (row f)); split; (reflexivity || discriminate || lia || auto).
    + destruct (Z.ltb_spec (row f) (row t)); split; (reflexivity || discriminate || lia || auto).
Qed.

(** ** The notation translator *)

Lemma indexOf_FILES (ch : ascii) (c : Z) :
  indexOf ch (list_ascii_of_string FILES) 0 = Some c ->
  c = Z.of_nat (nat_of_ascii ch) - 97 /\ 0 <= c < 9.
Proof.
  change (list_ascii_of_string FILES)
    with ["a"; "b"; "c"; "d"; "e"; "f"; "g"; "h"; "i"]%char.
  cbn [indexOf].
  repeat match goal with
         | |- context [Ascii.eqb ?a ch] =>
             destruct (Ascii.eqb_spec a ch) as [<-|_];
             [intros [= <-]; split; [reflexivity|lia]|]
         end.
  discriminate.
Qed.

Lemma isDigit_range (d : ascii) :
  isDigit d = true -> 0 <= Z.of_nat (nat_of_ascii d) - 48 <= 9.
Proof.
  unfold isDigit. intros H. apply andb_true_iff in H as [H1 H2].
  apply Nat.leb_le in H1, H2. lia.
Qed.

(** What a token that [uciToSquare] accepts looks like. *)
Lemma uciToSquare_Some (s : string) (sq : Square) :
  uciToSquare s = Some sq ->
  exists ch d,
    String.get 0 s = Some ch /\ String.get 1 s = Some d /\ isDigit d = true /\
    col sq = Z.of_nat (nat_of_ascii ch) - 97 /\ 0 <= col sq < 9 /\
    row sq = 9 - (Z.of_nat (nat_of_ascii d) - 48) /\ 0 <= row sq <= 9.
Proof.
  unfold uciToSquare, parseIntAt.
  destruct (String.get 0 s) as [ch|]; [|discriminate].
  destruct (indexOf ch (list_ascii_of_string FILES) 0) as [c|] eqn:Hc; [|discriminate].
  destruct (String.get 1 s) as [d|]; [|discriminate].
  destruct (isDigit d) eqn:Hd; [|discriminate].
  intros H. injection H as <-. apply indexOf_FILES in Hc as [-> Hc].
  pose proof (isDigit_range _ Hd).
  exists ch, d. simpl. repeat split; auto; lia.
Qed.

Lemma cellAt_index (b : Board) (r c : Z) (piece : ascii) :
  cellAt b r c = Some piece ->
  exists rw, index b r = Some rw /\ index rw c = Some (Some piece).
Proof.
  unfold cellAt, index.
  destruct (r <? 0), (c <? 0); simpl; try discriminate.
  destruct (b !! Z.to_nat r) as [rw|]; [|discriminate].
  destruct (rw !! Z.to_nat c) as [cl|] eqn:Hcl; [|discriminate].
  intros ->. exists rw. split; [reflexivity|exact Hcl].
Qed.

Lemma digitText_glyph (red : bool) (n : Z) :
  0 <= n <= 9 ->
  digitText (if red then RED_DIGITS else BLACK_DIGITS) (Some n) = digitGlyph red n.
Proof.
  intros H. unfold digitText, digitGlyph, index. simpl.
  replace (n <? 0) with false by (symmetry; apply Z.ltb_ge; lia).
  rewrite nth_lookup.
  destruct (lookup_lt_is_Some_2 (if red then RED_DIGITS else BLACK_DIGITS) (Z.to_nat n))
    as [d Hd]; [destruct red; simpl; lia|].
  rewrite Hd. reflexivity.
Qed.

(** The text of a move whose origin holds a piece, in terms of the
    translator's own reading of the side. *)
Lemma notation_text (u fen : string) (f t : Square) (piece : ascii) :
  parseUciMove u = Some (f, t) ->
  cellAt (board (parseFen fen)) (row f) (col f) = Some piece ->
  uciToChineseNotation u fen =
  Returns (pieceNameOf piece
           ++ digitGlyph (isRedPiece piece) (fileNumber (isRedPiece piece) (col f))
           ++ actionGlyph (isRedPiece piece) f t
           ++ digitGlyph (isRedPiece piece) (quantity piece f t)).
Proof.
  intros Hparse Hpiece. set (red := isRedPiece piece).
  unfold parseUciMove in Hparse.
  destruct (uciToSquare (substring 0 2 u)) as [f'|] eqn:Hf; [|discriminate].
  destruct (uciToSquare (substring 2 2 u)) as [t'|] eqn:Ht; [|discriminate].
  injection Hparse as -> ->.
  apply uciToSquare_Some in Hf as (ch0 & d1 & G0 & G1 & D1 & Cf & Cfr & Rf & Rfr).
  apply uciToSquare_Some in Ht as (ch2 & d3 & G2 & G3 & D3 & Ct & Ctr & Rt & Rtr).
  rewrite substring_correct1 in G0, G1, G2, G3 by lia. simpl in G0, G1, G2, G3.
  apply cellAt_index in Hpiece as (rw & Hrw & Hcl).
  unfold uciToChineseNotation, parseIntAt.
  rewrite G0, G1, G2, G3, D1, D3. cbn [fmap option_fmap option_map].
  rewrite <- Rf, <- Rt, <- Cf, <- Ct, Hrw. cbn [mbind option_bind].
  rewrite Hcl. fold red.
  unfold actionGlyph, quantity, movesForward, countsRanks, fileNumber. fold red.
  destruct (Z.eqb_spec (row f) (row t)) as [E|E].
  - rewrite bool_decide_eq_true_2 by (f_equal; exact E).
    cbn [negb andb]. rewrite !digitText_glyph by (destruct red; lia). reflexivity.
  - rewrite bool_decide_eq_false_2 by (intros [= E']; exact (E E')).
    cbn [negb andb existsb list_ascii_of_string].
    rewrite !(Ascii.eqb_sym (toLowerCase piece)). rewrite orb_false_r, <- !orb_assoc.
    destruct (_ || _);
      rewrite !digitText_glyph by (destruct red; lia); reflexivity.
Qed.





(** ** Positions of play are well formed *)

Lemma wf_setCell (b : Board) (r c : Z) (v : option ascii) :
  wf_board b -> cellOk v -> wf_board (setCell b r c v).
Proof.
  intros (Hlen & Hcols & Hcells) Hv. unfold setCell.
  destruct ((r <? 0) || (c <? 0)); [repeat split; assumption|].
  repeat split.
  - rewrite length_alter. exact Hlen.
  - apply Forall_alter; [exact Hcols|]. intros rw _ Hrw.
    rewrite length_insert. exact Hrw.
  - apply Forall_alter; [exact Hcells|]. intros rw _ Hrw.
    apply Forall_insert; assumption.
Qed.

Lemma cellAt_ok (b : Board) (r c : Z) : wf_board b -> cellOk (cellAt b r c).
Proof.
  intros (_ & _ & Hcells). unfold cellAt.
  destruct ((r <? 0) || (c <? 0)); [exact I|].
  destruct (b !! Z.to_nat r) as [rw|] eqn:Hrw; [|exact I].
  destruct (rw !! Z.to_nat c) as [cl|] eqn:Hcl; [|exact I].
  pose proof (Forall_lookup_1 _ _ _ _ Hcells Hrw) as Hw.
  exact (Forall_lookup_1 _ _ _ _ Hw Hcl).
Qed.

Lemma wf_movePiece (b : Board) (f t : Square) :
  wf_board b -> wf_board (movePiece b f t).
Proof.
  intros Hwf. unfold movePiece.
  apply wf_setCell; [|exact I]. apply wf_setCell; [exact Hwf|].
  apply cellAt_ok, Hwf.
Qed.

Lemma parseFen_start : parseFen STARTING_FEN = startPosition.
Proof. vm_compute. reflexivity. Qed.

Lemma wf_start : wf_position (parseFen STARTING_FEN).
Proof.
  rewrite parseFen_start. unfold startPosition.
  repeat split; repeat constructor.
Qed.

Lemma reachable_wf (p : Position) : reachable p -> wf_position p.
Proof.
  induction 1 as [|p m _ [Hb _] _]; [exact wf_start|].
  split; simpl.
  - apply wf_movePiece, Hb.
  - unfold flipSide. destruct (String.eqb (turn p) "w"); reflexivity.
Qed.

(** ** The analysis dispatcher *)

Section DispatcherFacts.
Import Dispatcher.

Lemma ordered_init : ordered init.
Proof.
  split; simpl; [intros s e []|].
  intros [|x pre] s2 e2 post H; discriminate.
Qed.

Lemma ordered_step (st : State) (i : Input) : ordered st -> ordered (step st i).
Proof.
  intros [Hle Hord]. destruct i as [fen depth|seq ev]; simpl.
  - split; simpl; [|exact Hord].
    intros s e H. apply Hle in H. lia.
  - destruct (Nat.eqb_spec seq (current st)) as [->|_]; [|split; assumption].
    split; simpl.
    + intros s e H. apply in_app_or in H as [H|[H|[]]]; [exact (Hle _ _ H)|].
      inversion H. lia.
    + intros pre s2 e2 post H s e Hin.
      destruct post as [|x post _] using rev_ind; [destruct Hin|].
      change (pre ++ (s2, e2) :: post ++ [x])%list
        with (pre ++ ((s2, e2) :: post) ++ [x])%list in H.
      rewrite app_assoc in H. apply app_inj_tail in H as [H <-].
      apply in_app_or in Hin as [Hin|[Hin|[]]].
      * exact (Hord _ _ _ _ H _ _ Hin).
      * inversion Hin; subst. apply (Hle s2 e2). rewrite H.
        apply in_or_app. right. left. reflexivity.
Qed.

Lemma ordered_fold (trace : list Input) :
  forall st, ordered st -> ordered (fold_left step trace st).
Proof.
  induction trace as [|i trace IH]; intros st H; [exact H|].
  simpl. apply IH, ordered_step, H.
Qed.

(** C9. Once an event of a later request has been relayed, no event of an
    earlier request follows it in the stream the client sees. *)
Theorem no_stale_event_after_newer (trace : list Input) (s1 s2 : nat)
  (e2 : AnalysisEvent) (pre post : list (nat * AnalysisEvent)) :
  (s1 < s2)%nat ->
  relayed (run trace) = (pre ++ (s2, e2) :: post)%list ->
  forall e1, ~ In (s1, e1) post.
Proof.
  intros Hlt Hrel e1 Hin.
  destruct (ordered_fold trace init ordered_init) as [_ Hord].
  pose proof (Hord _ _ _ _ Hrel _ _ Hin). lia.
Qed.

End DispatcherFacts.

(** ** A side without its general *)

(** C10. When the side to move has no general on the board, it is not in
    check, it has no legal move, and the position counts as a stalemate and
    not as a checkmate. *)
Theorem no_general_means_stalemate (p : Position) :
  wf_board (board p) ->
  (forall r c, inBounds r c = true ->
               cellAt (board p) r c <> Some (kingOf (turn p))) ->
  isInCheck p = false /\
  generateLegalMoves p = [] /\
  isStalemate p = true /\
  isCheckmate p = false.
Proof.
  intros Hwf Hno.
  assert (Hchk : isInCheck p = false).
  { unfold isInCheck.
    replace (findKing (board p) (turn p)) with (@None Square); [reflexivity|].
    symmetry. apply findKing_None. exact Hno. }
  assert (Hnil : generateLegalMoves p = []).
  { destruct (generateLegalMoves p) as [|m l] eqn:E; [reflexivity|]. exfalso.
    assert (Hm : In m (generateLegalMoves p)) by (rewrite E; left; reflexivity).
    apply In_generateLegalMoves in Hm as (q & _ & _ & _ & _ & Hk).
    unfold keepsKingSafe in Hk.
    destruct (findKing (movePiece (board p) (from m) (to m)) (turn p)) as [k|] eqn:Hf;
      [|discriminate].
    apply findKing_Some in Hf as [_ Hf].
    apply cellAt_movePiece_Some in Hf as [Hf|Hf];
      exact (Hno _ _ (cellAt_Some_inBounds _ _ _ _ Hwf Hf) Hf). }
  unfold isStalemate, isCheckmate. rewrite Hchk, Hnil. auto.
Qed.

(** ** What the code does where the specification asks for a failure *)

(** C4. [parseFen] has no failing path: a text of one rank, and a text with
    an unknown side token, are both decoded into a position. *)
Theorem parseFen_accepts_malformed_text :
  parseFen "9 w" = {| board := [replicate 9 None]; turn := "w" |} /\
  length (board (parseFen "9 w")) <> RANKS /\
  turn (parseFen "9/9/9/9/9/9/9/9/9/9 x") = "x" /\
  isSide (turn (parseFen "9/9/9/9/9/9/9/9/9/9 x")) = false.
Proof. repeat split. vm_compute. discriminate. Qed.

(** Every token of the sequence is applied and recorded: the replay has no
    test that could stop it at a move the rules forbid. *)
Lemma replay_records_every_move (moves : list string) :
  forall pos history pos' history',
    fold_left replayStep moves (Some (pos, history)) = Some (pos', history') ->
    length history' = (length history + length moves)%nat.
Proof.
  induction moves as [|m moves IH]; intros pos history pos' history' H; simpl in H.
  - injection H as _ <-. simpl. lia.
  - destruct (parseUciMove m) as [[f t]|].
    + apply IH in H. rewrite length_app in H. simpl in *. lia.
    + assert (Hnone : forall l, fold_left replayStep l None = None)
        by (induction l; simpl; auto).
      rewrite Hnone in H. discriminate.
Qed.

Lemma loadMoves_records_every_move (st st' : GameState) (moves : list string)
  (startFen : option string) :
  loadMoves st moves startFen = Some st' ->
  length (moveHistory st') = length moves.
Proof.
  unfold loadMoves.
  destruct (fold_left replayStep moves _) as [[pos history]|] eqn:E; [|discriminate].
  intros [= <-]. simpl. apply replay_records_every_move in E. exact E.
Qed.

(** C7. [loadMoves] replays a chariot move across the whole occupied file
    a, which [isLegalMove] and [tryMoveUci] refuse on the same position: the
    move is applied and recorded. *)
Theorem loadMoves_applies_illegal_move :
  let st := useGame STARTING_FEN in
  isLegalMove (position st) (mkSquare 9 0) (mkSquare 0 0) = false /\
  tryMoveUci st "a0a9" = Some (false, st) /\
  exists st',
    loadMoves st ["a0a9"] None = Some st' /\
    moveHistory st' =
      [mkMoveRecord "a0a9"
         "Rnbakabnr/9/1c5c1/p1p1p1p1p/9/9/P1P1P1P1P/1C5C1/9/1NBAKABNR b - - 0 1"] /\
    cellAt (board (position st')) 0 0 = Some "R"%char /\
    currentIndex st' = 0.
Proof.
  cbv zeta. split; [vm_compute; reflexivity|]. split; [vm_compute; reflexivity|].
  eexists. split; [vm_compute; reflexivity|]. repeat split.
Qed.

(** ** The statements at work *)

Ltac solve_wf_board :=
  unfold wf_board; cbn [board]; repeat split; repeat constructor.

Lemma cellAt_tabulate (f : Z -> Z -> option ascii) (r c : Z) :
  cellAt (tabulate f) r c = if inBounds r c then f r c else None.
Proof.
  unfold cellAt, tabulate. destruct (inBounds r c) eqn:E.
  - apply inBounds_spec in E.
    replace ((r <? 0) || (c <? 0)) with false
      by (symmetry; apply orb_false_iff; split; apply Z.ltb_ge; lia).
    rewrite lookup_table. destruct (decide _) as [_|H]; [|lia].
    rewrite lookup_table. destruct (decide _) as [_|H]; [|lia].
    rewrite !Z2Nat.id by lia. reflexivity.
  - destruct ((r <? 0) || (c <? 0)) eqn:G; [reflexivity|].
    apply orb_false_iff in G as [G1%Z.ltb_ge G2%Z.ltb_ge].
    rewrite lookup_table. destruct (decide _) as [H|_]; [|reflexivity].
    rewrite lookup_table. destruct (decide _) as [H'|_]; [|reflexivity].
    apply not_true_iff_false in E. destruct E. apply inBounds_spec. lia.
Qed.

Lemma legal_move_keeps_general_safe_witness :
  exists kingSq,
    let after := board (applyMove startPosition (mkSquare 7 1) (mkSquare 7 4)) in
    findKing after "w" = Some kingSq /\
    cellAt after (row kingSq) (col kingSq) = Some (kingOf "w") /\
    forall r c q,
      inBounds r c = true -> cellAt after r c = Some q ->
      pieceColor q <> "w" ->
      ~ In kingSq (generatePieceMoves after r c q).
Proof.
  apply (legal_move_keeps_general_safe startPosition
           (mkMove (mkSquare 7 1) (mkSquare 7 4))).
  - unfold startPosition. solve_wf_board.
  - apply isLegalMove_In. vm_compute. reflexivity.
Defined.

Lemma parseFen_toFen_roundtrip_witness :
  parseFen (toFen startPosition) = startPosition.
Proof.
  apply (parseFen_toFen_roundtrip startPosition).
  split; [unfold startPosition; solve_wf_board|reflexivity].
Defined.

Lemma checkmate_stalemate_exclusive_witness :
  (isCheckmate matePosition = true ->
   isInCheck matePosition = true /\ generateLegalMoves matePosition = []) /\
  (isStalemate matePosition = true ->
   isInCheck matePosition = false /\ generateLegalMoves matePosition = []) /\
  ~ (isCheckmate matePosition = true /\ isStalemate matePosition = true).
Proof.
  apply (checkmate_stalemate_exclusive matePosition).
  unfold matePosition. solve_wf_board.
Defined.

Lemma cannon_captures_over_exactly_one_witness :
  In (mkSquare 9 4) (generatePieceMoves (board cannonPosition) 9 0 "C") <->
  occupiedBetween (board cannonPosition) 9 0 9 4 = 1%nat.
Proof.
  apply (cannon_captures_over_exactly_one (board cannonPosition) 9 0 9 4 "C" "p").
  - unfold cannonPosition. solve_wf_board.
  - reflexivity.
  - reflexivity.
  - left. split; [reflexivity|lia].
  - reflexivity.
  - vm_compute. discriminate.
Defined.

Lemma flying_general_capture_is_legal_witness :
  In (flyingCapture "w" 4 9 0)
     (generateLegalMoves {| board := tabulate (generalsAt 4 9 0); turn := "w" |}).
Proof.
  apply (flying_general_capture_is_legal
           {| board := tabulate (generalsAt 4 9 0); turn := "w" |} 4 9 0).
  - vm_compute. repeat split; repeat constructor.
  - reflexivity.
  - reflexivity.
  - reflexivity.
  - intros r' c' HK Hk. cbn [board]. rewrite cellAt_tabulate.
    destruct (inBounds r' c'); [|reflexivity]. unfold generalsAt.
    destruct (Z.eqb_spec c' 4) as [->|_]; [|reflexivity].
    destruct (Z.eqb_spec r' 9) as [->|_]; [destruct HK; reflexivity|].
    destruct (Z.eqb_spec r' 0) as [->|_]; [destruct Hk; reflexivity|].
    reflexivity.
Defined.


Lemma no_stale_event_after_newer_witness :
  ~ In (1%nat, Dispatcher.Result "b2e2" 2) [(2%nat, Dispatcher.Result "h9g7" 1)].
Proof.
  apply (no_stale_event_after_newer supersededTrace 1 2
           (Dispatcher.Progress 1 (-25) ["h9g7"])
           [(1%nat, Dispatcher.Progress 1 30 ["b2e2"])]).
  - lia.
  - reflexivity.
Defined.

Lemma no_general_means_stalemate_witness :
  isInCheck headlessPosition = false /\
  generateLegalMoves headlessPosition = [] /\
  isStalemate headlessPosition = true /\
  isCheckmate headlessPosition = false.
Proof.
  apply (no_general_means_stalemate headlessPosition).
  - unfold headlessPosition. solve_wf_board.
  - apply findKing_None. vm_compute. reflexivity.
Defined.

(** The sample positions behave as described. *)

Example mate_is_checkmate :
  isCheckmate matePosition = true /\ isStalemate matePosition = false.
Proof. vm_compute. split; reflexivity. Qed.

Example stale_is_stalemate :
  isStalemate stalePosition = true /\ isCheckmate stalePosition = false.
Proof. vm_compute. split; reflexivity. Qed.

Example opening_has_44_moves :
  length (generateLegalMoves startPosition) = 44%nat.
Proof. vm_compute. reflexivity. Qed.

Example central_cannon_is_red_only :
  isLegalMove startPosition (mkSquare 7 1) (mkSquare 7 4) = true /\
  isLegalMove {| board := board startPosition; turn := "b" |}
              (mkSquare 7 1) (mkSquare 7 4) = false.
Proof. vm_compute. split; reflexivity. Qed.

Example cannon_needs_one_screen :
  generatePieceMoves (board cannonPosition) 9 0 "C"
  = [mkSquare 9 1; mkSquare 9 4;
     mkSquare 8 0; mkSquare 7 0; mkSquare 6 0; mkSquare 5 0; mkSquare 4 0;
     mkSquare 3 0; mkSquare 2 0; mkSquare 1 0; mkSquare 0 0] /\
  occupiedBetween (board cannonPosition) 9 0 9 2 = 0%nat /\
  occupiedBetween (board cannonPosition) 9 0 9 4 = 1%nat /\
  occupiedBetween (board cannonPosition) 9 0 9 6 = 2%nat.
Proof. vm_compute. repeat split. Qed.

Example notation_samples :
  uciToChineseNotation "b2e2" STARTING_FEN = Returns "炮八平五" /\
  uciToChineseNotation "h9g7" STARTING_FEN = Returns "马8进7" /\
  uciToChineseNotation "a0a1" STARTING_FEN = Returns "车九进一" /\
  uciToChineseNotation "e4e5" STARTING_FEN = Returns "e4e5".
Proof. vm_compute. repeat split. Qed.

Example superseded_request_is_silenced :
  Dispatcher.relayed (Dispatcher.run supersededTrace)
  = [(1%nat, Dispatcher.Progress 1 30 ["b2e2"]);
     (2%nat, Dispatcher.Progress 1 (-25) ["h9g7"]);
     (2%nat, Dispatcher.Result "h9g7" 1)].
Proof. reflexivity. Qed.

(** * Further properties of the code *)

(** ** Move tokens *)

Lemma squareToUci_token (sq : Square) :
  inBounds (row sq) (col sq) = true ->
  exists ch d,
    squareToUci sq = String ch (String d EmptyString) /\
    forall rest, uciToSquare (String ch (String d rest)) = Some sq.
Proof.
  intros H. apply inBounds_spec in H. destruct sq as [r c]. cbn [row col] in H.
  assert (Hr : r = 0 \/ r = 1 \/ r = 2 \/ r = 3 \/ r = 4 \/ r = 5 \/ r = 6
               \/ r = 7 \/ r = 8 \/ r = 9) by lia.
  assert (Hc : c = 0 \/ c = 1 \/ c = 2 \/ c = 3 \/ c = 4 \/ c = 5 \/ c = 6
               \/ c = 7 \/ c = 8) by lia.
  clear H.
  repeat (destruct Hr as [->|Hr]); try subst r;
    repeat (destruct Hc as [->|Hc]); try subst c;
    (eexists; eexists; split; [reflexivity|intros rest; reflexivity]).
Qed.

Lemma parseUciMove_uciMove_grid (f t : Square) :
  inBounds (row f) (col f) = true ->
  inBounds (row t) (col t) = true ->
  parseUciMove (uciMove f t) = Some (f, t).
Proof.
  intros Hf Ht.
  destruct (squareToUci_token f Hf) as (cf & df & Ef & Pf).
  destruct (squareToUci_token t Ht) as (ct & dt & Et & Pt).
  unfold uciMove, parseUciMove. rewrite Ef, Et.
  change (substring 0 2 (String cf (String df EmptyString) ++ String ct (String dt EmptyString)))
    with (String cf (String df EmptyString)).
  change (substring 2 2 (String cf (String df EmptyString) ++ String ct (String dt EmptyString)))
    with (String ct (String dt EmptyString)).
  rewrite Pf, Pt. reflexivity.
Qed.

(** X1. A move between two squares of the grid, written as a token by
    [uciMove], is read back by [parseUciMove] as the same two squares. *)
Theorem parseUciMove_uciMove (f t : Square) :
  inBounds (row f) (col f) = true ->
  inBounds (row t) (col t) = true ->
  parseUciMove (uciMove f t) = Some (f, t).
Proof. exact (parseUciMove_uciMove_grid f t). Qed.

Lemma parseUciMove_uciMove_witness :
  parseUciMove (uciMove (mkSquare 7 1) (mkSquare 7 4))
  = Some (mkSquare 7 1, mkSquare 7 4).
Proof.
  apply (parseUciMove_uciMove (mkSquare 7 1) (mkSquare 7 4)); reflexivity.
Defined.

Lemma squareToUci_of_chars (sq : Square) (ch d : ascii) :
  isDigit d = true ->
  col sq = Z.of_nat (nat_of_ascii ch) - 97 -> 0 <= col sq < 9 ->
  row sq = 9 - (Z.of_nat (nat_of_ascii d) - 48) ->
  squareToUci sq = String ch (String d EmptyString).
Proof.
  intros Hd Hc Hcr Hr. pose proof (isDigit_range _ Hd) as Hdr.
  destruct sq as [r c]. cbn [row col] in *. subst r c.
  rewrite <- (ascii_nat_embedding ch), <- (ascii_nat_embedding d).
  set (n := nat_of_ascii ch) in *. set (m := nat_of_ascii d) in *.
  assert (Hn : (n = 97 \/ n = 98 \/ n = 99 \/ n = 100 \/ n = 101 \/ n = 102
                \/ n = 103 \/ n = 104 \/ n = 105)%nat) by lia.
  assert (Hm : (m = 48 \/ m = 49 \/ m = 50 \/ m = 51 \/ m = 52 \/ m = 53
                \/ m = 54 \/ m = 55 \/ m = 56 \/ m = 57)%nat) by lia.
  clearbody n m. clear Hd Hcr Hdr.
  repeat (destruct Hn as [->|Hn]); try subst n;
    repeat (destruct Hm as [->|Hm]); try subst m; reflexivity.
Qed.

Lemma substring_of_gets (s : string) (c0 c1 c2 c3 : ascii) :
  String.get 0 s = Some c0 -> String.get 1 s = Some c1 ->
  String.get 2 s = Some c2 -> String.get 3 s = Some c3 ->
  substring 0 4 s = String c0 (String c1 (String c2 (String c3 EmptyString))).
Proof.
  destruct s as [|a0 [|a1 [|a2 [|a3 s]]]]; simpl; try discriminate.
  intros [= ->] [= ->] [= ->] [= ->]. destruct s; reflexivity.
Qed.

Lemma uciMove_of_token (s : string) (f t : Square) :
  parseUciMove s = Some (f, t) -> uciMove f t = substring 0 4 s.
Proof.
  intros Hparse. unfold parseUciMove in Hparse.
  destruct (uciToSquare (substring 0 2 s)) as [f'|] eqn:Hf; [|discriminate].
  destruct (uciToSquare (substring 2 2 s)) as [t'|] eqn:Ht; [|discriminate].
  injection Hparse as -> ->.
  apply uciToSquare_Some in Hf as (ch0 & d1 & G0 & G1 & D1 & Cf & Cfr & Rf & _).
  apply uciToSquare_Some in Ht as (ch2 & d3 & G2 & G3 & D3 & Ct & Ctr & Rt & _).
  rewrite substring_correct1 in G0, G1, G2, G3 by lia. simpl in G0, G1, G2, G3.
  rewrite (substring_of_gets _ _ _ _ _ G0 G1 G2 G3). unfold uciMove.
  rewrite (squareToUci_of_chars f ch0 d1 D1 Cf Cfr Rf).
  rewrite (squareToUci_of_chars t ch2 d3 D3 Ct Ctr Rt). reflexivity.
Qed.

(** X2. A token that [parseUciMove] accepts is, on its first four characters,
    the token that [uciMove] writes for the squares it was read as. *)
Theorem uciMove_parseUciMove (s : string) (f t : Square) :
  parseUciMove s = Some (f, t) -> uciMove f t = substring 0 4 s.
Proof. exact (uciMove_of_token s f t). Qed.

Lemma uciMove_parseUciMove_witness :
  uciMove (mkSquare 9 7) (mkSquare 7 6) = substring 0 4 "h0g2".
Proof.
  apply (uciMove_parseUciMove "h0g2" (mkSquare 9 7) (mkSquare 7 6)). reflexivity.
Defined.

(** ** Applying a move *)

Lemma cellAt_setCell (b : Board) (r c : Z) (v : option ascii) (r' c' : Z) :
  wf_board b -> inBounds r c = true ->
  cellAt (setCell b r c v) r' c'
  = if (r' =? r) && (c' =? c) then v else cellAt b r' c'.
Proof.
  intros (Hlen & Hcols & _) Hb. apply inBounds_spec in Hb.
  unfold RANKS in Hlen. unfold setCell, cellAt.
  replace ((r <? 0) || (c <? 0)) with false
    by (symmetry; apply orb_false_iff; split; apply Z.ltb_ge; lia).
  destruct ((r' <? 0) || (c' <? 0)) eqn:G.
  { apply orb_true_iff in G as [G|G]; apply Z.ltb_lt in G.
    - replace (r' =? r) with false by (symmetry; apply Z.eqb_neq; lia). reflexivity.
    - replace (c' =? c) with false by (symmetry; apply Z.eqb_neq; lia).
      rewrite andb_false_r. reflexivity. }
  apply orb_false_iff in G as [G1%Z.ltb_ge G2%Z.ltb_ge].
  destruct (lookup_lt_is_Some_2 b (Z.to_nat r)) as [rw Hrw]; [lia|].
  pose proof (Forall_lookup_1 _ _ _ _ Hcols Hrw) as Hw. simpl in Hw.
  unfold COLS in Hw.
  destruct (Z.eqb_spec r' r) as [->|Hr].
  - rewrite list_lookup_alter_eq, Hrw. simpl.
    destruct (Z.eqb_spec c' c) as [->|Hc].
    + rewrite list_lookup_insert_eq by lia. reflexivity.
    + rewrite list_lookup_insert_ne by lia. reflexivity.
  - rewrite list_lookup_alter_ne by lia. reflexivity.
Qed.

Lemma cellAt_movePiece (b : Board) (f t : Square) (r c : Z) :
  wf_board b ->
  inBounds (row f) (col f) = true -> inBounds (row t) (col t) = true ->
  cellAt (movePiece b f t) r c
  = if (r =? row f) && (c =? col f) then None
    else if (r =? row t) && (c =? col t) then cellAt b (row f) (col f)
    else cellAt b r c.
Proof.
  intros Hwf Hf Ht. unfold movePiece.
  rewrite cellAt_setCell; [|apply wf_setCell; [exact Hwf|apply cellAt_ok, Hwf]|exact Hf].
  rewrite cellAt_setCell by assumption. reflexivity.
Qed.

(** X3. [applyMove] on a 10 by 9 board, between squares of the grid: the
    origin is left empty, the destination holds what stood on the origin, every
    other cell is as before and the board keeps its shape; the side to move
    becomes black after red and red after anything else. *)
Theorem applyMove_effect (pos : Position) (f t : Square) :
  wf_board (board pos) ->
  inBounds (row f) (col f) = true -> inBounds (row t) (col t) = true ->
  let pos' := applyMove pos f t in
  wf_board (board pos') /\
  cellAt (board pos') (row f) (col f) = None /\
  (f <> t -> cellAt (board pos') (row t) (col t)
             = cellAt (board pos) (row f) (col f)) /\
  (forall r c, mkSquare r c <> f -> mkSquare r c <> t ->
               cellAt (board pos') r c = cellAt (board pos) r c) /\
  turn pos' = (if String.eqb (turn pos) "w" then "b" else "w").
Proof.
  intros Hwf Hf Ht. cbn zeta. unfold applyMove. cbn [board turn].
  split; [apply wf_movePiece, Hwf|].
  split; [|split; [|split; [|reflexivity]]].
  - rewrite cellAt_movePiece by assumption. rewrite !Z.eqb_refl. reflexivity.
  - intros Hne. rewrite cellAt_movePiece by assumption. rewrite !Z.eqb_refl.
    destruct ((row t =? row f) && (col t =? col f)) eqn:E; [|reflexivity].
    apply andb_true_iff in E as [E1%Z.eqb_eq E2%Z.eqb_eq].
    destruct Hne. destruct f, t; simpl in *; congruence.
  - intros r c Hnf Hnt. rewrite cellAt_movePiece by assumption.
    destruct ((r =? row f) && (c =? col f)) eqn:E1.
    { apply andb_true_iff in E1 as [->%Z.eqb_eq ->%Z.eqb_eq].
      destruct Hnf. destruct f; reflexivity. }
    destruct ((r =? row t) && (c =? col t)) eqn:E2; [|reflexivity].
    apply andb_true_iff in E2 as [->%Z.eqb_eq ->%Z.eqb_eq].
    destruct Hnt. destruct t; reflexivity.
Qed.

Lemma applyMove_effect_witness :
  let pos' := applyMove startPosition (mkSquare 7 1) (mkSquare 7 4) in
  wf_board (board pos') /\
  cellAt (board pos') 7 1 = None /\
  (mkSquare 7 1 <> mkSquare 7 4 ->
   cellAt (board pos') 7 4 = cellAt (board startPosition) 7 1) /\
  (forall r c, mkSquare r c <> mkSquare 7 1 -> mkSquare r c <> mkSquare 7 4 ->
               cellAt (board pos') r c = cellAt (board startPosition) r c) /\
  turn pos' = (if String.eqb (turn startPosition) "w" then "b" else "w").
Proof.
  apply (applyMove_effect startPosition (mkSquare 7 1) (mkSquare 7 4)).
  - unfold startPosition. solve_wf_board.
  - reflexivity.
  - reflexivity.
Defined.

(** ** Where a piece may land *)

Lemma canMoveTo_landable (b : Board) (side : Side) (r c : Z) :
  canMoveTo b side r c = true <-> landable b side r c.
Proof.
  unfold canMoveTo, landable. destruct (inBounds r c); simpl.
  - destruct (cellAt b r c) as [q|].
    + rewrite negb_true_iff, String.eqb_neq. split.
      * intros H. split; [reflexivity|]. intros q' [= <-]. exact H.
      * intros [_ H]. apply H. reflexivity.
    + split; [|reflexivity]. intros _. split; [reflexivity|]. discriminate.
  - split; [discriminate|]. intros [H _]. discriminate.
Qed.

Lemma In_pushIf (ok : bool) (r c : Z) (sq : Square) :
  In sq (pushIf ok r c) <-> ok = true /\ sq = mkSquare r c.
Proof.
  unfold pushIf. destruct ok; simpl.
  - split; [intros [<-|[]]; auto|]. intros [_ ->]. auto.
  - split; [intros []|]. intros [H _]. discriminate.
Qed.

Lemma In_pushIf_landable (b : Board) (side : Side) (r c : Z) (sq : Square) :
  In sq (pushIf (canMoveTo b side r c) r c) ->
  landable b side (row sq) (col sq).
Proof.
  intros H. apply In_pushIf in H as [H ->]. apply canMoveTo_landable, H.
Qed.

Lemma chariotRay_landable (b : Board) (side : Side) (r0 c0 dr dc : Z) (sq : Square) :
  forall fuel i,
    In sq (chariotRay b side r0 c0 dr dc i fuel) ->
    landable b side (row sq) (col sq).
Proof.
  induction fuel as [|fuel IH]; intros i H; simpl in H; [destruct H|].
  destruct (inBounds (r0 + dr * i) (c0 + dc * i)) eqn:Hb; simpl in H; [|destruct H].
  destruct (cellAt b (r0 + dr * i) (c0 + dc * i)) as [t|] eqn:Ht.
  - destruct (String.eqb (pieceColor t) side) eqn:Hc; simpl in H; [destruct H|].
    destruct H as [<-|[]]. split; [exact Hb|]. simpl. rewrite Ht.
    intros q [= <-]. apply String.eqb_neq, Hc.
  - destruct H as [<-|H]; [|exact (IH _ H)].
    split; [exact Hb|]. simpl. rewrite Ht. discriminate.
Qed.

Lemma cannonRay_landable (b : Board) (side : Side) (r0 c0 dr dc : Z) (sq : Square) :
  forall fuel i jumped,
    In sq (cannonRay b side r0 c0 dr dc jumped i fuel) ->
    landable b side (row sq) (col sq).
Proof.
  induction fuel as [|fuel IH]; intros i jumped H; simpl in H; [destruct H|].
  destruct (inBounds (r0 + dr * i) (c0 + dc * i)) eqn:Hb; simpl in H; [|destruct H].
  destruct jumped; simpl in H;
    destruct (cellAt b (r0 + dr * i) (c0 + dc * i)) as [t|] eqn:Ht;
    try exact (IH _ _ H).
  - destruct (String.eqb (pieceColor t) side) eqn:Hc; simpl in H; [destruct H|].
    destruct H as [<-|[]]. split; [exact Hb|]. simpl. rewrite Ht.
    intros q [= <-]. apply String.eqb_neq, Hc.
  - destruct H as [<-|H]; [|exact (IH _ _ H)].
    split; [exact Hb|]. simpl. rewrite Ht. discriminate.
Qed.

Lemma flyingScan_found (b : Board) (c0 : Z) (opponentKing : ascii) (dir : Z)
  (sq : Square) :
  forall fuel r,
    In sq (flyingScan b c0 opponentKing dir r fuel) ->
    0 <= row sq < 10 /\ col sq = c0 /\
    cellAt b (row sq) (col sq) = Some opponentKing.
Proof.
  induction fuel as [|fuel IH]; intros r H; simpl in H; [destruct H|].
  destruct ((0 <=? r) && (r <? 10)) eqn:Hr; simpl in H; [|destruct H].
  destruct (cellAt b r c0) as [p|] eqn:Hp; [|exact (IH _ H)].
  destruct (Ascii.eqb_spec p opponentKing) as [->|_]; [|destruct H].
  destruct H as [<-|[]]. simpl.
  apply andb_true_iff in Hr as [H1%Z.leb_le H2%Z.ltb_lt]. auto.
Qed.

(** X4. Whatever the piece, a pseudo-move computed from a square of the grid
    lands on the grid and never on a piece of the mover's own side. *)
Theorem pseudo_moves_are_landable (b : Board) (r0 c0 : Z) (piece : ascii)
  (sq : Square) :
  wf_board b ->
  inBounds r0 c0 = true ->
  In sq (generatePieceMoves b r0 c0 piece) ->
  inBounds (row sq) (col sq) = true /\
  forall q, cellAt b (row sq) (col sq) = Some q -> pieceColor q <> pieceColor piece.
Proof.
  intros _ Hb0 H. change (landable b (pieceColor piece) (row sq) (col sq)).
  unfold generatePieceMoves in H.
  destruct (Ascii.eqb (toLowerCase piece) "r").
  { apply in_flat_map in H as ([dr dc] & _ & H). exact (chariotRay_landable _ _ _ _ _ _ _ _ _ H). }
  destruct (Ascii.eqb (toLowerCase piece) "c").
  { apply in_flat_map in H as ([dr dc] & _ & H). exact (cannonRay_landable _ _ _ _ _ _ _ _ _ _ H). }
  destruct (Ascii.eqb (toLowerCase piece) "n").
  { apply in_flat_map in H as ([[[dr dc] br] bc] & _ & H).
    destruct (_ || _); [destruct H|]. exact (In_pushIf_landable _ _ _ _ _ H). }
  destruct (Ascii.eqb (toLowerCase piece) "b").
  { apply in_flat_map in H as ([[[dr dc] br] bc] & _ & H).
    destruct (_ || _); [destruct H|].
    destruct (negb (inBounds _ _)); [destruct H|].
    destruct (negb (ownHalf _ _)); [destruct H|].
    exact (In_pushIf_landable _ _ _ _ _ H). }
  destruct (Ascii.eqb (toLowerCase piece) "a").
  { apply in_flat_map in H as ([dr dc] & _ & H).
    destruct (negb (inPalace _ _ _)); [destruct H|].
    exact (In_pushIf_landable _ _ _ _ _ H). }
  destruct (Ascii.eqb (toLowerCase piece) "k").
  { apply in_app_or in H as [H|H].
    - apply in_flat_map in H as ([dr dc] & _ & H).
      destruct (negb (inPalace _ _ _)); [destruct H|].
      exact (In_pushIf_landable _ _ _ _ _ H).
    - apply in_flat_map in H as (dir & _ & H).
      apply flyingScan_found in H as (Hr & Hc & Hk).
      apply inBounds_spec in Hb0. split.
      + apply inBounds_spec. lia.
      + rewrite Hk. intros q [= <-].
        destruct (pieceColor_cases piece) as [E|E]; rewrite E; simpl; discriminate. }
  destruct (Ascii.eqb (toLowerCase piece) "p"); [|destruct H].
  destruct (String.eqb (pieceColor piece) "w");
    (apply in_app_or in H as [H|H]; [exact (In_pushIf_landable _ _ _ _ _ H)|];
     destruct (negb (ownHalf _ _)); [|destruct H];
     apply in_app_or in H as [H|H]; exact (In_pushIf_landable _ _ _ _ _ H)).
Qed.

Lemma pseudo_moves_are_landable_witness :
  inBounds (row (mkSquare 7 2)) (col (mkSquare 7 2)) = true /\
  forall q, cellAt (board startPosition) (row (mkSquare 7 2)) (col (mkSquare 7 2)) = Some q ->
            pieceColor q <> pieceColor "N".
Proof.
  apply (pseudo_moves_are_landable (board startPosition) 9 1 "N" (mkSquare 7 2)).
  - unfold startPosition. solve_wf_board.
  - reflexivity.
  - vm_compute. auto.
Defined.

(** ** Chariot and cannon along a rank or file *)

Lemma on_ray (r0 c0 dr dc j : Z) :
  In (dr, dc) orthogonal -> 1 <= j ->
  onLine r0 c0 (r0 + dr * j) (c0 + dc * j) /\
  Z.sgn (r0 + dr * j - r0) = dr /\ Z.sgn (c0 + dc * j - c0) = dc /\
  Z.max (Z.abs (r0 + dr * j - r0)) (Z.abs (c0 + dc * j - c0)) = j.
Proof.
  intros Hd Hj. unfold onLine, orthogonal in *. simpl in Hd.
  destruct Hd as [Hd|[Hd|[Hd|[Hd|[]]]]]; inversion Hd; subst dr dc; lia.
Qed.

(** The four rays of a sliding piece: a square is found by the ray that
    points at it, and by no other. *)
Lemma rays_select (ray : Z * Z -> list Square) (r0 c0 tr tc : Z) :
  (forall d sq, In d orthogonal -> In sq (ray d) ->
     exists j, 1 <= j < 10 /\ sq = mkSquare (r0 + fst d * j) (c0 + snd d * j)) ->
  In (mkSquare tr tc) (flat_map ray orthogonal) <->
  onLine r0 c0 tr tc /\
  In (mkSquare tr tc) (ray (Z.sgn (tr - r0), Z.sgn (tc - c0))).
Proof.
  intros Hidx. rewrite in_flat_map. split.
  - intros ([dr dc] & Hd & H).
    destruct (Hidx _ _ Hd H) as (j & Hj & E). simpl in E. inversion E; subst tr tc.
    destruct (on_ray r0 c0 dr dc j Hd ltac:(lia)) as (Hl & -> & -> & _).
    split; assumption.
  - intros [Hl H]. exists (Z.sgn (tr - r0), Z.sgn (tc - c0)).
    split; [apply (line_direction _ _ _ _ Hl)|exact H].
Qed.

Lemma between_count (b : Board) (r0 c0 tr tc : Z) :
  onLine r0 c0 tr tc ->
  occupiedBetween b r0 c0 tr tc
  = occupiedFrom b r0 c0 (Z.sgn (tr - r0)) (Z.sgn (tc - c0)) 1
      (Z.to_nat (Z.max (Z.abs (tr - r0)) (Z.abs (tc - c0)) - 1)).
Proof.
  intros Hl. destruct (line_direction _ _ _ _ Hl) as (_ & Hk & _).
  unfold occupiedBetween, between. rewrite <- occupiedFrom_seqZ.
  rewrite Z2Nat.id by lia. reflexivity.
Qed.

(** The squares from one square of the grid to another on its rank or file
    are on the grid. *)
Lemma line_inBounds (r0 c0 tr tc j : Z) :
  inBounds r0 c0 = true -> inBounds tr tc = true -> onLine r0 c0 tr tc ->
  1 <= j <= Z.max (Z.abs (tr - r0)) (Z.abs (tc - c0)) ->
  inBounds (r0 + Z.sgn (tr - r0) * j) (c0 + Z.sgn (tc - c0) * j) = true.
Proof.
  intros H0 Ht Hl Hj. apply inBounds_spec in H0, Ht. apply inBounds_spec.
  unfold onLine in Hl. nia.
Qed.

Section Rays.

Context (b : Board) (side : Side) (r0 c0 dr dc : Z).

Lemma chariotRay_index (sq : Square) :
  forall fuel i,
    In sq (chariotRay b side r0 c0 dr dc i fuel) ->
    exists j, i <= j < i + Z.of_nat fuel /\ sq = mkSquare (r0 + dr * j) (c0 + dc * j).
Proof.
  induction fuel as [|fuel IH]; intros i H; simpl in H; [destruct H|].
  destruct (inBounds (r0 + dr * i) (c0 + dc * i)); simpl in H; [|destruct H].
  assert (Hhere : mkSquare (r0 + dr * i) (c0 + dc * i) = sq ->
    exists j, i <= j < i + Z.of_nat (S fuel) /\ sq = mkSquare (r0 + dr * j) (c0 + dc * j)).
  { intros <-. exists i. split; [lia|reflexivity]. }
  destruct (cellAt b (r0 + dr * i) (c0 + dc * i)) as [t|].
  - destruct (negb (String.eqb (pieceColor t) side)); [|destruct H].
    destruct H as [H|[]]; auto.
  - destruct H as [H|H]; [auto|].
    destruct (IH _ H) as (j & Hr & E). exists j. split; [lia|exact E].
Qed.

(** The chariot's scan reports the square at step [kt] exactly when every
    square before it is empty and it does not hold a piece of the same side. *)
Lemma chariotRay_target (kt : Z) :
  In (dr, dc) orthogonal ->
  forall fuel i,
    i <= kt < i + Z.of_nat fuel ->
    (forall j, i <= j <= kt -> inBounds (r0 + dr * j) (c0 + dc * j) = true) ->
    In (mkSquare (r0 + dr * kt) (c0 + dc * kt))
       (chariotRay b side r0 c0 dr dc i fuel) <->
    occupiedFrom b r0 c0 dr dc i (Z.to_nat (kt - i)) = 0%nat /\
    (forall q, cellAt b (r0 + dr * kt) (c0 + dc * kt) = Some q ->
               pieceColor q <> side).
Proof.
  intros Hd.
  induction fuel as [|fuel IH]; intros i Hk Hin; [lia|].
  simpl chariotRay. rewrite (Hin i) by lia. simpl negb.
  destruct (Z.eq_dec i kt) as [->|Hne].
  - rewrite Z.sub_diag. simpl occupiedFrom.
    destruct (cellAt b (r0 + dr * kt) (c0 + dc * kt)) as [t|].
    + destruct (String.eqb_spec (pieceColor t) side) as [E|E]; simpl.
      * split; [intros []|]. intros [_ H]. exact (H t eq_refl E).
      * split; [|auto]. intros _. split; [reflexivity|]. intros q [= <-]. exact E.
    + split; [|simpl; auto]. intros _. split; [reflexivity|discriminate].
  - assert (Hn : Z.to_nat (kt - i) = S (Z.to_nat (kt - (i + 1)))) by lia.
    rewrite Hn. simpl occupiedFrom. unfold occupied. cbn [row col].
    assert (Hsq : mkSquare (r0 + dr * i) (c0 + dc * i)
                  <> mkSquare (r0 + dr * kt) (c0 + dc * kt)).
    { intros E. apply (step_injective _ _ _ _ _ _ Hd) in E. lia. }
    destruct (cellAt b (r0 + dr * i) (c0 + dc * i)) as [q|].
    + split; [|intros [? _]; discriminate]. intros H.
      destruct (negb (String.eqb (pieceColor q) side)); [|destruct H].
      destruct H as [H|[]]. destruct (Hsq H).
    + simpl. rewrite <- (IH (i + 1)) by (try lia; intros j Hj; apply Hin; lia).
      intuition.
Qed.

(** The cannon's scan reports an empty square exactly when nothing was met on
    the way, and an occupied one exactly when it holds an opposing piece and
    one piece was met on the way. *)
Lemma cannonRay_reach (kt : Z) :
  In (dr, dc) orthogonal ->
  forall fuel i jumped,
    i <= kt < i + Z.of_nat fuel ->
    (forall j, i <= j <= kt -> inBounds (r0 + dr * j) (c0 + dc * j) = true) ->
    In (mkSquare (r0 + dr * kt) (c0 + dc * kt))
       (cannonRay b side r0 c0 dr dc jumped i fuel) <->
    match cellAt b (r0 + dr * kt) (c0 + dc * kt) with
    | None =>
        (occupiedFrom b r0 c0 dr dc i (Z.to_nat (kt - i))
         + (if jumped then 1 else 0) = 0)%nat
    | Some q =>
        pieceColor q <> side /\
        (occupiedFrom b r0 c0 dr dc i (Z.to_nat (kt - i))
         + (if jumped then 1 else 0) = 1)%nat
    end.
Proof.
  intros Hd.
  induction fuel as [|fuel IH]; intros i jumped Hk Hin; [lia|].
  simpl cannonRay. rewrite (Hin i) by lia. simpl negb.
  assert (Hlater : forall jp,
            ~ In (mkSquare (r0 + dr * kt) (c0 + dc * kt))
                 (cannonRay b side r0 c0 dr dc jp (kt + 1) fuel)).
  { intros jp H. apply cannonRay_index in H as (j & Hj & E).
    apply (step_injective _ _ _ _ _ _ Hd) in E. lia. }
  destruct (Z.eq_dec i kt) as [->|Hne].
  - rewrite Z.sub_diag. simpl occupiedFrom.
    destruct (cellAt b (r0 + dr * kt) (c0 + dc * kt)) as [t|] eqn:Ht;
      destruct jumped; simpl.
    + destruct (String.eqb_spec (pieceColor t) side) as [E|E]; simpl.
      * split; [intros []|]. intros [H _]. exact (H E).
      * intuition.
    + split; [intros H; destruct (Hlater _ H)|]. intros [_ H]. discriminate.
    + split; [intros H; destruct (Hlater _ H)|]. discriminate.
    + intuition.
  - assert (Hn : Z.to_nat (kt - i) = S (Z.to_nat (kt - (i + 1)))) by lia.
    rewrite Hn. simpl occupiedFrom. unfold occupied. cbn [row col].
    assert (Hsq : mkSquare (r0 + dr * i) (c0 + dc * i)
                  <> mkSquare (r0 + dr * kt) (c0 + dc * kt)).
    { intros E. apply (step_injective _ _ _ _ _ _ Hd) in E. lia. }
    assert (Hin' : forall j, i + 1 <= j <= kt ->
                     inBounds (r0 + dr * j) (c0 + dc * j) = true)
      by (intros j Hj; apply Hin; lia).
    assert (Hk' : i + 1 <= kt < i + 1 + Z.of_nat fuel) by lia.
    pose proof (IH (i + 1) true Hk' Hin') as IHt.
    pose proof (IH (i + 1) false Hk' Hin') as IHf.
    destruct jumped; simpl;
      destruct (cellAt b (r0 + dr * i) (c0 + dc * i)) as [q|].
    + assert (Hno : ~ In (mkSquare (r0 + dr * kt) (c0 + dc * kt))
                        (if negb (String.eqb (pieceColor q) side)
                         then [mkSquare (r0 + dr * i) (c0 + dc * i)] else [])).
      { destruct (negb _); [|intros []]. intros [H|[]]. exact (Hsq H). }
      destruct (cellAt b (r0 + dr * kt) (c0 + dc * kt));
        (split; [intros H; destruct (Hno H)|]); [intros [_ ?]|intros ?]; lia.
    + rewrite IHt. destruct (cellAt b (r0 + dr * kt) (c0 + dc * kt)); simpl;
        intuition lia.
    + rewrite IHt. destruct (cellAt b (r0 + dr * kt) (c0 + dc * kt)); simpl;
        intuition lia.
    + simpl. split.
      * intros [H|H]; [destruct (Hsq H)|]. apply IHf in H.
        destruct (cellAt b (r0 + dr * kt) (c0 + dc * kt)); simpl in *; intuition lia.
      * intros H. right. apply IHf.
        destruct (cellAt b (r0 + dr * kt) (c0 + dc * kt)); simpl in *; intuition lia.
Qed.

End Rays.

Lemma generatePieceMoves_chariot (b : Board) (r0 c0 : Z) (piece : ascii) :
  toLowerCase piece = "r"%char ->
  generatePieceMoves b r0 c0 piece =
  flat_map (fun '(dr, dc) => chariotRay b (pieceColor piece) r0 c0 dr dc 1 9)
           orthogonal.
Proof. intros H. unfold generatePieceMoves. rewrite H. reflexivity. Qed.

(** The target of a ray, written with the direction and distance that
    [line_direction] gives. *)
Lemma target_on_ray (r0 c0 tr tc : Z) :
  onLine r0 c0 tr tc ->
  mkSquare tr tc
  = mkSquare (r0 + Z.sgn (tr - r0) * Z.max (Z.abs (tr - r0)) (Z.abs (tc - c0)))
             (c0 + Z.sgn (tc - c0) * Z.max (Z.abs (tr - r0)) (Z.abs (tc - c0))).
Proof.
  intros Hl. destruct (line_direction _ _ _ _ Hl) as (_ & _ & Hr & Hc).
  f_equal; assumption.
Qed.

(** X5. The chariot: from a square of the grid it reaches exactly the squares
    of the grid on its rank or file with no piece strictly between, that do
    not hold a piece of its own side. *)
Theorem chariot_moves (b : Board) (r0 c0 tr tc : Z) (piece : ascii) :
  wf_board b ->
  toLowerCase piece = "r"%char ->
  inBounds r0 c0 = true ->
  In (mkSquare tr tc) (generatePieceMoves b r0 c0 piece) <->
  inBounds tr tc = true /\
  onLine r0 c0 tr tc /\
  occupiedBetween b r0 c0 tr tc = 0%nat /\
  (forall q, cellAt b tr tc = Some q -> pieceColor q <> pieceColor piece).
Proof.
  intros _ Htype Hb0. rewrite generatePieceMoves_chariot by exact Htype.
  rewrite (rays_select _ r0 c0 tr tc).
  2:{ intros [dr dc] sq _ H. apply chariotRay_index in H as (j & Hj & E).
      exists j. split; [lia|exact E]. }
  cbv beta iota.
  assert (Hkey : onLine r0 c0 tr tc -> inBounds tr tc = true ->
    (In (mkSquare tr tc)
        (chariotRay b (pieceColor piece) r0 c0 (Z.sgn (tr - r0)) (Z.sgn (tc - c0)) 1 9)
     <-> occupiedBetween b r0 c0 tr tc = 0%nat /\
         (forall q, cellAt b tr tc = Some q -> pieceColor q <> pieceColor piece))).
  { intros Hl Hbt. rewrite (between_count _ _ _ _ _ Hl).
    destruct (line_direction _ _ _ _ Hl) as (Hd & Hk & Hr & Hc).
    rewrite (target_on_ray _ _ _ _ Hl) at 1.
    rewrite (chariotRay_target b (pieceColor piece) r0 c0 _ _ _ Hd 9 1).
    - rewrite <- Hr, <- Hc. reflexivity.
    - apply inBounds_spec in Hb0, Hbt. lia.
    - intros j Hj. apply line_inBounds; auto. }
  split.
  - intros [Hl H].
    assert (Hbt : inBounds tr tc = true)
      by exact (proj1 (chariotRay_landable _ _ _ _ _ _ _ _ _ H)).
    apply (Hkey Hl Hbt) in H. tauto.
  - intros (Hbt & Hl & H). split; [exact Hl|]. apply (Hkey Hl Hbt). exact H.
Qed.

Lemma chariot_moves_witness :
  In (mkSquare 7 0) (generatePieceMoves (board startPosition) 9 0 "R") <->
  inBounds 7 0 = true /\
  onLine 9 0 7 0 /\
  occupiedBetween (board startPosition) 9 0 7 0 = 0%nat /\
  (forall q, cellAt (board startPosition) 7 0 = Some q ->
             pieceColor q <> pieceColor "R").
Proof.
  apply (chariot_moves (board startPosition) 9 0 7 0 "R");
    [unfold startPosition; solve_wf_board|reflexivity|reflexivity].
Defined.

(** X6. The cannon: from a square of the grid it reaches an empty square of
    its rank or file exactly when no piece stands between, and an occupied one
    exactly when the piece is an opposing one and one piece stands between; it
    reaches nothing else. *)
Theorem cannon_moves (b : Board) (r0 c0 tr tc : Z) (piece : ascii) :
  wf_board b ->
  toLowerCase piece = "c"%char ->
  inBounds r0 c0 = true ->
  In (mkSquare tr tc) (generatePieceMoves b r0 c0 piece) <->
  inBounds tr tc = true /\
  onLine r0 c0 tr tc /\
  match cellAt b tr tc with
  | None => occupiedBetween b r0 c0 tr tc = 0%nat
  | Some q =>
      pieceColor q <> pieceColor piece /\ occupiedBetween b r0 c0 tr tc = 1%nat
  end.
Proof.
  intros _ Htype Hb0. rewrite generatePieceMoves_cannon by exact Htype.
  rewrite (rays_select _ r0 c0 tr tc).
  2:{ intros [dr dc] sq _ H. apply cannonRay_index in H as (j & Hj & E).
      exists j. split; [lia|exact E]. }
  cbv beta iota.
  assert (Hkey : onLine r0 c0 tr tc -> inBounds tr tc = true ->
    (In (mkSquare tr tc)
        (cannonRay b (pieceColor piece) r0 c0 (Z.sgn (tr - r0)) (Z.sgn (tc - c0))
                   false 1 9)
     <-> match cellAt b tr tc with
         | None => occupiedBetween b r0 c0 tr tc = 0%nat
         | Some q =>
             pieceColor q <> pieceColor piece /\
             occupiedBetween b r0 c0 tr tc = 1%nat
         end)).
  { intros Hl Hbt. rewrite (between_count _ _ _ _ _ Hl).
    destruct (line_direction _ _ _ _ Hl) as (Hd & Hk & Hr & Hc).
    rewrite (target_on_ray _ _ _ _ Hl) at 1.
    rewrite (cannonRay_reach b (pieceColor piece) r0 c0 _ _ _ Hd 9 1 false).
    - rewrite <- Hr, <- Hc. rewrite !Nat.add_0_r. reflexivity.
    - apply inBounds_spec in Hb0, Hbt. lia.
    - intros j Hj. apply line_inBounds; auto. }
  split.
  - intros [Hl H].
    assert (Hbt : inBounds tr tc = true)
      by exact (proj1 (cannonRay_landable _ _ _ _ _ _ _ _ _ _ H)).
    apply (Hkey Hl Hbt) in H. tauto.
  - intros (Hbt & Hl & H). split; [exact Hl|]. apply (Hkey Hl Hbt). exact H.
Qed.

Lemma cannon_moves_witness :
  In (mkSquare 9 1) (generatePieceMoves (board cannonPosition) 9 0 "C") <->
  inBounds 9 1 = true /\
  onLine 9 0 9 1 /\
  match cellAt (board cannonPosition) 9 1 with
  | None => occupiedBetween (board cannonPosition) 9 0 9 1 = 0%nat
  | Some q =>
      pieceColor q <> pieceColor "C" /\
      occupiedBetween (board cannonPosition) 9 0 9 1 = 1%nat
  end.
Proof.
  apply (cannon_moves (board cannonPosition) 9 0 9 1 "C");
    [unfold cannonPosition; solve_wf_board|reflexivity|reflexivity].
Defined.

(** ** Horse, elephant, advisor and soldier *)

Lemma In_guarded (c : bool) (l : list Square) (sq : Square) :
  In sq (if c then [] else l) <-> c = false /\ In sq l.
Proof. destruct c; simpl; intuition discriminate. Qed.

Lemma In_leg_guard (b : Board) (br bc : Z) (l : list Square) (sq : Square) :
  In sq (if negb (inBounds br bc) || bool_decide (cellAt b br bc <> None)
         then [] else l) <->
  inBounds br bc = true /\ cellAt b br bc = None /\ In sq l.
Proof.
  rewrite In_guarded, orb_false_iff, negb_false_iff, bool_decide_eq_false.
  destruct (cellAt b br bc); intuition (discriminate || congruence).
Qed.

Ltac pick_member := simpl; repeat (first [left; reflexivity | right]).

Lemma generatePieceMoves_horse (b : Board) (r0 c0 : Z) (piece : ascii) :
  toLowerCase piece = "n"%char ->
  generatePieceMoves b r0 c0 piece =
  flat_map (fun '(dr, dc, blockR, blockC) =>
      let br := r0 + blockR in
      let bc := c0 + blockC in
      if negb (inBounds br bc) || bool_decide (cellAt b br bc <> None) then []
      else pushIf (canMoveTo b (pieceColor piece) (r0 + dr) (c0 + dc))
                  (r0 + dr) (c0 + dc))
    knightMoves.
Proof. intros H. unfold generatePieceMoves. rewrite H. reflexivity. Qed.

(** X7. The horse: it reaches exactly the squares one step along one axis and
    two along the other on which a piece may land, provided the square next to
    it in the direction of the long step (its leg) is on the grid and empty. *)
Theorem horse_moves (b : Board) (r0 c0 : Z) (piece : ascii) (sq : Square) :
  wf_board b ->
  toLowerCase piece = "n"%char ->
  In sq (generatePieceMoves b r0 c0 piece) <->
  exists dr dc,
    (Z.abs dr = 1 /\ Z.abs dc = 2 \/ Z.abs dr = 2 /\ Z.abs dc = 1) /\
    sq = mkSquare (r0 + dr) (c0 + dc) /\
    inBounds (r0 + dr ÷ 2) (c0 + dc ÷ 2) = true /\
    cellAt b (r0 + dr ÷ 2) (c0 + dc ÷ 2) = None /\
    landable b (pieceColor piece) (r0 + dr) (c0 + dc).
Proof.
  intros _ Htype. rewrite generatePieceMoves_horse by exact Htype.
  rewrite in_flat_map. split.
  - intros ([[[dr dc] br] bc] & Hx & H). simpl in Hx.
    repeat (destruct Hx as [Hx|Hx]; [inversion Hx; subst dr dc br bc; clear Hx|]);
      try destruct Hx;
      apply In_leg_guard in H as (Hb & Hc & H);
      apply In_pushIf in H as [H ->]; apply canMoveTo_landable in H;
      match goal with
      | |- exists dr dc, _ /\ mkSquare (r0 + ?a) (c0 + ?d) = _ /\ _ =>
          exists a, d; repeat split; try assumption; try apply H; lia
      end.
  - intros (dr & dc & Hshape & -> & Hb & Hc & Hl).
    exists (dr, dc, dr ÷ 2, dc ÷ 2). split.
    + assert (Hdr : dr = 1 \/ dr = -1 \/ dr = 2 \/ dr = -2) by lia.
      assert (Hdc : dc = 1 \/ dc = -1 \/ dc = 2 \/ dc = -2) by lia.
      destruct Hdr as [->|[->|[->| ->]]], Hdc as [->|[->|[->| ->]]];
        try (exfalso; lia); pick_member.
    + cbv beta iota zeta. apply In_leg_guard. repeat split; try assumption.
      apply In_pushIf. split; [apply canMoveTo_landable, Hl|reflexivity].
Qed.

Lemma horse_moves_witness :
  In (mkSquare 7 2) (generatePieceMoves (board startPosition) 9 1 "N") <->
  exists dr dc,
    (Z.abs dr = 1 /\ Z.abs dc = 2 \/ Z.abs dr = 2 /\ Z.abs dc = 1) /\
    mkSquare 7 2 = mkSquare (9 + dr) (1 + dc) /\
    inBounds (9 + dr ÷ 2) (1 + dc ÷ 2) = true /\
    cellAt (board startPosition) (9 + dr ÷ 2) (1 + dc ÷ 2) = None /\
    landable (board startPosition) (pieceColor "N") (9 + dr) (1 + dc).
Proof.
  apply (horse_moves (board startPosition) 9 1 "N" (mkSquare 7 2));
    [unfold startPosition; solve_wf_board|reflexivity].
Defined.

Lemma generatePieceMoves_elephant (b : Board) (r0 c0 : Z) (piece : ascii) :
  toLowerCase piece = "b"%char ->
  generatePieceMoves b r0 c0 piece =
  flat_map (fun '(dr, dc, blockR, blockC) =>
      let br := r0 + blockR in
      let bc := c0 + blockC in
      if negb (inBounds br bc) || bool_decide (cellAt b br bc <> None) then []
      else
        let nr := r0 + dr in
        let nc := c0 + dc in
        if negb (inBounds nr nc) then []
        else if negb (ownHalf nr (pieceColor piece)) then []
        else pushIf (canMoveTo b (pieceColor piece) nr nc) nr nc)
    elephantMoves.
Proof. intros H. unfold generatePieceMoves. rewrite H. reflexivity. Qed.

(** X8. The elephant: it reaches exactly the squares two steps away on a
    diagonal, in its own half of the board, on which a piece may land,
    provided the square in the middle of the diagonal is on the grid and
    empty. *)
Theorem elephant_moves (b : Board) (r0 c0 : Z) (piece : ascii) (sq : Square) :
  wf_board b ->
  toLowerCase piece = "b"%char ->
  In sq (generatePieceMoves b r0 c0 piece) <->
  exists dr dc,
    Z.abs dr = 2 /\ Z.abs dc = 2 /\
    sq = mkSquare (r0 + dr) (c0 + dc) /\
    inBounds (r0 + dr ÷ 2) (c0 + dc ÷ 2) = true /\
    cellAt b (r0 + dr ÷ 2) (c0 + dc ÷ 2) = None /\
    ownHalf (r0 + dr) (pieceColor piece) = true /\
    landable b (pieceColor piece) (r0 + dr) (c0 + dc).
Proof.
  intros _ Htype. rewrite generatePieceMoves_elephant by exact Htype.
  rewrite in_flat_map. split.
  - intros ([[[dr dc] br] bc] & Hx & H). simpl in Hx.
    repeat (destruct Hx as [Hx|Hx]; [inversion Hx; subst dr dc br bc; clear Hx|]);
      try destruct Hx;
      apply In_leg_guard in H as (Hb & Hc & H); cbv zeta in H;
      apply In_guarded in H as [_ H];
      apply In_guarded in H as [Hh%negb_false_iff H];
      apply In_pushIf in H as [H ->]; apply canMoveTo_landable in H;
      match goal with
      | |- exists dr dc, _ /\ _ /\ mkSquare (r0 + ?a) (c0 + ?d) = _ /\ _ =>
          exists a, d; repeat split; try assumption; try apply H; lia
      end.
  - intros (dr & dc & Hdr & Hdc & -> & Hb & Hc & Hh & Hl).
    exists (dr, dc, dr ÷ 2, dc ÷ 2). split.
    + assert (Hr : dr = 2 \/ dr = -2) by lia.
      assert (Hc' : dc = 2 \/ dc = -2) by lia.
      destruct Hr as [-> | ->], Hc' as [-> | ->]; pick_member.
    + cbv beta iota zeta. apply In_leg_guard. repeat split; try assumption.
      apply In_guarded. split; [apply negb_false_iff, Hl|].
      apply In_guarded. split; [apply negb_false_iff, Hh|].
      apply In_pushIf. split; [apply canMoveTo_landable, Hl|reflexivity].
Qed.

Lemma elephant_moves_witness :
  In (mkSquare 7 4) (generatePieceMoves (board startPosition) 9 2 "B") <->
  exists dr dc,
    Z.abs dr = 2 /\ Z.abs dc = 2 /\
    mkSquare 7 4 = mkSquare (9 + dr) (2 + dc) /\
    inBounds (9 + dr ÷ 2) (2 + dc ÷ 2) = true /\
    cellAt (board startPosition) (9 + dr ÷ 2) (2 + dc ÷ 2) = None /\
    ownHalf (9 + dr) (pieceColor "B") = true /\
    landable (board startPosition) (pieceColor "B") (9 + dr) (2 + dc).
Proof.
  apply (elephant_moves (board startPosition) 9 2 "B" (mkSquare 7 4));
    [unfold startPosition; solve_wf_board|reflexivity].
Defined.

Lemma generatePieceMoves_advisor (b : Board) (r0 c0 : Z) (piece : ascii) :
  toLowerCase piece = "a"%char ->
  generatePieceMoves b r0 c0 piece =
  flat_map (fun '(dr, dc) =>
      let nr := r0 + dr in
      let nc := c0 + dc in
      if negb (inPalace nr nc (pieceColor piece)) then []
      else pushIf (canMoveTo b (pieceColor piece) nr nc) nr nc)
    diagonal.
Proof. intros H. unfold generatePieceMoves. rewrite H. reflexivity. Qed.

(** X9. The advisor: it reaches exactly the squares one diagonal step away
    that lie in its own palace and on which a piece may land. *)
Theorem advisor_moves (b : Board) (r0 c0 : Z) (piece : ascii) (sq : Square) :
  wf_board b ->
  toLowerCase piece = "a"%char ->
  In sq (generatePieceMoves b r0 c0 piece) <->
  exists dr dc,
    Z.abs dr = 1 /\ Z.abs dc = 1 /\
    sq = mkSquare (r0 + dr) (c0 + dc) /\
    inPalace (r0 + dr) (c0 + dc) (pieceColor piece) = true /\
    landable b (pieceColor piece) (r0 + dr) (c0 + dc).
Proof.
  intros _ Htype. rewrite generatePieceMoves_advisor by exact Htype.
  rewrite in_flat_map. split.
  - intros ([dr dc] & Hx & H). simpl in Hx.
    repeat (destruct Hx as [Hx|Hx]; [inversion Hx; subst dr dc; clear Hx|]);
      try destruct Hx; cbv zeta in H;
      apply In_guarded in H as [Hp%negb_false_iff H];
      apply In_pushIf in H as [H ->]; apply canMoveTo_landable in H;
      match goal with
      | |- exists dr dc, _ /\ _ /\ mkSquare (r0 + ?a) (c0 + ?d) = _ /\ _ =>
          exists a, d; repeat split; try assumption; try apply H; lia
      end.
  - intros (dr & dc & Hdr & Hdc & -> & Hp & Hl).
    exists (dr, dc). split.
    + assert (Hr : dr = 1 \/ dr = -1) by lia.
      assert (Hc : dc = 1 \/ dc = -1) by lia.
      destruct Hr as [-> | ->], Hc as [-> | ->]; pick_member.
    + cbv beta iota zeta. apply In_guarded. split; [apply negb_false_iff, Hp|].
      apply In_pushIf. split; [apply canMoveTo_landable, Hl|reflexivity].
Qed.

Lemma advisor_moves_witness :
  In (mkSquare 8 4) (generatePieceMoves (board startPosition) 9 3 "A") <->
  exists dr dc,
    Z.abs dr = 1 /\ Z.abs dc = 1 /\
    mkSquare 8 4 = mkSquare (9 + dr) (3 + dc) /\
    inPalace (9 + dr) (3 + dc) (pieceColor "A") = true /\
    landable (board startPosition) (pieceColor "A") (9 + dr) (3 + dc).
Proof.
  apply (advisor_moves (board startPosition) 9 3 "A" (mkSquare 8 4));
    [unfold startPosition; solve_wf_board|reflexivity].
Defined.

Lemma generatePieceMoves_soldier (b : Board) (r0 c0 : Z) (piece : ascii) :
  toLowerCase piece = "p"%char ->
  let side := pieceColor piece in
  generatePieceMoves b r0 c0 piece =
  (pushIf (canMoveTo b side (r0 + forwardStep side) c0) (r0 + forwardStep side) c0
   ++ (if negb (ownHalf r0 side) then
         pushIf (canMoveTo b side r0 (c0 - 1)) r0 (c0 - 1)
           ++ pushIf (canMoveTo b side r0 (c0 + 1)) r0 (c0 + 1)
       else []))%list.
Proof.
  intros H side. unfold generatePieceMoves. rewrite H. fold side.
  unfold forwardStep. cbn [Ascii.eqb Bool.eqb]. simpl Ascii.eqb.
  destruct (String.eqb side "w"); reflexivity.
Qed.

(** X10. The soldier: it reaches exactly the squares on which a piece may
    land that are one step forward, or, once it stands outside its own half,
    one step to the left or right on its rank. It never steps back. *)
Theorem soldier_moves (b : Board) (r0 c0 : Z) (piece : ascii) (sq : Square) :
  wf_board b ->
  toLowerCase piece = "p"%char ->
  let side := pieceColor piece in
  In sq (generatePieceMoves b r0 c0 piece) <->
  landable b side (row sq) (col sq) /\
  (sq = mkSquare (r0 + forwardStep side) c0 \/
   ownHalf r0 side = false /\ row sq = r0 /\
   (col sq = c0 - 1 \/ col sq = c0 + 1)).
Proof.
  intros _ Htype side. rewrite (generatePieceMoves_soldier b r0 c0 piece Htype).
  fold side. rewrite in_app_iff, In_pushIf, canMoveTo_landable. split.
  - intros [[Hl ->]|H]; [split; [exact Hl|left; reflexivity]|].
    destruct (ownHalf r0 side) eqn:Hh; [destruct H|]. cbn [negb] in H.
    rewrite in_app_iff, !In_pushIf, !canMoveTo_landable in H.
    destruct H as [[Hl ->]|[Hl ->]]; (split; [exact Hl|right; simpl; auto]).
  - intros [Hl [->|(Hh & Hr & Hc)]]; [left; split; [exact Hl|reflexivity]|].
    right. rewrite Hh. cbn [negb].
    rewrite in_app_iff, !In_pushIf, !canMoveTo_landable.
    destruct sq as [r c]; simpl in *; subst r.
    destruct Hc as [-> | ->]; [left|right]; split; auto.
Qed.

Lemma soldier_moves_witness :
  let side := pieceColor "P" in
  In (mkSquare 5 0) (generatePieceMoves (board startPosition) 6 0 "P") <->
  landable (board startPosition) side (row (mkSquare 5 0)) (col (mkSquare 5 0)) /\
  (mkSquare 5 0 = mkSquare (6 + forwardStep side) 0 \/
   ownHalf 6 side = false /\ row (mkSquare 5 0) = 6 /\
   (col (mkSquare 5 0) = 0 - 1 \/ col (mkSquare 5 0) = 0 + 1)).
Proof.
  apply (soldier_moves (board startPosition) 6 0 "P" (mkSquare 5 0));
    [unfold startPosition; solve_wf_board|reflexivity].
Defined.

(** ** The general *)

Section FlyingScan.

Context (b : Board) (c0 : Z) (k : ascii) (dir r0 : Z).

Lemma flyingScan_index (sq : Square) :
  forall fuel i,
    In sq (flyingScan b c0 k dir (r0 + dir * i) fuel) ->
    exists j, i <= j < i + Z.of_nat fuel /\ sq = mkSquare (r0 + dir * j) c0.
Proof.
  induction fuel as [|fuel IH]; intros i H; simpl in H; [destruct H|].
  destruct (negb _); [destruct H|].
  destruct (cellAt b (r0 + dir * i) c0) as [p|].
  - destruct (Ascii.eqb p k); [|destruct H]. destruct H as [<-|[]].
    exists i. split; [lia|reflexivity].
  - replace (r0 + dir * i + dir) with (r0 + dir * (i + 1)) in H by ring.
    destruct (IH _ H) as (j & Hj & E). exists j. split; [lia|exact E].
Qed.

(** The scan reports the square at step [kt] exactly when it holds the
    opposing general and every square before it is empty. *)
Lemma flyingScan_target (kt : Z) :
  dir = 1 \/ dir = -1 ->
  forall fuel i,
    i <= kt < i + Z.of_nat fuel ->
    (forall j, i <= j <= kt -> 0 <= r0 + dir * j < 10) ->
    In (mkSquare (r0 + dir * kt) c0) (flyingScan b c0 k dir (r0 + dir * i) fuel) <->
    occupiedFrom b r0 c0 dir 0 i (Z.to_nat (kt - i)) = 0%nat /\
    cellAt b (r0 + dir * kt) c0 = Some k.
Proof.
  intros Hdir.
  induction fuel as [|fuel IH]; intros i Hk Hin; [lia|].
  simpl flyingScan.
  replace ((0 <=? r0 + dir * i) && (r0 + dir * i <? 10)) with true
    by (symmetry; apply andb_true_iff; split;
        [apply Z.leb_le|apply Z.ltb_lt]; apply (Hin i); lia).
  cbn [negb].
  destruct (Z.eq_dec i kt) as [->|Hne].
  - rewrite Z.sub_diag. simpl occupiedFrom.
    destruct (cellAt b (r0 + dir * kt) c0) as [p|].
    + destruct (Ascii.eqb_spec p k) as [->|E]; simpl.
      * intuition.
      * split; [intros []|]. intros [_ [= ->]]. destruct E. reflexivity.
    + split; [|intros [_ ?]; discriminate]. intros H.
      replace (r0 + dir * kt + dir) with (r0 + dir * (kt + 1)) in H by ring.
      apply flyingScan_index in H as (j & Hj & E). inversion E.
      destruct Hdir as [-> | ->]; lia.
  - assert (Hn : Z.to_nat (kt - i) = S (Z.to_nat (kt - (i + 1)))) by lia.
    rewrite Hn. simpl occupiedFrom. unfold occupied. cbn [row col].
    replace (c0 + 0 * i) with c0 by lia.
    destruct (cellAt b (r0 + dir * i) c0) as [p|].
    + split; [|intros [? _]; discriminate]. intros H.
      destruct (Ascii.eqb p k); [|destruct H]. destruct H as [H|[]].
      inversion H. destruct Hdir as [-> | ->]; lia.
    + replace (r0 + dir * i + dir) with (r0 + dir * (i + 1)) by ring.
      rewrite (IH (i + 1)) by (try lia; intros j Hj; apply Hin; lia).
      simpl. reflexivity.
Qed.

End FlyingScan.

Lemma opponentKing_eq (side : Side) :
  (if String.eqb side "w" then "k"%char else "K"%char) = kingOf (flipSide side).
Proof. unfold kingOf, flipSide. destruct (String.eqb side "w"); reflexivity. Qed.

Lemma generatePieceMoves_general (b : Board) (r0 c0 : Z) (piece : ascii) :
  toLowerCase piece = "k"%char ->
  let side := pieceColor piece in
  generatePieceMoves b r0 c0 piece =
  (flat_map (fun '(dr, dc) =>
       let nr := r0 + dr in
       let nc := c0 + dc in
       if negb (inPalace nr nc side) then []
       else pushIf (canMoveTo b side nr nc) nr nc)
     orthogonal
   ++ flat_map (fun dir => flyingScan b c0 (kingOf (flipSide side)) dir (r0 + dir) 10)
               [-1; 1])%list.
Proof.
  intros H side. unfold generatePieceMoves. rewrite H. fold side.
  rewrite <- opponentKing_eq. reflexivity.
Qed.

(** The facing-generals part of the general's moves. *)
Lemma flying_moves (b : Board) (r0 c0 : Z) (k : ascii) (sq : Square) :
  0 <= r0 < 10 ->
  In sq (flat_map (fun dir => flyingScan b c0 k dir (r0 + dir) 10) [-1; 1]) <->
  col sq = c0 /\ row sq <> r0 /\ 0 <= row sq < 10 /\
  cellAt b (row sq) c0 = Some k /\
  occupiedBetween b r0 c0 (row sq) c0 = 0%nat.
Proof.
  intros Hr0. rewrite in_flat_map. split.
  - intros (dir & Hdir & H).
    assert (Hd : dir = 1 \/ dir = -1) by (simpl in Hdir; intuition).
    pose proof (flyingScan_found _ _ _ _ _ _ _ H) as (Hrow & Hcol & Hcell).
    replace (r0 + dir) with (r0 + dir * 1) in H by lia.
    destruct (flyingScan_index _ _ _ _ _ _ _ _ H) as (j & Hj & E).
    subst sq. cbn [row col] in *.
    assert (Hl : onLine r0 c0 (r0 + dir * j) c0)
      by (right; split; [reflexivity|destruct Hd as [-> | ->]; lia]).
    apply (flyingScan_target b c0 k dir r0 j Hd 10 1) in H;
      [|lia|intros j' Hj'; destruct Hd as [-> | ->]; lia].
    destruct H as [Hocc _].
    rewrite (between_count _ _ _ _ _ Hl).
    replace (Z.sgn (r0 + dir * j - r0)) with dir by (destruct Hd as [-> | ->]; lia).
    replace (Z.sgn (c0 - c0)) with 0 by lia.
    replace (Z.max (Z.abs (r0 + dir * j - r0)) (Z.abs (c0 - c0))) with j
      by (destruct Hd as [-> | ->]; lia).
    destruct Hl as [[_ []]|[_ Hl]]; [reflexivity|].
    repeat split; try assumption; lia.
  - intros (Hcol & Hne & Hrow & Hcell & Hocc). destruct sq as [tr tc].
    cbn [row col] in *. subst tc.
    assert (Hl : onLine r0 c0 tr c0) by (right; split; [reflexivity|exact Hne]).
    rewrite (between_count _ _ _ _ _ Hl) in Hocc.
    set (dir := Z.sgn (tr - r0)) in *.
    set (j := Z.max (Z.abs (tr - r0)) (Z.abs (c0 - c0))) in *.
    assert (Hd : dir = 1 \/ dir = -1) by (subst dir; lia).
    assert (Htr : tr = r0 + dir * j) by (subst dir j; lia).
    replace (Z.sgn (c0 - c0)) with 0 in Hocc by lia.
    exists dir. split; [simpl; destruct Hd as [-> | ->]; auto|].
    replace (r0 + dir) with (r0 + dir * 1) by lia. rewrite Htr.
    apply (flyingScan_target b c0 k dir r0 j Hd 10 1).
    + subst dir j. lia.
    + intros j' Hj'. subst dir j. lia.
    + split; [exact Hocc|]. rewrite <- Htr. exact Hcell.
Qed.

(** X11. The general: from a square of the grid it reaches exactly the
    squares one orthogonal step away that lie in its own palace and on which a
    piece may land, and the square of the opposing general when that general
    stands on the same file with no piece between. *)
Theorem general_moves (b : Board) (r0 c0 : Z) (piece : ascii) (sq : Square) :
  wf_board b ->
  toLowerCase piece = "k"%char ->
  inBounds r0 c0 = true ->
  let side := pieceColor piece in
  In sq (generatePieceMoves b r0 c0 piece) <->
  (exists dr dc,
      Z.abs dr + Z.abs dc = 1 /\
      sq = mkSquare (r0 + dr) (c0 + dc) /\
      inPalace (r0 + dr) (c0 + dc) side = true /\
      landable b side (r0 + dr) (c0 + dc)) \/
  (col sq = c0 /\ row sq <> r0 /\ 0 <= row sq < 10 /\
   cellAt b (row sq) c0 = Some (kingOf (flipSide side)) /\
   occupiedBetween b r0 c0 (row sq) c0 = 0%nat).
Proof.
  intros _ Htype Hb0 side. apply inBounds_spec in Hb0.
  rewrite (generatePieceMoves_general b r0 c0 piece Htype). fold side.
  rewrite in_app_iff, flying_moves by lia.
  apply or_iff_compat_r. rewrite in_flat_map. split.
  - intros ([dr dc] & Hx & H). simpl in Hx.
    repeat (destruct Hx as [Hx|Hx]; [inversion Hx; subst dr dc; clear Hx|]);
      try destruct Hx; cbv zeta in H;
      apply In_guarded in H as [Hp%negb_false_iff H];
      apply In_pushIf in H as [H ->]; apply canMoveTo_landable in H;
      match goal with
      | |- exists dr dc, _ /\ mkSquare (r0 + ?a) (c0 + ?d) = _ /\ _ =>
          exists a, d; repeat split; try assumption; try apply H; lia
      end.
  - intros (dr & dc & Hd & -> & Hp & Hl).
    exists (dr, dc). split.
    + assert (Hc : (dr = 0 /\ dc = 1) \/ (dr = 0 /\ dc = -1)
                   \/ (dr = 1 /\ dc = 0) \/ (dr = -1 /\ dc = 0)) by lia.
      destruct Hc as [[-> ->]|[[-> ->]|[[-> ->]|[-> ->]]]]; pick_member.
    + cbv beta iota zeta. apply In_guarded. split; [apply negb_false_iff, Hp|].
      apply In_pushIf. split; [apply canMoveTo_landable, Hl|reflexivity].
Qed.

Lemma general_moves_witness :
  let side := pieceColor "K" in
  In (mkSquare 8 4) (generatePieceMoves (board startPosition) 9 4 "K") <->
  (exists dr dc,
      Z.abs dr + Z.abs dc = 1 /\
      mkSquare 8 4 = mkSquare (9 + dr) (4 + dc) /\
      inPalace (9 + dr) (4 + dc) side = true /\
      landable (board startPosition) side (9 + dr) (4 + dc)) \/
  (col (mkSquare 8 4) = 4 /\ row (mkSquare 8 4) <> 9 /\
   0 <= row (mkSquare 8 4) < 10 /\
   cellAt (board startPosition) (row (mkSquare 8 4)) 4 = Some (kingOf (flipSide side)) /\
   occupiedBetween (board startPosition) 9 4 (row (mkSquare 8 4)) 4 = 0%nat).
Proof.
  apply (general_moves (board startPosition) 9 4 "K" (mkSquare 8 4));
    [unfold startPosition; solve_wf_board|reflexivity|reflexivity].
Defined.

(** ** Legal moves *)

Lemma pseudo_landable (b : Board) (r0 c0 : Z) (piece : ascii) (sq : Square) :
  inBounds r0 c0 = true ->
  In sq (generatePieceMoves b r0 c0 piece) ->
  landable b (pieceColor piece) (row sq) (col sq).
Proof.
  intros Hb0 H. unfold generatePieceMoves in H.
  destruct (Ascii.eqb (toLowerCase piece) "r").
  { apply in_flat_map in H as ([dr dc] & _ & H). exact (chariotRay_landable _ _ _ _ _ _ _ _ _ H). }
  destruct (Ascii.eqb (toLowerCase piece) "c").
  { apply in_flat_map in H as ([dr dc] & _ & H). exact (cannonRay_landable _ _ _ _ _ _ _ _ _ _ H). }
  destruct (Ascii.eqb (toLowerCase piece) "n").
  { apply in_flat_map in H as ([[[dr dc] br] bc] & _ & H).
    apply In_leg_guard in H as (_ & _ & H). exact (In_pushIf_landable _ _ _ _ _ H). }
  destruct (Ascii.eqb (toLowerCase piece) "b").
  { apply in_flat_map in H as ([[[dr dc] br] bc] & _ & H).
    apply In_leg_guard in H as (_ & _ & H). cbv zeta in H.
    apply In_guarded in H as [_ H]. apply In_guarded in H as [_ H].
    exact (In_pushIf_landable _ _ _ _ _ H). }
  destruct (Ascii.eqb (toLowerCase piece) "a").
  { apply in_flat_map in H as ([dr dc] & _ & H). cbv zeta in H.
    apply In_guarded in H as [_ H]. exact (In_pushIf_landable _ _ _ _ _ H). }
  destruct (Ascii.eqb (toLowerCase piece) "k").
  { rewrite opponentKing_eq in H. apply in_app_or in H as [H|H].
    - apply in_flat_map in H as ([dr dc] & _ & H). cbv zeta in H.
      apply In_guarded in H as [_ H]. exact (In_pushIf_landable _ _ _ _ _ H).
    - apply inBounds_spec in Hb0. apply flying_moves in H; [|lia].
      destruct H as (Hc & _ & Hr & Hk & _). split.
      + apply inBounds_spec. lia.
      + rewrite Hc, Hk. intros q [= <-]. unfold kingOf, flipSide.
        destruct (pieceColor_cases piece) as [E|E]; rewrite E; simpl; discriminate. }
  destruct (Ascii.eqb (toLowerCase piece) "p"); [|destruct H].
  destruct (String.eqb (pieceColor piece) "w");
    (apply in_app_or in H as [H|H]; [exact (In_pushIf_landable _ _ _ _ _ H)|];
     destruct (negb (ownHalf _ _)); [|destruct H];
     apply in_app_or in H as [H|H]; exact (In_pushIf_landable _ _ _ _ _ H)).
Qed.

Lemma legal_move_in_grid (pos : Position) (m : Move) :
  In m (generateLegalMoves pos) ->
  inBounds (row (from m)) (col (from m)) = true /\
  inBounds (row (to m)) (col (to m)) = true /\
  isSide (turn pos) = true.
Proof.
  intros H. apply In_generateLegalMoves in H as (p & Hb & _ & Hc & Ht & _).
  split; [exact Hb|]. split; [exact (proj1 (pseudo_landable _ _ _ _ _ Hb Ht))|].
  rewrite <- Hc. unfold isSide.
  destruct (pieceColor_cases p) as [-> | ->]; reflexivity.
Qed.

Lemma keepsKingSafe_isInCheck (b : Board) (side : Side) (f t : Square) :
  keepsKingSafe b side f t = true <->
  findKing (movePiece b f t) side <> None /\
  isInCheck {| board := movePiece b f t; turn := side |} = false.
Proof.
  unfold keepsKingSafe, isInCheck. cbn [board turn].
  destruct (findKing (movePiece b f t) side) as [k|].
  - rewrite negb_true_iff. intuition discriminate.
  - intuition discriminate.
Qed.

(** X12. A move is legal exactly when it is a pseudo-move of a piece of the
    side to move and, on the resulting board, that side still has its general
    and would not be in check if it were to move again. *)
Theorem legal_move_characterisation (pos : Position) (f t : Square) :
  wf_board (board pos) ->
  isLegalMove pos f t = true <->
  exists piece,
    inBounds (row f) (col f) = true /\
    cellAt (board pos) (row f) (col f) = Some piece /\
    pieceColor piece = turn pos /\
    In t (generatePieceMoves (board pos) (row f) (col f) piece) /\
    let after := board (applyMove pos f t) in
    findKing after (turn pos) <> None /\
    isInCheck {| board := after; turn := turn pos |} = false.
Proof.
  intros _. rewrite isLegalMove_In, In_generateLegalMoves. cbn [from to applyMove board].
  split; intros (piece & Hb & Hp & Hc & Ht & Hk); exists piece;
    repeat split; try assumption; apply keepsKingSafe_isInCheck; assumption.
Qed.

Lemma legal_move_characterisation_witness :
  isLegalMove startPosition (mkSquare 7 1) (mkSquare 7 4) = true <->
  exists piece,
    inBounds (row (mkSquare 7 1)) (col (mkSquare 7 1)) = true /\
    cellAt (board startPosition) (row (mkSquare 7 1)) (col (mkSquare 7 1)) = Some piece /\
    pieceColor piece = turn startPosition /\
    In (mkSquare 7 4)
       (generatePieceMoves (board startPosition) (row (mkSquare 7 1))
                           (col (mkSquare 7 1)) piece) /\
    let after := board (applyMove startPosition (mkSquare 7 1) (mkSquare 7 4)) in
    findKing after (turn startPosition) <> None /\
    isInCheck {| board := after; turn := turn startPosition |} = false.
Proof.
  apply (legal_move_characterisation startPosition (mkSquare 7 1) (mkSquare 7 4)).
  unfold startPosition. solve_wf_board.
Defined.

(** X13. [getLegalTargets] lists, for an origin square, exactly the
    destinations that [isLegalMove] accepts from it: the hints shown on the
    board are the moves that will be accepted. *)
Theorem getLegalTargets_isLegalMove (pos : Position) (f t : Square) :
  wf_board (board pos) ->
  In t (getLegalTargets pos f) <-> isLegalMove pos f t = true.
Proof.
  intros _. unfold getLegalTargets. rewrite isLegalMove_In, in_map_iff. split.
  - intros ([f' t'] & <- & H). apply filter_In in H as [H Hs].
    cbn [from to] in *. apply sameSquare_eq in Hs as ->. exact H.
  - intros H. exists (mkMove f t). split; [reflexivity|].
    apply filter_In. split; [exact H|]. apply sameSquare_eq. reflexivity.
Qed.

Lemma getLegalTargets_isLegalMove_witness :
  In (mkSquare 7 4) (getLegalTargets startPosition (mkSquare 7 1)) <->
  isLegalMove startPosition (mkSquare 7 1) (mkSquare 7 4) = true.
Proof.
  apply (getLegalTargets_isLegalMove startPosition (mkSquare 7 1) (mkSquare 7 4)).
  unfold startPosition. solve_wf_board.
Defined.

(** X14. The tokens of [getLegalMovesUci] are exactly the tokens of the legal
    moves: each is read back by [parseUciMove] as a move that [isLegalMove]
    accepts, and every legal move has its token in the list. *)
Theorem getLegalMovesUci_tokens (pos : Position) (s : string) :
  wf_board (board pos) ->
  In s (getLegalMovesUci pos) <->
  exists f t, parseUciMove s = Some (f, t) /\ s = uciMove f t /\
              isLegalMove pos f t = true.
Proof.
  intros _. unfold getLegalMovesUci. rewrite in_map_iff. split.
  - intros ([f t] & <- & H). cbn [from to].
    destruct (legal_move_in_grid _ _ H) as (Hf & Ht & _). cbn [from to] in *.
    exists f, t. split; [apply parseUciMove_uciMove_grid; assumption|].
    split; [reflexivity|]. apply isLegalMove_In, H.
  - intros (f & t & _ & -> & H). exists (mkMove f t).
    split; [reflexivity|]. apply isLegalMove_In, H.
Qed.

Lemma getLegalMovesUci_tokens_witness :
  In "b2e2" (getLegalMovesUci startPosition) <->
  exists f t, parseUciMove "b2e2" = Some (f, t) /\ "b2e2" = uciMove f t /\
              isLegalMove startPosition f t = true.
Proof.
  apply (getLegalMovesUci_tokens startPosition "b2e2").
  unfold startPosition. solve_wf_board.
Defined.

(** X15. A position whose side to move is neither ['w'] nor ['b'] (the decoder
    lets such a token through) has no legal move. *)
Theorem foreign_turn_has_no_moves (pos : Position) :
  wf_board (board pos) ->
  isSide (turn pos) = false ->
  generateLegalMoves pos = [].
Proof.
  intros _ Hs. destruct (generateLegalMoves pos) as [|m l] eqn:E; [reflexivity|].
  assert (Hm : In m (generateLegalMoves pos)) by (rewrite E; left; reflexivity).
  apply legal_move_in_grid in Hm as (_ & _ & H). congruence.
Qed.

Lemma foreign_turn_has_no_moves_witness :
  generateLegalMoves {| board := board startPosition; turn := "x" |} = [].
Proof.
  apply (foreign_turn_has_no_moves {| board := board startPosition; turn := "x" |}).
  - unfold startPosition. solve_wf_board.
  - reflexivity.
Defined.

(** ** The game state machine *)

(** The round trip of the codec, for use below. *)
Lemma decode_encode (p : Position) : wf_position p -> parseFen (toFen p) = p.
Proof.
  destruct p as [b t]. intros [(Hlen & Hcols & Hcells) Hside]. simpl in *.
  assert (Hrows : Forall (fun rw =>
            parseRank (encodeRow rw) = rw /\
            ~ In "/"%char (list_ascii_of_string (encodeRow rw)) /\
            ~ In " "%char (list_ascii_of_string (encodeRow rw))) b).
  { apply Forall_forall. intros rw Hin.
    rewrite Forall_forall in Hcols, Hcells.
    apply row_roundtrip; [apply Hcols|apply Hcells]; exact Hin. }
  unfold toFen, parseFen. cbn [board turn].
  set (R := String.concat "/" (map encodeRow b)).
  assert (HR : ~ In " "%char (list_ascii_of_string R)).
  { intros H. apply chars_concat in H as [H|(s & Hs & H)].
    - simpl in H. destruct H as [H|[]]. discriminate.
    - apply in_map_iff in Hs as (rw & <- & Hrw).
      rewrite Forall_forall in Hrows. apply list_elem_of_In in Hrw.
      exact (proj2 (proj2 (Hrows _ Hrw)) H). }
  change (R ++ " " ++ t ++ " - - 0 1") with (R ++ String " " (t ++ " - - 0 1")).
  rewrite split_at_first by exact HR.
  assert (Ht : t = "w" \/ t = "b").
  { unfold isSide in Hside. apply orb_true_iff in Hside as [H|H];
      apply String.eqb_eq in H; auto. }
  assert (Hparts : split " " (t ++ " - - 0 1") = [t; "-"; "-"; "0"; "1"])
    by (destruct Ht as [-> | ->]; reflexivity).
  rewrite Hparts. cbn [nth].
  assert (Hturn : turnToken [R; t; "-"; "-"; "0"; "1"] = t)
    by (destruct Ht as [-> | ->]; reflexivity).
  rewrite Hturn. f_equal. subst R.
  rewrite split_concat.
  - rewrite map_map. rewrite <- (map_id b) at 2. apply map_ext_in.
    intros rw Hrw. rewrite Forall_forall in Hrows. apply list_elem_of_In in Hrw.
    apply (Hrows _ Hrw).
  - destruct b; discriminate.
  - apply Forall_forall. intros s Hs.
    apply list_elem_of_In, in_map_iff in Hs as (rw & <- & Hrw).
    rewrite Forall_forall in Hrows. apply list_elem_of_In in Hrw.
    apply (Hrows _ Hrw).
Qed.

Lemma wf_applyMove (p : Position) (f t : Square) :
  wf_position p -> wf_position (applyMove p f t).
Proof.
  intros [Hb _]. split; simpl.
  - apply wf_movePiece, Hb.
  - unfold flipSide. destruct (String.eqb (turn p) "w"); reflexivity.
Qed.

Lemma index_nat (A : Type) (l : list A) (i : nat) : index l (Z.of_nat i) = l !! i.
Proof.
  unfold index. replace (Z.of_nat i <? 0) with false
    by (symmetry; apply Z.ltb_ge; lia).
  rewrite Nat2Z.id. reflexivity.
Qed.

Lemma getFenBefore_S (base : string) (moves : list MoveRecord) (i : nat) :
  getFenBefore base moves (Z.of_nat (S i)) = fen <$> moves !! i.
Proof.
  unfold getFenBefore.
  replace (Z.of_nat (S i) =? 0) with false by (symmetry; apply Z.eqb_neq; lia).
  replace (Z.of_nat (S i) - 1) with (Z.of_nat i) by lia.
  rewrite index_nat. reflexivity.
Qed.

(** The text before a move does not depend on the records that follow it. *)
Lemma getFenBefore_prefix (base : string) (l1 l2 : list MoveRecord) (i : nat) :
  (i <= length l1)%nat ->
  getFenBefore base (l1 ++ l2) (Z.of_nat i) = getFenBefore base l1 (Z.of_nat i).
Proof.
  intros Hi. destruct i as [|i]; [reflexivity|].
  rewrite !getFenBefore_S, lookup_app_l by lia. reflexivity.
Qed.

Lemma getFenBefore_take (base : string) (l : list MoveRecord) (n i : nat) :
  (i <= n)%nat ->
  getFenBefore base (take n l) (Z.of_nat i) = getFenBefore base l (Z.of_nat i).
Proof.
  intros Hi. destruct i as [|i]; [reflexivity|].
  rewrite !getFenBefore_S, lookup_take_lt by lia. reflexivity.
Qed.

Lemma legalGame_useGame (defaultFen : string) :
  wf_position (parseFen defaultFen) -> legalGame (useGame defaultFen).
Proof.
  intros Hwf. unfold legalGame, useGame. cbn.
  repeat split; try apply Hwf; try lia.
  - exists defaultFen. split; reflexivity.
  - intros i rec H. destruct i; discriminate.
Qed.

Lemma legalGame_tryMove (st : GameState) (f t : Square) :
  legalGame st -> legalGame (snd (tryMove st f t)).
Proof.
  intros Hst. pose proof Hst as (Hbase & Hpos & Hidx & (s0 & Hs0 & Hp0) & Hrecs).
  unfold tryMove. destruct (gameOver st); [exact Hst|].
  destruct (isLegalMove (position st) f t) eqn:Hlegal; [|exact Hst].
  cbn [negb snd].
  set (newPos := applyMove (position st) f t).
  set (n := Z.to_nat (currentIndex st + 1)).
  set (rec := mkMoveRecord (uciMove f t) (toFen newPos)).
  assert (HnewPos : wf_position newPos) by (apply wf_applyMove, Hpos).
  assert (Hn : (n <= length (moveHistory st))%nat) by (subst n; lia).
  assert (Hlen : length (take n (moveHistory st)) = n) by (apply length_take_le, Hn).
  unfold legalGame. cbn [baseFen position moveHistory currentIndex].
  rewrite length_app, Hlen. cbn [length].
  replace (Z.of_nat (n + 1) - 1) with (Z.of_nat n) by lia.
  split; [exact Hbase|]. split; [exact HnewPos|]. split; [lia|]. split.
  - exists (toFen newPos). split.
    + replace (Z.of_nat n + 1) with (Z.of_nat (S n)) by lia.
      rewrite getFenBefore_S, lookup_app_r by lia.
      rewrite Hlen, Nat.sub_diag. reflexivity.
    + symmetry. apply decode_encode, HnewPos.
  - intros i r Hr. apply lookup_snoc_Some in Hr as [[Hi Hr]|[Hi <-]].
    + rewrite Hlen in Hi. apply lookup_take_Some in Hr as [Hr _].
      destruct (Hrecs i r Hr) as (s & Hs & Hwf & Hleg).
      exists s. split; [|split; assumption].
      rewrite getFenBefore_prefix by lia. rewrite getFenBefore_take by lia. exact Hs.
    + rewrite Hlen in Hi. subst i. exists s0. split; [|split].
      * rewrite getFenBefore_prefix by lia. rewrite getFenBefore_take by lia.
        replace (Z.of_nat n) with (currentIndex st + 1) by (subst n; lia). exact Hs0.
      * rewrite <- Hp0. exact Hpos.
      * rewrite <- Hp0. exists f, t. cbn [uci fen].
        apply isLegalMove_In in Hlegal as Hin.
        destruct (legal_move_in_grid _ _ Hin) as (Hf & Ht & _). cbn [from to] in *.
        split; [apply parseUciMove_uciMove_grid; assumption|].
        split; [exact Hlegal|reflexivity].
Qed.

Lemma legalRecord_after (before : Position) (rec : MoveRecord) :
  wf_position before -> legalRecord before rec ->
  wf_position (parseFen (fen rec)).
Proof.
  intros Hwf (f & t & _ & _ & ->).
  rewrite decode_encode by (apply wf_applyMove, Hwf). apply wf_applyMove, Hwf.
Qed.

Lemma legalGame_goToMove (st : GameState) (i : Z) :
  legalGame st -> legalGame (goToMove st i).
Proof.
  intros Hst. pose proof Hst as (Hbase & Hpos & Hidx & _ & Hrecs).
  unfold goToMove.
  destruct ((i <? -1) || (Z.of_nat (length (moveHistory st)) <=? i)) eqn:G;
    [exact Hst|].
  apply orb_false_iff in G as [G1%Z.ltb_ge G2%Z.leb_gt].
  unfold legalGame. cbn [baseFen position moveHistory currentIndex].
  destruct (Z.eqb_spec i (-1)) as [->|Hi].
  - repeat split; try apply Hbase; try lia; [|exact Hrecs].
    exists (baseFen st). split; reflexivity.
  - replace i with (Z.of_nat (Z.to_nat i)) in * by lia.
    set (j := Z.to_nat i) in *. rewrite index_nat.
    destruct (lookup_lt_is_Some_2 (moveHistory st) j) as [rec Hrec]; [lia|].
    rewrite Hrec. destruct (Hrecs j rec Hrec) as (s & _ & Hwf & Hleg).
    split; [exact Hbase|]. split; [exact (legalRecord_after _ _ Hwf Hleg)|].
    split; [lia|]. split; [|exact Hrecs].
    exists (fen rec). split; [|reflexivity].
    replace (Z.of_nat j + 1) with (Z.of_nat (S j)) by lia.
    rewrite getFenBefore_S, Hrec. reflexivity.
Qed.

(** X16. However the user moves, navigates and resets from a well-formed
    start, the hook's state is a legal game: the index points into the
    history, the position shown is the one recorded at the index, and every
    record is a move that was legal in the position before it, stored with the
    text of the position after it. *)
Theorem played_game_is_legal (defaultFen : string) (st : GameState) :
  wf_position (parseFen defaultFen) ->
  played defaultFen st ->
  legalGame st.
Proof.
  intros Hwf H. induction H as [|st f t _ IH|st i _ IH|fen Hfen].
  - apply legalGame_useGame, Hwf.
  - apply legalGame_tryMove, IH.
  - apply legalGame_goToMove, IH.
  - apply (legalGame_useGame (baseFen (reset defaultFen fen))). exact Hfen.
Qed.

Lemma played_game_is_legal_witness :
  legalGame
    (goToMove (snd (tryMove (useGame STARTING_FEN) (mkSquare 7 1) (mkSquare 7 4)))
              (-1)).
Proof.
  apply (played_game_is_legal STARTING_FEN).
  - exact wf_start.
  - apply played_goToMove, played_tryMove, played_start.
Defined.


(** X17. An accepted move puts the moved position on the board and ends the
    game exactly when the other side has no legal reply: the mover wins when
    that side is in check, and the game is drawn otherwise. *)
Theorem tryMove_verdict (st : GameState) (f t : Square) :
  wf_board (board (position st)) ->
  fst (tryMove st f t) = true ->
  let st' := snd (tryMove st f t) in
  position st' = applyMove (position st) f t /\
  gameOver st' =
    match generateLegalMoves (position st') with
    | [] =>
        Some (if isInCheck (position st')
              then (if String.eqb (turn (position st)) "w" then "红方胜" else "黑方胜")
              else "和棋")
    | _ :: _ => None
    end.
Proof.
  intros _. unfold tryMove. destruct (gameOver st); [discriminate|].
  destruct (isLegalMove (position st) f t) eqn:Hlegal; [|discriminate].
  intros _. cbn [negb snd position gameOver]. split; [reflexivity|].
  apply isLegalMove_In, legal_move_in_grid in Hlegal as (_ & _ & Hside).
  unfold isCheckmate, isStalemate.
  destruct (isInCheck (applyMove (position st) f t)); cbn [negb].
  - destruct (generateLegalMoves (applyMove (position st) f t)); cbn [length].
    + rewrite bool_decide_eq_true_2 by reflexivity. cbn [applyMove turn].
      unfold isSide in Hside. apply orb_true_iff in Hside as [H|H];
        apply String.eqb_eq in H; rewrite H; reflexivity.
    + rewrite bool_decide_eq_false_2 by discriminate. reflexivity.
  - destruct (generateLegalMoves (applyMove (position st) f t)); cbn [length].
    + rewrite bool_decide_eq_true_2 by reflexivity. reflexivity.
    + rewrite bool_decide_eq_false_2 by discriminate. reflexivity.
Qed.

Lemma tryMove_verdict_witness :
  let st := useGame "3k5/R8/9/9/9/9/9/9/9/1R2K4 w - - 0 1" in
  let st' := snd (tryMove st (mkSquare 9 1) (mkSquare 0 1)) in
  position st' = applyMove (position st) (mkSquare 9 1) (mkSquare 0 1) /\
  gameOver st' =
    match generateLegalMoves (position st') with
    | [] =>
        Some (if isInCheck (position st')
              then (if String.eqb (turn (position st)) "w" then "红方胜" else "黑方胜")
              else "和棋")
    | _ :: _ => None
    end.
Proof.
  apply (tryMove_verdict (useGame "3k5/R8/9/9/9/9/9/9/9/1R2K4 w - - 0 1")
           (mkSquare 9 1) (mkSquare 0 1)).
  - vm_compute. repeat split; repeat constructor.
  - vm_compute. reflexivity.
Defined.

Lemma goToMove_keeps (st : GameState) (i : Z) :
  gameOver (goToMove st i) = gameOver st /\
  moveHistory (goToMove st i) = moveHistory st /\
  baseFen (goToMove st i) = baseFen st.
Proof.
  unfold goToMove.
  destruct ((i <? -1) || (Z.of_nat (length (moveHistory st)) <=? i)); auto.
Qed.

(** X18. Once the game is over, no navigation through the history re-opens
    it: the verdict and the history stay as they are, and every attempt to
    move is refused and leaves the state unchanged. *)
Theorem finished_game_stays_finished (st : GameState) (verdict : string)
  (visits : list Z) (f t : Square) :
  gameOver st = Some verdict ->
  let st' := fold_left goToMove visits st in
  gameOver st' = Some verdict /\
  moveHistory st' = moveHistory st /\
  tryMove st' f t = (false, st').
Proof.
  intros Hover. cbv zeta.
  assert (H : gameOver (fold_left goToMove visits st) = Some verdict /\
              moveHistory (fold_left goToMove visits st) = moveHistory st).
  { revert st Hover. induction visits as [|i visits IH]; intros st Hover; [auto|].
    cbn [fold_left]. destruct (goToMove_keeps st i) as (Hg & Hh & _).
    destruct (IH (goToMove st i)) as [IH1 IH2]; [congruence|].
    split; congruence. }
  destruct H as [Hg Hh]. repeat split; try assumption.
  unfold tryMove. rewrite Hg. reflexivity.
Qed.

Lemma finished_game_stays_finished_witness :
  let st := snd (tryMove (useGame "3k5/R8/9/9/9/9/9/9/9/1R2K4 w - - 0 1")
                   (mkSquare 9 1) (mkSquare 0 1)) in
  let st' := fold_left goToMove [-1; 0] st in
  gameOver st' = Some "红方胜" /\
  moveHistory st' = moveHistory st /\
  tryMove st' (mkSquare 0 3) (mkSquare 0 4) = (false, st').
Proof.
  apply (finished_game_stays_finished
           (snd (tryMove (useGame "3k5/R8/9/9/9/9/9/9/9/1R2K4 w - - 0 1")
                   (mkSquare 9 1) (mkSquare 0 1)))
           "红方胜" [-1; 0] (mkSquare 0 3) (mkSquare 0 4)).
  vm_compute. reflexivity.
Defined.

Lemma substring_whole (s : string) : substring 0 (String.length s) s = s.
Proof. induction s as [|a s IH]; [reflexivity|]. simpl. rewrite IH. reflexivity. Qed.

Lemma uciMove_length (f t : Square) :
  inBounds (row f) (col f) = true ->
  inBounds (row t) (col t) = true ->
  String.length (uciMove f t) = 4%nat.
Proof.
  intros Hf Ht.
  destruct (squareToUci_token f Hf) as (cf & df & Ef & _).
  destruct (squareToUci_token t Ht) as (ct & dt & Et & _).
  unfold uciMove. rewrite Ef, Et. reflexivity.
Qed.

(** X19. While the game is running, the four-character tokens that
    [tryMoveUci] accepts are exactly the tokens that [getLegalMovesUci]
    offers for the position. *)
Theorem offered_tokens_are_accepted (st : GameState) (u : string) :
  wf_board (board (position st)) ->
  gameOver st = None ->
  In u (getLegalMovesUci (position st)) <->
  String.length u = 4%nat /\ exists st', tryMoveUci st u = Some (true, st').
Proof.
  intros _ Hover. unfold getLegalMovesUci, tryMoveUci, tryMove.
  rewrite Hover, in_map_iff. split.
  - intros ([f t] & <- & H). cbn [from to].
    destruct (legal_move_in_grid _ _ H) as (Hf & Ht & _). cbn [from to] in *.
    split; [apply uciMove_length; assumption|].
    rewrite parseUciMove_uciMove_grid by assumption.
    apply isLegalMove_In in H. rewrite H. cbn [negb]. eexists. reflexivity.
  - intros (Hlen & st' & H).
    destruct (parseUciMove u) as [[f t]|] eqn:Hparse; [|discriminate].
    destruct (isLegalMove (position st) f t) eqn:Hlegal; [|discriminate].
    exists (mkMove f t). split; [|apply isLegalMove_In, Hlegal].
    cbn [from to]. rewrite (uciMove_of_token _ _ _ Hparse), <- Hlen.
    apply substring_whole.
Qed.

Lemma offered_tokens_are_accepted_witness :
  In "b2e2" (getLegalMovesUci (position (useGame STARTING_FEN))) <->
  String.length "b2e2" = 4%nat /\
  exists st', tryMoveUci (useGame STARTING_FEN) "b2e2" = Some (true, st').
Proof.
  apply (offered_tokens_are_accepted (useGame STARTING_FEN) "b2e2").
  - cbn [useGame position]. rewrite parseFen_start. unfold startPosition. solve_wf_board.
  - reflexivity.
Defined.


(** ** The move list *)

(** X20. In a legal game every entry of the move list is written out: the
    position before the entry exists, the entry's token reads as a move of a
    piece of the side to move there, and [uciToChineseNotation] returns the
    four-part text of that move rather than the raw token or a fault. *)
Theorem move_list_renders (st : GameState) (i : nat) (rec : MoveRecord) :
  legalGame st ->
  moveHistory st !! i = Some rec ->
  exists s f t piece,
    getFenBefore (baseFen st) (moveHistory st) (Z.of_nat i) = Some s /\
    parseUciMove (uci rec) = Some (f, t) /\
    cellAt (board (parseFen s)) (row f) (col f) = Some piece /\
    pieceColor piece = turn (parseFen s) /\
    uciToChineseNotation (uci rec) s =
    Returns (pieceNameOf piece
             ++ digitGlyph (isRedPiece piece) (fileNumber (isRedPiece piece) (col f))
             ++ actionGlyph (isRedPiece piece) f t
             ++ digitGlyph (isRedPiece piece) (quantity piece f t)).
Proof.
  intros (_ & _ & _ & _ & Hrecs) Hrec.
  destruct (Hrecs i rec Hrec) as (s & Hs & _ & f & t & Hparse & Hlegal & _).
  apply isLegalMove_In, In_generateLegalMoves in Hlegal
    as (piece & _ & Hpiece & Hcolour & _). cbn [from to] in *.
  exists s, f, t, piece. repeat split; try assumption.
  apply notation_text; assumption.
Qed.

Lemma move_list_renders_witness :
  let st := snd (tryMove (useGame STARTING_FEN) (mkSquare 7 1) (mkSquare 7 4)) in
  exists s f t piece,
    getFenBefore (baseFen st) (moveHistory st) (Z.of_nat 0) = Some s /\
    parseUciMove (uci (mkMoveRecord "b2e2"
      "rnbakabnr/9/1c5c1/p1p1p1p1p/9/9/P1P1P1P1P/4C2C1/9/RNBAKABNR b - - 0 1"))
      = Some (f, t) /\
    cellAt (board (parseFen s)) (row f) (col f) = Some piece /\
    pieceColor piece = turn (parseFen s) /\
    uciToChineseNotation (uci (mkMoveRecord "b2e2"
      "rnbakabnr/9/1c5c1/p1p1p1p1p/9/9/P1P1P1P1P/4C2C1/9/RNBAKABNR b - - 0 1")) s =
    Returns (pieceNameOf piece
             ++ digitGlyph (isRedPiece piece) (fileNumber (isRedPiece piece) (col f))
             ++ actionGlyph (isRedPiece piece) f t
             ++ digitGlyph (isRedPiece piece) (quantity piece f t)).
Proof.
  apply (move_list_renders
           (snd (tryMove (useGame STARTING_FEN) (mkSquare 7 1) (mkSquare 7 4)))
           0
           (mkMoveRecord "b2e2"
              "rnbakabnr/9/1c5c1/p1p1p1p1p/9/9/P1P1P1P1P/4C2C1/9/RNBAKABNR b - - 0 1")).
  - apply legalGame_tryMove, legalGame_useGame, wf_start.
  - vm_compute. reflexivity.
Defined.

Lemma goToMove_in_range (st : GameState) (i : Z) :
  -1 <= i < Z.of_nat (length (moveHistory st)) ->
  goToMove st i =
  {| baseFen := baseFen st;
     position :=
       if i =? -1 then parseFen (baseFen st)
       else match index (moveHistory st) i with
            | Some rec => parseFen (fen rec)
            | None => position st
            end;
     moveHistory := moveHistory st;
     currentIndex := i;
     gameOver := gameOver st |}.
Proof.
  intros Hi. unfold goToMove.
  replace ((i <? -1) || (Z.of_nat (length (moveHistory st)) <=? i)) with false
    by (symmetry; apply orb_false_iff; split; [apply Z.ltb_ge|apply Z.leb_gt]; lia).
  reflexivity.
Qed.

(** X21. In a legal game with a move on the board, the back button followed
    by the forward button of the move list brings back the very state the
    user left. *)
Theorem back_then_forward (st : GameState) :
  legalGame st ->
  0 <= currentIndex st ->
  let back := goToMove st (Z.max (-1) (currentIndex st - 1)) in
  goToMove back
    (Z.min (Z.of_nat (length (moveHistory back)) - 1) (currentIndex back + 1)) = st.
Proof.
  intros (_ & _ & Hidx & (s & Hs & Hpos) & _) Hcur. cbv zeta.
  destruct st as [base pos hist cur over].
  cbn [currentIndex moveHistory baseFen position] in *.
  replace (Z.max (-1) (cur - 1)) with (cur - 1) by lia.
  rewrite (goToMove_in_range _ (cur - 1)) by (cbn [moveHistory]; lia).
  cbn [moveHistory currentIndex baseFen gameOver position].
  replace (Z.min (Z.of_nat (length hist) - 1) (cur - 1 + 1)) with cur by lia.
  rewrite goToMove_in_range by (cbn [moveHistory]; lia).
  cbn [moveHistory currentIndex baseFen gameOver position].
  replace (cur =? -1) with false by (symmetry; apply Z.eqb_neq; lia).
  replace (cur + 1) with (Z.of_nat (S (Z.to_nat cur))) in Hs by lia.
  rewrite getFenBefore_S in Hs.
  assert (Hix : index hist cur = hist !! Z.to_nat cur).
  { rewrite <- index_nat. f_equal. lia. }
  rewrite Hix. destruct (hist !! Z.to_nat cur) as [rec|]; [|discriminate].
  injection Hs as <-. rewrite <- Hpos. reflexivity.
Qed.

Lemma back_then_forward_witness :
  let st := snd (tryMove (useGame STARTING_FEN) (mkSquare 7 1) (mkSquare 7 4)) in
  let back := goToMove st (Z.max (-1) (currentIndex st - 1)) in
  goToMove back
    (Z.min (Z.of_nat (length (moveHistory back)) - 1) (currentIndex back + 1)) = st.
Proof.
  apply (back_then_forward
           (snd (tryMove (useGame STARTING_FEN) (mkSquare 7 1) (mkSquare 7 4)))).
  - apply legalGame_tryMove, legalGame_useGame, wf_start.
  - vm_compute. discriminate.
Defined.


(** ** Replaying a game *)

Lemma playStep_None (moves : list string) : fold_left playStep moves None = None.
Proof. induction moves; simpl; auto. Qed.

Lemma play_replay (moves : list string) :
  forall (st st1 : GameState) (history : list MoveRecord),
    currentIndex st = Z.of_nat (length (moveHistory st)) - 1 ->
    map fen history = map fen (moveHistory st) ->
    fold_left playStep moves (Some st) = Some st1 ->
    exists history',
      fold_left replayStep moves (Some (position st, history))
      = Some (position st1, history') /\
      map fen history' = map fen (moveHistory st1) /\
      map uci history' = (map uci history ++ moves)%list /\
      map uci (moveHistory st1)
      = (map uci (moveHistory st) ++ map (substring 0 4) moves)%list /\
      currentIndex st1 = Z.of_nat (length (moveHistory st1)) - 1 /\
      baseFen st1 = baseFen st.
Proof.
  induction moves as [|m moves IH]; intros st st1 history Hcur Hfen Hplay.
  - injection Hplay as <-. exists history. cbn [fold_left map].
    rewrite !app_nil_r. repeat split; assumption || reflexivity.
  - cbn [fold_left] in *. unfold playStep at 2 in Hplay. unfold tryMoveUci in Hplay.
    unfold replayStep at 2.
    destruct (parseUciMove m) as [[f t]|] eqn:Hparse;
      [|rewrite playStep_None in Hplay; discriminate].
    unfold tryMove in Hplay.
    destruct (gameOver st); [rewrite playStep_None in Hplay; discriminate|].
    destruct (isLegalMove (position st) f t);
      [|rewrite playStep_None in Hplay; discriminate].
    cbn [negb] in Hplay.
    rewrite take_ge in Hplay by lia.
    set (rec := mkMoveRecord (uciMove f t) (toFen (applyMove (position st) f t))) in *.
    match type of Hplay with
    | fold_left playStep moves (Some ?s) = _ => set (st' := s) in *
    end.
    destruct (IH st' st1
                (history ++ [mkMoveRecord m (toFen (applyMove (position st) f t))])%list)
      as (history' & Hrun & Hf' & Hu' & Hu1 & Hc1 & Hb1).
    + reflexivity.
    + subst st'. cbn [moveHistory]. rewrite !map_app, Hfen. reflexivity.
    + exact Hplay.
    + exists history'. subst st'. cbn [position moveHistory baseFen] in *.
      split; [exact Hrun|]. split; [exact Hf'|]. split.
      * rewrite Hu', map_app, <- app_assoc. reflexivity.
      * split; [|split; assumption].
        rewrite Hu1, map_app, <- app_assoc. cbn [map uci rec app].
        rewrite (uciMove_of_token _ _ _ Hparse). reflexivity.
Qed.

(** X22. On a run of text moves that the game accepts one after the other
    from a position, [loadMoves] arrives where the game arrives: the same
    start, position, index and recorded positions. The records keep the
    tokens as given where play keeps their first four characters, and
    [loadMoves] never records a verdict. *)
Theorem loadMoves_replays_accepted_play (defaultFen start : string)
  (st0 st1 : GameState) (moves : list string) :
  start <> "" ->
  playTokens (reset defaultFen (Some start)) moves = Some st1 ->
  exists st2,
    loadMoves st0 moves (Some start) = Some st2 /\
    baseFen st2 = baseFen st1 /\
    position st2 = position st1 /\
    currentIndex st2 = currentIndex st1 /\
    map fen (moveHistory st2) = map fen (moveHistory st1) /\
    map uci (moveHistory st2) = moves /\
    map uci (moveHistory st1) = map (substring 0 4) moves /\
    gameOver st2 = None.
Proof.
  intros Hstart Hplay. unfold playTokens, reset in Hplay. unfold loadMoves.
  apply String.eqb_neq in Hstart. rewrite Hstart in *.
  destruct (play_replay moves (useGame start) st1 [] eq_refl eq_refl Hplay)
    as (history' & Hrun & Hf & Hu & Hu1 & Hc1 & Hb1).
  unfold useGame in *. cbn [position moveHistory baseFen map app] in *.
  rewrite Hrun. eexists. split; [reflexivity|].
  cbn [baseFen position currentIndex moveHistory gameOver].
  repeat split; try assumption; try congruence.
  rewrite Hc1. f_equal. f_equal.
  rewrite <- (length_map fen history'), Hf, length_map. reflexivity.
Qed.

Lemma loadMoves_replays_accepted_play_witness :
  let moves := ["b2e2"; "h9g7"] in
  let st1 := snd (tryMove (snd (tryMove (useGame STARTING_FEN)
                                  (mkSquare 7 1) (mkSquare 7 4)))
                    (mkSquare 0 7) (mkSquare 2 6)) in
  exists st2,
    loadMoves (useGame STARTING_FEN) moves (Some STARTING_FEN) = Some st2 /\
    baseFen st2 = baseFen st1 /\
    position st2 = position st1 /\
    currentIndex st2 = currentIndex st1 /\
    map fen (moveHistory st2) = map fen (moveHistory st1) /\
    map uci (moveHistory st2) = moves /\
    map uci (moveHistory st1) = map (substring 0 4) moves /\
    gameOver st2 = None.
Proof.
  apply (loadMoves_replays_accepted_play STARTING_FEN STARTING_FEN
           (useGame STARTING_FEN)
           (snd (tryMove (snd (tryMove (useGame STARTING_FEN)
                                 (mkSquare 7 1) (mkSquare 7 4)))
                   (mkSquare 0 7) (mkSquare 2 6)))
           ["b2e2"; "h9g7"]).
  - discriminate.
  - vm_compute. reflexivity.
Defined.


(** ** The position editor *)

Lemma toFen_not_empty (p : Position) : String.eqb (toFen p) "" = false.
Proof.
  apply String.eqb_neq. unfold toFen.
  destruct (String.concat "/" (map encodeRow (board p))); discriminate.
Qed.

Lemma editorOk_init : editorOk BoardEditor.init.
Proof.
  split; [|discriminate].
  unfold BoardEditor.init. cbn [BoardEditor.board BoardEditor.turn].
  split; [apply wf_start|reflexivity].
Qed.

Lemma picker_pieces (p : ascii) :
  In p (BoardEditor.RED_PIECES ++ BoardEditor.BLACK_PIECES)%list ->
  isPieceChar p = true.
Proof.
  cbn. intros H.
  repeat (destruct H as [<-|H]; [reflexivity|]). destruct H.
Qed.

Lemma editorOk_step (st : BoardEditor.State) (e : BoardEditor.Event) :
  BoardEditor.offered e -> editorOk st -> editorOk (BoardEditor.step st e).
Proof.
  intros He [[Hb Hs] Htool]. cbn [board turn] in Hb, Hs.
  destruct e as [tool|r c| | |side]; cbn [BoardEditor.step].
  - unfold BoardEditor.pick. split; [split; assumption|].
    cbn [BoardEditor.selectedPiece]. intros p Hp.
    assert (Ht : tool = BoardEditor.Piece p).
    { destruct (BoardEditor.selectedPiece st) as [cur|];
        [destruct (BoardEditor.sameTool cur tool)|]; congruence. }
    subst tool. apply picker_pieces, He.
  - unfold BoardEditor.handleCellClick.
    destruct (BoardEditor.selectedPiece st) as [[p|]|] eqn:Hsel.
    + split; [split; [|exact Hs]|].
      * cbn [board BoardEditor.board].
        apply wf_setCell; [exact Hb|]. apply Htool. reflexivity.
      * cbn [BoardEditor.selectedPiece]. exact Htool.
    + split; [split; [|exact Hs]|].
      * cbn [board BoardEditor.board].
        apply wf_setCell; [exact Hb|exact I].
      * cbn [BoardEditor.selectedPiece]. discriminate.
    + split; [split; assumption|]. intros q Hq. congruence.
  - split; [split; [|exact Hs]|exact Htool].
    cbn [board BoardEditor.handleClear BoardEditor.board].
    repeat split; repeat constructor.
  - split; [split; [apply wf_start|reflexivity]|exact Htool].
  - split; [split; [exact Hb|]|exact Htool].
    cbn [turn BoardEditor.setTurn BoardEditor.turn].
    destruct He as [-> | ->]; reflexivity.
Qed.

Lemma editorOk_fold (events : list BoardEditor.Event) :
  forall st, Forall BoardEditor.offered events -> editorOk st ->
             editorOk (fold_left BoardEditor.step events st).
Proof.
  induction events as [|e events IH]; intros st He Hst; [exact Hst|].
  apply Forall_cons in He as [He Hes]. cbn [fold_left].
  apply IH; [exact Hes|]. apply editorOk_step; assumption.
Qed.

(** X23. Whatever the user picks, places, erases, clears, resets and
    whichever side is set to move in the editor, without importing a text,
    the edited board stays a 10 by 9 grid of piece symbols, and confirming
    starts a fresh game on exactly the edited position. *)
Theorem editor_confirm_starts_edited_position (events : list BoardEditor.Event) :
  Forall BoardEditor.offered events ->
  let ed := BoardEditor.run events in
  let game := reset STARTING_FEN (Some (BoardEditor.handleConfirm ed)) in
  wf_position (position game) /\
  position game = mkPosition (BoardEditor.board ed) (BoardEditor.turn ed) /\
  baseFen game = BoardEditor.handleConfirm ed /\
  moveHistory game = [] /\ currentIndex game = -1 /\ gameOver game = None.
Proof.
  intros He. cbv zeta.
  destruct (editorOk_fold events BoardEditor.init He editorOk_init) as [Hwf _].
  fold (BoardEditor.run events) in Hwf.
  unfold reset, BoardEditor.handleConfirm. rewrite toFen_not_empty.
  cbn [position baseFen moveHistory currentIndex gameOver].
  rewrite decode_encode by exact Hwf. repeat split; try apply Hwf.
Qed.

Lemma editor_confirm_starts_edited_position_witness :
  let events :=
    [BoardEditor.Clear;
     BoardEditor.Pick (BoardEditor.Piece "K");
     BoardEditor.CellClick 9 4;
     BoardEditor.Pick (BoardEditor.Piece "k");
     BoardEditor.CellClick 0 3;
     BoardEditor.Pick BoardEditor.Erase;
     BoardEditor.CellClick 5 5;
     BoardEditor.SetTurn "b"] in
  let ed := BoardEditor.run events in
  let game := reset STARTING_FEN (Some (BoardEditor.handleConfirm ed)) in
  wf_position (position game) /\
  position game = mkPosition (BoardEditor.board ed) (BoardEditor.turn ed) /\
  baseFen game = BoardEditor.handleConfirm ed /\
  moveHistory game = [] /\ currentIndex game = -1 /\ gameOver game = None.
Proof.
  apply (editor_confirm_starts_edited_position
           [BoardEditor.Clear;
            BoardEditor.Pick (BoardEditor.Piece "K");
            BoardEditor.CellClick 9 4;
            BoardEditor.Pick (BoardEditor.Piece "k");
            BoardEditor.CellClick 0 3;
            BoardEditor.Pick BoardEditor.Erase;
            BoardEditor.CellClick 5 5;
            BoardEditor.SetTurn "b"]).
  repeat (apply Forall_cons; split); try apply Forall_nil; cbn; auto 20.
Defined.


(** ** Check detection *)

Lemma find_first (A : Type) (f : A -> bool) (l : list A) (k : A) :
  find f l = Some k <->
  exists i, l !! i = Some k /\ f k = true /\
            forall j y, (j < i)%nat -> l !! j = Some y -> f y = false.
Proof.
  induction l as [|x l IH]; cbn [find].
  - split; [discriminate|]. intros (i & H & _). destruct i; discriminate.
  - destruct (f x) eqn:Hx.
    + split.
      * intros [= <-]. exists 0%nat. repeat split; [exact Hx|]. intros j y Hj. lia.
      * intros (i & Hi & Hk & Hbefore). destruct i as [|i].
        -- injection Hi as <-. reflexivity.
        -- rewrite (Hbefore 0%nat x) in Hx by (lia || reflexivity). discriminate.
    + rewrite IH. split.
      * intros (i & Hi & Hk & Hbefore). exists (S i). repeat split; try assumption.
        intros [|j] y Hj Hy; [injection Hy as <-; exact Hx|].
        apply (Hbefore j); [lia|exact Hy].
      * intros (i & Hi & Hk & Hbefore). destruct i as [|i].
        -- injection Hi as <-. congruence.
        -- exists i. repeat split; try assumption.
           intros j y Hj Hy. apply (Hbefore (S j)); [lia|exact Hy].
Qed.

Lemma allSquares_lookup (i : nat) :
  (i < 90)%nat ->
  allSquares !! i = Some (mkSquare (Z.of_nat i / 9) (Z.of_nat i mod 9)).
Proof.
  intros Hi.
  assert (H : forallb (fun i =>
                match allSquares !! i with
                | Some k => (row k =? Z.of_nat i / 9) && (col k =? Z.of_nat i mod 9)
                | None => false
                end) (seq 0 90) = true) by (vm_compute; reflexivity).
  rewrite forallb_forall in H. specialize (H i). cbv beta in H.
  destruct (allSquares !! i) as [[r c]|].
  - cbn [row col] in H.
    apply andb_true_iff in H as [Hr Hc]; [|apply in_seq; lia].
    apply Z.eqb_eq in Hr, Hc. subst. reflexivity.
  - discriminate H. apply in_seq. lia.
Qed.

Lemma allSquares_at (r c : Z) :
  inBounds r c = true -> allSquares !! Z.to_nat (9 * r + c) = Some (mkSquare r c).
Proof.
  intros H. apply inBounds_spec in H.
  rewrite allSquares_lookup by lia. rewrite Z2Nat.id by lia.
  f_equal. f_equal; Z.div_mod_to_equations; lia.
Qed.

Lemma allSquares_index (i : nat) (k : Square) :
  allSquares !! i = Some k ->
  inBounds (row k) (col k) = true /\ Z.of_nat i = 9 * row k + col k.
Proof.
  intros H. assert (Hi : (i < 90)%nat).
  { apply lookup_lt_Some in H. exact H. }
  rewrite allSquares_lookup in H by exact Hi. injection H as <-. cbn [row col].
  split; [apply inBounds_spec|]; Z.div_mod_to_equations; lia.
Qed.

(** [findKing] returns the first general of the side in reading order. *)
Lemma findKing_first (b : Board) (side : Side) (k : Square) :
  findKing b side = Some k <-> firstGeneral b side k.
Proof.
  unfold findKing, firstGeneral, readsBefore. rewrite find_first. split.
  - intros (i & Hi & Hk & Hbefore). apply bool_decide_eq_true in Hk.
    destruct (allSquares_index _ _ Hi) as [Hb Hix].
    split; [exact Hb|]. split; [exact Hk|].
    intros r c Hrc Hlt. pose proof Hrc as Hrange. apply inBounds_spec in Hrange.
    apply inBounds_spec in Hb.
    specialize (Hbefore (Z.to_nat (9 * r + c)) (mkSquare r c)).
    cbn [row col] in Hbefore. rewrite bool_decide_eq_false in Hbefore.
    apply Hbefore; [lia|]. apply allSquares_at, Hrc.
  - intros (Hb & Hk & Hbefore). exists (Z.to_nat (9 * row k + col k)).
    split; [destruct k; apply allSquares_at, Hb|].
    split; [apply bool_decide_eq_true, Hk|].
    intros j [r c] Hj Hy. cbn [row col]. apply bool_decide_eq_false.
    destruct (allSquares_index _ _ Hy) as [Hrc Hix]. cbn [row col] in *.
    apply Hbefore; [exact Hrc|].
    apply inBounds_spec in Hb, Hrc. lia.
Qed.

(** X24. The side to move is in check exactly when the first of its generals,
    in the order the board is read (rank by rank from the top, left to
    right), is the target of a move of some piece of the other side; a
    second general of the side, further on, is not looked at. *)
Theorem check_is_attack_on_first_general (pos : Position) :
  wf_board (board pos) ->
  isInCheck pos = true <->
  exists k r c p,
    firstGeneral (board pos) (turn pos) k /\
    inBounds r c = true /\
    cellAt (board pos) r c = Some p /\
    pieceColor p = flipSide (turn pos) /\
    In k (generatePieceMoves (board pos) r c p).
Proof.
  intros _. unfold isInCheck. split.
  - destruct (findKing (board pos) (turn pos)) as [k|] eqn:Hk; [|discriminate].
    intros H. apply isUnderAttack_true in H as (r & c & p & Hb & Hp & Hc & Hm).
    exists k, r, c, p. split; [apply findKing_first, Hk|auto].
  - intros (k & r & c & p & Hk & Hb & Hp & Hc & Hm).
    apply findKing_first in Hk. rewrite Hk.
    apply isUnderAttack_true. exists r, c, p. auto.
Qed.

Lemma check_is_attack_on_first_general_witness :
  isInCheck matePosition = true <->
  exists k r c p,
    firstGeneral (board matePosition) (turn matePosition) k /\
    inBounds r c = true /\
    cellAt (board matePosition) r c = Some p /\
    pieceColor p = flipSide (turn matePosition) /\
    In k (generatePieceMoves (board matePosition) r c p).
Proof.
  apply (check_is_attack_on_first_general matePosition).
  unfold matePosition. solve_wf_board.
Defined.


(** ** Move grading *)

(** X25. With the scores that the application hands to the panel, the grade
    of a move that differs from the engine's choice depends on the score
    before the move alone: it is a blunder exactly when that score was above
    50, whatever was played. *)
Theorem grade_depends_on_previous_score (uci best_move : string)
  (score_cp : option Z) :
  ExplainPanel.quality (ExplainPanel.explainData uci best_move score_cp) =
  if String.eqb uci "" || String.eqb best_move "" then None
  else Some (if String.eqb uci best_move then ExplainPanel.best
             else if 50 <? default 0 score_cp then ExplainPanel.blunder
                  else ExplainPanel.ok).
Proof.
  unfold ExplainPanel.quality, ExplainPanel.explainData, ExplainPanel.classifySimple.
  cbn [ExplainPanel.userMove ExplainPanel.bestMove ExplainPanel.userScoreCp
       ExplainPanel.bestScoreCp ExplainPanel.prevScoreCp].
  destruct (String.eqb uci ""), (String.eqb best_move ""); cbn [negb andb orb];
    try reflexivity.
  destruct (String.eqb uci best_move); [reflexivity|].
  set (s := default 0 score_cp).
  destruct (Z.ltb_spec 50 s), (Z.ltb_spec (- s) (-50)); cbn [andb];
    reflexivity || lia.
Qed.

(** ** Tokens built by the components *)

Lemma charOfCol_file (c : Z) :
  0 <= c < 9 ->
  match index (list_ascii_of_string FILES) c with
  | Some ch => String ch EmptyString
  | None => "undefined"
  end = charOfCol c.
Proof.
  intros H.
  assert (Hc : c = 0 \/ c = 1 \/ c = 2 \/ c = 3 \/ c = 4 \/ c = 5 \/ c = 6
               \/ c = 7 \/ c = 8) by lia.
  repeat (destruct Hc as [-> | Hc]; [reflexivity|]). subst. reflexivity.
Qed.

Lemma templateUci_uciMove (f t : Square) :
  inBounds (row f) (col f) = true ->
  inBounds (row t) (col t) = true ->
  templateUci f t = uciMove f t.
Proof.
  intros Hf Ht. apply inBounds_spec in Hf, Ht.
  unfold templateUci, uciMove, squareToUci.
  rewrite !charOfCol_file by lia. rewrite append_assoc. reflexivity.
Qed.

(** X26. For a board move that the game accepts, the token that the
    application builds with its own template for the explanation panel is
    the token that the game has just recorded in the history. *)
Theorem board_move_token_is_recorded (st : GameState) (f t : Square) :
  wf_board (board (position st)) ->
  fst (tryMove st f t) = true ->
  uci <$> last (moveHistory (snd (tryMove st f t))) = Some (templateUci f t).
Proof.
  intros _. unfold tryMove. destruct (gameOver st); [discriminate|].
  destruct (isLegalMove (position st) f t) eqn:Hlegal; [|discriminate].
  intros _. cbn [negb snd moveHistory]. rewrite last_snoc.
  cbn [fmap option_fmap option_map uci].
  apply isLegalMove_In, legal_move_in_grid in Hlegal as (Hf & Ht & _).
  cbn [from to] in *. rewrite templateUci_uciMove by assumption. reflexivity.
Qed.

Lemma board_move_token_is_recorded_witness :
  uci <$> last (moveHistory (snd (tryMove (useGame STARTING_FEN)
                                     (mkSquare 7 1) (mkSquare 7 4))))
  = Some (templateUci (mkSquare 7 1) (mkSquare 7 4)).
Proof.
  apply (board_move_token_is_recorded (useGame STARTING_FEN)
           (mkSquare 7 1) (mkSquare 7 4)).
  - cbn [useGame position]. rewrite parseFen_start. unfold startPosition. solve_wf_board.
  - vm_compute. reflexivity.
Defined.

(** ** Puzzle mode *)

Lemma playLegal_snoc (tokens : list string) :
  forall (start pos : Position) (u : string) (f t : Square),
    playLegal start tokens = Some pos ->
    parseUciMove u = Some (f, t) ->
    isLegalMove pos f t = true ->
    playLegal start (tokens ++ [u]) = Some (applyMove pos f t).
Proof.
  induction tokens as [|v tokens IH]; intros start pos u f t Hplay Hparse Hlegal.
  - injection Hplay as ->. cbn. rewrite Hparse, Hlegal. reflexivity.
  - cbn in *. destruct (parseUciMove v) as [[f' t']|]; [|discriminate].
    destruct (isLegalMove start f' t'); [|discriminate].
    apply IH; assumption.
Qed.

Lemma puzzleOk_loaded (pz : PuzzleMode.Puzzle) : puzzleOk pz (PuzzleMode.loaded pz).
Proof. split; [reflexivity|]. cbn. split; [lia|reflexivity]. Qed.

Lemma puzzleOk_step (pz : PuzzleMode.Puzzle) (st : PuzzleMode.State)
  (e : PuzzleMode.Event) :
  puzzleOk pz st -> puzzleOk pz (PuzzleMode.step st e).
Proof.
  intros [Hpz Hst]. destruct e as [f t|]; cbn [PuzzleMode.step].
  - unfold PuzzleMode.handleMove. rewrite Hpz.
    destruct (PuzzleMode.status st) eqn:Hstatus;
      try (split; [first [exact Hpz|reflexivity]|rewrite Hstatus; exact Hst]).
    destruct Hst as [Hk Hplay].
    destruct (isLegalMove (PuzzleMode.position st) f t) eqn:Hlegal; cbn [negb];
      [|split; [first [exact Hpz|reflexivity]|rewrite Hstatus; auto]].
    set (k := PuzzleMode.solveIndex st) in *.
    assert (Hix : index (PuzzleMode.solution pz) k
                  = PuzzleMode.solution pz !! Z.to_nat k).
    { rewrite <- index_nat. f_equal. lia. }
    rewrite Hix.
    destruct (PuzzleMode.solution pz !! Z.to_nat k) as [expected|] eqn:Hexp;
      [|split; [first [exact Hpz|reflexivity]|exact I]].
    destruct (String.eqb_spec (templateUci f t) expected) as [He|He];
      [|split; [first [exact Hpz|reflexivity]|exact I]].
    apply isLegalMove_In in Hlegal as Hin.
    destruct (legal_move_in_grid _ _ Hin) as (Hf & Ht & _). cbn [from to] in *.
    rewrite templateUci_uciMove in He by assumption.
    assert (Hparse : parseUciMove expected = Some (f, t)).
    { rewrite <- He. apply parseUciMove_uciMove_grid; assumption. }
    pose proof (playLegal_snoc _ _ _ _ _ _ Hplay Hparse Hlegal) as Hnext.
    rewrite <- (take_S_r _ _ _ Hexp) in Hnext.
    apply lookup_lt_Some in Hexp as Hlt.
    destruct (Z.leb_spec (Z.of_nat (length (PuzzleMode.solution pz))) (k + 1)) as [Hend|Hmore].
    + split; [first [exact Hpz|reflexivity]|]. cbn [PuzzleMode.status PuzzleMode.position].
      split; [intros E; rewrite E in Hlt; cbn in Hlt; lia|].
      rewrite take_ge in Hnext by lia. exact Hnext.
    + split; [first [exact Hpz|reflexivity]|].
      cbn [PuzzleMode.status PuzzleMode.position PuzzleMode.solveIndex].
      split; [lia|]. replace (Z.to_nat (k + 1)) with (S (Z.to_nat k)) by lia.
      exact Hnext.
  - unfold PuzzleMode.retry. rewrite Hpz. split; [first [exact Hpz|reflexivity]|].
    cbn. split; [lia|reflexivity].
Qed.

(** X27. In puzzle mode, whatever squares the user tries and however often
    the puzzle is retried, the status turns to correct only when the board
    shows the position reached by the whole solution, every move of which
    was legal where it was played. *)
Theorem puzzle_correct_means_solution_played (pz : PuzzleMode.Puzzle)
  (events : list PuzzleMode.Event) :
  let st := fold_left PuzzleMode.step events (PuzzleMode.loaded pz) in
  PuzzleMode.status st = PuzzleMode.correct ->
  PuzzleMode.solution pz <> [] /\
  playLegal (parseFen (PuzzleMode.fen pz)) (PuzzleMode.solution pz)
  = Some (PuzzleMode.position st).
Proof.
  cbv zeta.
  assert (H : forall st, puzzleOk pz st ->
                         puzzleOk pz (fold_left PuzzleMode.step events st)).
  { induction events as [|e events IH]; intros st Hst; [exact Hst|].
    cbn [fold_left]. apply IH, puzzleOk_step, Hst. }
  intros Hstatus.
  destruct (H _ (puzzleOk_loaded pz)) as [_ Hst].
  rewrite Hstatus in Hst. exact Hst.
Qed.

Lemma puzzle_correct_means_solution_played_witness :
  let pz := PuzzleMode.mkPuzzle STARTING_FEN ["b2e2"; "h9g7"] in
  let events :=
    [PuzzleMode.Move (mkSquare 7 1) (mkSquare 7 4);
     PuzzleMode.Move (mkSquare 0 1) (mkSquare 2 2);
     PuzzleMode.Retry;
     PuzzleMode.Move (mkSquare 7 1) (mkSquare 7 4);
     PuzzleMode.Move (mkSquare 0 7) (mkSquare 2 6)] in
  let st := fold_left PuzzleMode.step events (PuzzleMode.loaded pz) in
  PuzzleMode.solution pz <> [] /\
  playLegal (parseFen (PuzzleMode.fen pz)) (PuzzleMode.solution pz)
  = Some (PuzzleMode.position st).
Proof.
  apply (puzzle_correct_means_solution_played
           (PuzzleMode.mkPuzzle STARTING_FEN ["b2e2"; "h9g7"])
           [PuzzleMode.Move (mkSquare 7 1) (mkSquare 7 4);
            PuzzleMode.Move (mkSquare 0 1) (mkSquare 2 2);
            PuzzleMode.Retry;
            PuzzleMode.Move (mkSquare 7 1) (mkSquare 7 4);
            PuzzleMode.Move (mkSquare 0 7) (mkSquare 2 6)]).
  vm_compute. reflexivity.
Defined.
